(** * pong-maybe: the neural paddle controller and the physics step

    A shallow embedding of [src/js/ai.js] (class [AIController]) and of the
    physics core of [src/audio-system.js] ([Vector2D], [PhysicsBody],
    [CollisionSystem]), with the properties the specification states about
    them.

    JavaScript numbers are modelled by [num]: the real numbers with exact
    arithmetic, extended with the IEEE values [+Infinity], [-Infinity] and
    [NaN], so that a division by zero, [Math.max()] of nothing and a read
    past the end of an array keep the meaning they have in the source.
    Rounding and overflow of doubles are outside the model, and so is the
    sign of zero: every zero is [+0].  Where a property needs a sum or a
    product to stay finite, or a loop to reach its end, it is stated for
    numbers of moderate size ([JS.moderate]), on which the doubles of the
    source differ from the model by rounding only.

    A method that mutates its object is a function from the object before
    the call to the object after it.  An [async] method is modelled by the
    value its promise resolves to. *)

From Stdlib Require Import Reals Lra Lia List Bool ZArith.
Import ListNotations.

Open Scope R_scope.

(** ** JavaScript numbers *)

Module JS.

Inductive num : Type :=
| Fin (r : R)
| PInf
| NInf
| NaN.

Definition Rltb (a b : R) : bool := if Rlt_dec a b then true else false.
Definition Reqb (a b : R) : bool := if Req_dec_T a b then true else false.

(** The infinity whose sign is that of [r] ([r] is not zero where used). *)
Definition infOfSign (r : R) : num := if Rltb 0 r then PInf else NInf.

Definition neg (a : num) : num :=
  match a with
  | Fin r => Fin (- r)
  | PInf => NInf
  | NInf => PInf
  | NaN => NaN
  end.

Definition add (a b : num) : num :=
  match a, b with
  | NaN, _ | _, NaN => NaN
  | Fin x, Fin y => Fin (x + y)
  | PInf, NInf | NInf, PInf => NaN
  | PInf, _ | _, PInf => PInf
  | NInf, _ | _, NInf => NInf
  end.

Definition sub (a b : num) : num := add a (neg b).

Definition mul (a b : num) : num :=
  match a, b with
  | NaN, _ | _, NaN => NaN
  | Fin x, Fin y => Fin (x * y)
  | Fin x, PInf | PInf, Fin x => if Reqb x 0 then NaN else infOfSign x
  | Fin x, NInf | NInf, Fin x => if Reqb x 0 then NaN else infOfSign (- x)
  | PInf, PInf | NInf, NInf => PInf
  | PInf, NInf | NInf, PInf => NInf
  end.

(** [a / b]; a finite non-zero number over zero is an infinity, [0 / 0] is
    [NaN]. *)
Definition div (a b : num) : num :=
  match a, b with
  | NaN, _ | _, NaN => NaN
  | Fin x, Fin y =>
      if Reqb y 0 then (if Reqb x 0 then NaN else infOfSign x)
      else Fin (x / y)
  | Fin _, PInf | Fin _, NInf => Fin 0
  | PInf, Fin y => if Rltb y 0 then NInf else PInf
  | NInf, Fin y => if Rltb y 0 then PInf else NInf
  | PInf, PInf | PInf, NInf | NInf, PInf | NInf, NInf => NaN
  end.

(** [a < b]; every comparison with [NaN] is false. *)
Definition lt (a b : num) : bool :=
  match a, b with
  | NaN, _ | _, NaN => false
  | Fin x, Fin y => Rltb x y
  | NInf, Fin _ | NInf, PInf | Fin _, PInf => true
  | _, _ => false
  end.

Definition gt (a b : num) : bool := lt b a.

(** [a === b] on numbers. *)
Definition strictEq (a b : num) : bool :=
  match a, b with
  | Fin x, Fin y => Reqb x y
  | PInf, PInf | NInf, NInf => true
  | _, _ => false
  end.

(** [Math.abs]. *)
Definition abs (a : num) : num :=
  match a with
  | Fin r => Fin (Rabs r)
  | PInf | NInf => PInf
  | NaN => NaN
  end.

(** [Math.max(a, b)]. *)
Definition max (a b : num) : num :=
  match a, b with
  | NaN, _ | _, NaN => NaN
  | Fin x, Fin y => Fin (Rmax x y)
  | PInf, _ | _, PInf => PInf
  | NInf, c | c, NInf => c
  end.

(** [Math.min(a, b)]. *)
Definition min (a b : num) : num :=
  match a, b with
  | NaN, _ | _, NaN => NaN
  | Fin x, Fin y => Fin (Rmin x y)
  | NInf, _ | _, NInf => NInf
  | PInf, c | c, PInf => c
  end.

(** [Math.exp]. *)
Definition exp (a : num) : num :=
  match a with
  | Fin r => Fin (Rtrigo_def.exp r)
  | PInf => PInf
  | NInf => Fin 0
  | NaN => NaN
  end.

(** [Math.sqrt]. *)
Definition sqrt (a : num) : num :=
  match a with
  | Fin r => if Rltb r 0 then NaN else Fin (R_sqrt.sqrt r)
  | PInf => PInf
  | NInf | NaN => NaN
  end.




(** [a <= b]; false when an operand is [NaN]. *)
Definition le (a b : num) : bool :=
  match a, b with
  | NaN, _ | _, NaN => false
  | _, _ => negb (lt b a)
  end.

(** The whole part of a real, rounded towards zero. *)
Definition truncZ (r : R) : Z :=
  if Rltb r 0 then (- Int_part (- r))%Z else Int_part r.

(** [a % b]: the remainder of the division truncated towards zero; [NaN]
    for an infinite dividend or a zero divisor, the dividend itself for an
    infinite divisor. *)
Definition rem (a b : num) : num :=
  match a, b with
  | Fin x, Fin y =>
      if Reqb y 0 then NaN else Fin (x - y * IZR (truncZ (x / y)))
  | Fin x, PInf | Fin x, NInf => Fin x
  | _, _ => NaN
  end.

Definition finite (a : num) : Prop :=
  match a with Fin _ => True | _ => False end.

(** A number of moderate size: finite, and either 0 or of a magnitude from
    [2^-100] to [2^100].  A handful of sums, products and quotients of such
    numbers neither overflows nor underflows in doubles. *)
Definition moderate (a : num) : Prop :=
  match a with
  | Fin r => r = 0 \/ / 2 ^ 100 <= Rabs r <= 2 ^ 100
  | _ => False
  end.

(** Reading [a[i]] where a number is expected: past the end the value is
    [undefined], which every arithmetic operation and comparison of the
    source treats as [NaN]. *)
Definition get (a : list num) (i : nat) : num := nth i a NaN.

(** The assignment [a[i] = v]: inside the array it replaces the element,
    past the end the array grows and the holes read as [undefined]. *)
Fixpoint set (a : list num) (i : nat) (v : num) : list num :=
  match a, i with
  | [], O => [v]
  | [], S i' => NaN :: set [] i' v
  | _ :: rest, O => v :: rest
  | x :: rest, S i' => x :: set rest i' v
  end.

End JS.

(** ** Outcomes of a call

    A call returns a value, throws the [TypeError] JavaScript raises when a
    property of [undefined] is read, or is still running when the fuel given
    to its [while] loop is spent. *)

Inductive result (A : Type) : Type :=
| Ok (a : A)
| TypeError
| OutOfFuel.

Arguments Ok {A} a.
Arguments TypeError {A}.
Arguments OutOfFuel {A}.

Definition bind {A B : Type} (m : result A) (f : A -> result B) : result B :=
  match m with
  | Ok a => f a
  | TypeError => TypeError
  | OutOfFuel => OutOfFuel
  end.

Notation "x <- m ;; k" := (bind m (fun x => k))
  (at level 61, m at next level, right associativity).

Fixpoint mapM {A B : Type} (f : A -> result B) (l : list A) : result (list B) :=
  match l with
  | [] => Ok []
  | a :: rest =>
      b <- f a ;;
      bs <- mapM f rest ;;
      Ok (b :: bs)
  end.

(** ** The neural controller ([src/js/ai.js]) *)

Module AI.

Import JS.

Inductive activationKind : Type :=
| Relu
| Softmax
| OtherActivation.

Definition matrix : Type := list (list num).

Record Layer : Type := mkLayer {
  weights : matrix;
  biases : list num;
  activation : activationKind
}.

Definition Network : Type := list Layer.

(** A recorded decision: [{ inputs, action: actionOneHot }]. *)
Record Sample : Type := mkSample {
  inputs : list num;
  action : list num
}.

Record Controller : Type := mkController {
  network : Network;
  learningRate : num;
  trainingData : list Sample;
  maxTrainingData : nat
}.

Record Ball : Type := mkBall {
  ball_x : num;
  ball_y : num;
  speedX : num;
  speedY : num
}.

Record Paddle : Type := mkPaddle {
  paddle_x : num;
  paddle_y : num;
  height : num
}.

(** The constructor, given the network [createNetwork] drew at random. *)
Definition newController (net : Network) : Controller :=
  {| network := net;
     learningRate := Fin 0.01;
     trainingData := [];
     maxTrainingData := 200 |}.

(** A weight matrix of [rows] rows of [cols] entries with its bias vector
    of [cols] entries, as [randomMatrix] and [randomArray] build them. *)
Definition wellShaped (rows cols : nat) (w : matrix) (b : list num) : Prop :=
  length w = rows /\ Forall (fun row => length row = cols) w /\ length b = cols.

Definition allFinite (w : matrix) (b : list num) : Prop :=
  Forall (Forall finite) w /\ Forall finite b.

Definition shaped (rows cols : nat) (k : activationKind) (l : Layer) : Prop :=
  wellShaped rows cols (weights l) (biases l) /\
  allFinite (weights l) (biases l) /\
  activation l = k.

(** The network as [createNetwork] builds it: three layers of shapes 4x16,
    16x8 and 8x3, the first two rectified-linear and the last
    normalized-exponential, every weight and bias a finite number. *)
Definition wellFormed (net : Network) : Prop :=
  exists l0 l1 l2,
    net = [l0; l1; l2] /\
    shaped 4 16 Relu l0 /\ shaped 16 8 Relu l1 /\ shaped 8 3 Softmax l2.

Definition relu (x : num) : num := max (Fin 0) x.

(** [Math.max(...values)]: [-Infinity] for no argument. *)
Definition maxOf (values : list num) : num := fold_left max values NInf.

Definition softmax (values : list num) : list num :=
  let m := maxOf values in
  let exps := map (fun v => exp (sub v m)) values in
  let sum := fold_left add exps (Fin 0) in
  map (fun e => div e sum) exps.

(** The inner loop of [matrixMultiply] for column [j], from row [i] on:
    [sum += input[i] * weights[i][j]].  Reading [weights[i][j]] throws when
    [weights[i]] is [undefined]. *)
Fixpoint columnSum (weights : matrix) (j : nat) (input : list num) (i : nat)
    (sum : num) : result num :=
  match input with
  | [] => Ok sum
  | x :: rest =>
      match nth_error weights i with
      | None => TypeError
      | Some row => columnSum weights j rest (S i) (add sum (mul x (get row j)))
      end
  end.

Definition matrixMultiply (input : list num) (weights : matrix)
    (biases : list num) : result (list num) :=
  match weights with
  | [] => TypeError
  | row0 :: _ =>
      mapM (fun j => columnSum weights j input 0 (get biases j))
           (List.seq 0 (length row0))
  end.

Record Forward : Type := mkForward {
  output : list num;
  activations : list (list num)
}.

(** The loop of [forwardPass] over the remaining layers. *)
Fixpoint forwardLayers (layers : list Layer) (activation : list num)
    (activations : list (list num)) : result Forward :=
  match layers with
  | [] => Ok {| output := activation; activations := activations |}
  | layer :: rest =>
      z <- matrixMultiply activation (weights layer) (biases layer) ;;
      let activation' :=
        match AI.activation layer with
        | Relu => map relu z
        | Softmax => softmax z
        | OtherActivation => activation
        end in
      forwardLayers rest activation' (activations ++ [activation'])
  end.

Definition forwardPass (net : Network) (inputs : list num) : result Forward :=
  forwardLayers net inputs [inputs].

Definition normalizeInputs (ball : Ball) (paddle : Paddle)
    (canvasWidth canvasHeight : num) : list num :=
  [ div (ball_y ball) canvasHeight;
    div (speedY ball) (Fin 10);
    div (sub (ball_x ball) (paddle_x paddle)) canvasWidth;
    div (paddle_y paddle) canvasHeight ].

(** The [while] loop of [predictBallY].  In exact arithmetic every turn
    moves the height; in doubles a height beyond about [2^53] canvas
    heights absorbs the step [2 * canvasHeight], so the statements on the
    end of the loop keep the straight-line height within 1024 canvas
    heights. *)
Fixpoint bounce (fuel : nat) (predictedY canvasHeight : num) : result num :=
  if lt predictedY (Fin 0) || gt predictedY canvasHeight then
    match fuel with
    | O => OutOfFuel
    | S fuel' =>
        if lt predictedY (Fin 0) then bounce fuel' (neg predictedY) canvasHeight
        else if gt predictedY canvasHeight then
          bounce fuel' (sub (mul (Fin 2) canvasHeight) predictedY) canvasHeight
        else bounce fuel' predictedY canvasHeight
    end
  else Ok predictedY.

Definition predictBallY (fuel : nat) (ball : Ball) (targetX : num)
    (canvasWidth canvasHeight : num) : result num :=
  let timeToReach := div (abs (sub targetX (ball_x ball))) (abs (speedX ball)) in
  let predictedY := add (ball_y ball) (mul (speedY ball) timeToReach) in
  bounce fuel predictedY canvasHeight.

Definition predict (fuel : nat) (net : Network) (ball : Ball) (paddle : Paddle)
    (canvasWidth canvasHeight : num) : result Z :=
  let inputs := normalizeInputs ball paddle canvasWidth canvasHeight in
  f <- forwardPass net inputs ;;
  let output := output f in
  let ballComingTowards := gt (speedX ball) (Fin 0) in
  predictedY <- predictBallY fuel ball (paddle_x paddle) canvasWidth canvasHeight ;;
  if ballComingTowards then
    let targetY := sub predictedY (div (height paddle) (Fin 2)) in
    let currentY := paddle_y paddle in
    let diff := sub targetY currentY in
    if lt (abs diff) (Fin 5) then Ok 0%Z
    else if gt diff (Fin 0) then
      Ok (if gt (get output 2) (get output 0) then 1%Z else 0%Z)
    else
      Ok (if gt (get output 0) (get output 2) then (-1)%Z else 0%Z)
  else
    let centerY := div canvasHeight (Fin 2) in
    let diff := sub (sub centerY (paddle_y paddle)) (div (height paddle) (Fin 2)) in
    if lt (abs diff) (Fin 10) then Ok 0%Z
    else Ok (if gt diff (Fin 0) then 1%Z else (-1)%Z).

(** [actionOneHot[action + 1] = 1] on [[0, 0, 0]]; a negative index names a
    property and leaves the elements as they are. *)
Definition oneHot (action : Z) : list num :=
  let actionOneHot := [Fin 0; Fin 0; Fin 0] in
  if (action + 1 <? 0)%Z then actionOneHot
  else set actionOneHot (Z.to_nat (action + 1)) (Fin 1).

Definition sampleOf (ball : Ball) (paddle : Paddle)
    (canvasWidth canvasHeight : num) (action : Z) : Sample :=
  {| inputs := normalizeInputs ball paddle canvasWidth canvasHeight;
     action := oneHot action |}.

(** [push], then [shift] when the buffer is over its capacity. *)
Definition recordDecision (c : Controller) (ball : Ball) (paddle : Paddle)
    (canvasWidth canvasHeight : num) (action : Z) : Controller :=
  let pushed :=
    trainingData c ++ [sampleOf ball paddle canvasWidth canvasHeight action] in
  {| network := network c;
     learningRate := learningRate c;
     trainingData :=
       if (maxTrainingData c <? length pushed)%nat then tl pushed else pushed;
     maxTrainingData := maxTrainingData c |}.

Fixpoint foldM {A S : Type} (f : S -> A -> result S) (l : list A) (s : S)
    : result S :=
  match l with
  | [] => Ok s
  | a :: rest => s' <- f s a ;; foldM f rest s'
  end.

(** Reading [w[i][j]] in a matrix whose row [i] exists. *)
Definition entry (w : matrix) (i j : nat) : num := get (nth i w []) j.

(** The update rule in the words of the specification, to compare the
    loops of [updateWeights] with: a weight plus
    [learningRate * error[j] * inputActivation[i]], a bias plus
    [learningRate * error[j]], and the sum of the errors of a layer weighted
    by row [i] of a matrix. *)
Definition steppedWeight (lr : num) (error prevActivation : list num)
    (w : matrix) (i j : nat) : num :=
  add (entry w i j) (mul (mul lr (get error j)) (get prevActivation i)).

Definition steppedBias (lr : num) (error b : list num) (j : nat) : num :=
  add (get b j) (mul lr (get error j)).

Definition weightedError (error : list num) (w : matrix) (cols i : nat) : num :=
  fold_left (fun acc j => add acc (mul (get error j) (entry w i j)))
            (List.seq 0 cols) (Fin 0).

(** [m[i] = row] for a row that exists. *)
Fixpoint setRow (m : matrix) (i : nat) (row : list num) : matrix :=
  match m, i with
  | [], _ => []
  | _ :: rest, O => row :: rest
  | r :: rest, S i' => r :: setRow rest i' row
  end.

(** The body of the inner loop of [updateWeights], at output unit [j] and
    input unit [i] of layer number [l]: the weight takes its gradient, and
    the error for the previous layer accumulates through the weight just
    written. *)
Definition updateCell (lr : num) (l : nat) (error prevActivation : list num)
    (j : nat) (st : Layer * list num) (i : nat) : result (Layer * list num) :=
  let (layer, nextError) := st in
  let gradient := mul (mul lr (get error j)) (get prevActivation i) in
  match nth_error (weights layer) i with
  | None => TypeError
  | Some row =>
      let w := add (get row j) gradient in
      let layer' :=
        {| weights := setRow (weights layer) i (set row j w);
           biases := biases layer;
           activation := activation layer |} in
      Ok (layer',
          if (0 <? l)%nat
          then set nextError i (add (get nextError i) (mul (get error j) w))
          else nextError)
  end.

(** The body of the outer loop, at output unit [j]. *)
Definition updateUnit (lr : num) (l : nat) (error prevActivation : list num)
    (st : Layer * list num) (j : nat) : result (Layer * list num) :=
  let (layer, nextError) := st in
  let layer' :=
    {| weights := weights layer;
       biases :=
         set (biases layer) j (add (get (biases layer) j) (mul lr (get error j)));
       activation := activation layer |} in
  foldM (updateCell lr l error prevActivation j)
        (List.seq 0 (length prevActivation)) (layer', nextError).

(** The derivative gate: [nextError[i] = activations[l][i] > 0 ? nextError[i] : 0]. *)
Definition gate (prevActivation nextError : list num) : list num :=
  map (fun i => if gt (get prevActivation i) (Fin 0) then get nextError i else Fin 0)
      (List.seq 0 (length nextError)).

Definition isRelu (k : activationKind) : bool :=
  match k with Relu => true | _ => false end.

(** One turn of the loop over the layers: layer number [l] is updated from
    [error], and the error for the layer before it is returned. *)
Definition updateLayer (lr : num) (l : nat) (layer : Layer)
    (prevActivation error : list num) : result (Layer * list num) :=
  let nextError := repeat (Fin 0) (length prevActivation) in
  st <- foldM (updateUnit lr l error prevActivation)
              (List.seq 0 (length error)) (layer, nextError) ;;
  let (layer', nextError') := st in
  Ok (layer',
      if (0 <? l)%nat && isRelu (activation layer')
      then gate prevActivation nextError'
      else nextError').

Fixpoint setLayer (net : Network) (l : nat) (layer : Layer) : Network :=
  match net, l with
  | [], _ => []
  | _ :: rest, O => layer :: rest
  | x :: rest, S l' => x :: setLayer rest l' layer
  end.

(** The loop [for (l = layers.length - 1; l >= 0; l--)], with [n] layers
    still to visit; [activations[l].length] throws when [activations[l]] is
    [undefined]. *)
Fixpoint backpropagate (lr : num) (activations : list (list num))
    (net : Network) (n : nat) (error : list num) : result Network :=
  match n with
  | O => Ok net
  | S l =>
      match nth_error net l, nth_error activations l with
      | Some layer, Some prevActivation =>
          st <- updateLayer lr l layer prevActivation error ;;
          let (layer', nextError) := st in
          backpropagate lr activations (setLayer net l layer') l nextError
      | _, _ => TypeError
      end
  end.

Definition updateWeights (lr : num) (net : Network)
    (activations : list (list num)) (finalError : list num) : result Network :=
  backpropagate lr activations net (length net) finalError.

(** The error of one sample: [(data.action[i] - output[i]) * rewardFactor]
    for [i] from 0 to 2. *)
Definition errorOf (data : Sample) (output : list num) (rewardFactor : num)
    : list num :=
  map (fun i => mul (sub (get (action data) i) (get output i)) rewardFactor)
      (List.seq 0 3).

Definition trainSample (lr rewardFactor : num) (net : Network) (data : Sample)
    : result Network :=
  f <- forwardPass net (inputs data) ;;
  updateWeights lr net (activations f) (errorOf data (output f) rewardFactor).

(** [slice(-k)]: the last [k] elements, all of them when there are fewer. *)
Definition sliceLast {A : Type} (k : nat) (l : list A) : list A :=
  skipn (length l - k) l.

Definition withNetwork (c : Controller) (net : Network) : Controller :=
  {| network := net;
     learningRate := learningRate c;
     trainingData := trainingData c;
     maxTrainingData := maxTrainingData c |}.

(** A throw inside the loop leaves the network half updated in the source;
    the model reports the throw only. *)
Definition trainOnRecentData (c : Controller) (rewardFactor : num)
    : result Controller :=
  if (length (trainingData c) <? 10)%nat then Ok c
  else
    let recentData := sliceLast 30 (trainingData c) in
    net <- foldM (trainSample (learningRate c) rewardFactor) recentData (network c) ;;
    Ok (withNetwork c net).

Definition reward (c : Controller) : result Controller :=
  if (length (trainingData c) <? 20)%nat then Ok c
  else trainOnRecentData c (Fin 1.0).

Definition punish (c : Controller) : result Controller :=
  if (length (trainingData c) <? 20)%nat then Ok c
  else trainOnRecentData c (Fin (- 0.5)).

(** *** Construction

    [Math.random()] is modelled by a source [rand]: the real the [k]-th call
    returns, a number from 0 (included) to 1 (excluded).  A function that
    draws random numbers takes the number of calls made so far and returns
    it updated. *)

Definition validSource (rand : nat -> R) : Prop := forall k, 0 <= rand k < 1.

(** [randomArray(size)]: [(Math.random() * 2 - 1) * 0.1], [size] times. *)
Fixpoint randomArray (rand : nat -> R) (size : nat) (k : nat) : list num * nat :=
  match size with
  | O => ([], k)
  | S size' =>
      let v := mul (sub (mul (Fin (rand k)) (Fin 2)) (Fin 1)) (Fin 0.1) in
      let (rest, k') := randomArray rand size' (S k) in
      (v :: rest, k')
  end.

(** One row of [randomMatrix(rows, cols)]:
    [(Math.random() * 2 - 1) * Math.sqrt(2.0 / rows)], [cols] times. *)
Fixpoint randomRow (rand : nat -> R) (rows cols : nat) (k : nat)
    : list num * nat :=
  match cols with
  | O => ([], k)
  | S cols' =>
      let v := mul (sub (mul (Fin (rand k)) (Fin 2)) (Fin 1))
                   (sqrt (div (Fin 2.0) (Fin (INR rows)))) in
      let (rest, k') := randomRow rand rows cols' (S k) in
      (v :: rest, k')
  end.

(** The loop over the rows of [randomMatrix(rows, cols)], with [n] rows
    still to build. *)
Fixpoint randomRows (rand : nat -> R) (rows cols : nat) (n : nat) (k : nat)
    : matrix * nat :=
  match n with
  | O => ([], k)
  | S n' =>
      let (row, k1) := randomRow rand rows cols k in
      let (rest, k2) := randomRows rand rows cols n' k1 in
      (row :: rest, k2)
  end.

Definition randomMatrix (rand : nat -> R) (rows cols : nat) (k : nat)
    : matrix * nat :=
  randomRows rand rows cols rows k.

(** [createNetwork()]: the matrices and arrays are drawn in the order the
    object literal lists them. *)
Definition createNetwork (rand : nat -> R) (k : nat) : Network * nat :=
  let (w0, k1) := randomMatrix rand 4 16 k in
  let (b0, k2) := randomArray rand 16 k1 in
  let (w1, k3) := randomMatrix rand 16 8 k2 in
  let (b1, k4) := randomArray rand 8 k3 in
  let (w2, k5) := randomMatrix rand 8 3 k4 in
  let (b2, k6) := randomArray rand 3 k5 in
  ([ {| weights := w0; biases := b0; activation := Relu |};
     {| weights := w1; biases := b1; activation := Relu |};
     {| weights := w2; biases := b2; activation := Softmax |} ], k6).

(** Every entry is a finite number of magnitude at most [M]. *)
Definition within (M : R) (l : list num) : Prop :=
  Forall (fun v => exists x, v = Fin x /\ Rabs x <= M) l.

(** [dispose()]. *)
Definition dispose (c : Controller) : Controller :=
  {| network := network c;
     learningRate := learningRate c;
     trainingData := [];
     maxTrainingData := maxTrainingData c |}.


End AI.

(** ** The physics step ([src/audio-system.js])

    Every division the source performs is also logged: a computation
    returns its value together with the list of the divisors it used, in the
    order it used them.  The value is what JavaScript computes; the log is
    there so that a property such as the absence of a division by zero can
    be stated. *)

Definition Logged (A : Type) : Type := (A * list JS.num)%type.

Definition ret {A : Type} (a : A) : Logged A := (a, []).

Definition andThen {A B : Type} (m : Logged A) (f : A -> Logged B) : Logged B :=
  let (a, log1) := m in
  let (b, log2) := f a in
  (b, log1 ++ log2).

Notation "'do' x <~ m ; k" := (andThen m (fun x => k))
  (at level 10, x name, m at level 100, k at level 200).

(** The operator [a / b]. *)
Definition quotient (a b : JS.num) : Logged JS.num := (JS.div a b, [b]).

Definition value {A : Type} (m : Logged A) : A := fst m.
Definition divisors {A : Type} (m : Logged A) : list JS.num := snd m.

Module GAME_CONFIG.
Definition gravity : JS.num := JS.Fin 0.5.
Definition airResistance : JS.num := JS.Fin 0.001.
Definition friction : JS.num := JS.Fin 0.98.
Definition elasticity : JS.num := JS.Fin 1.0.
Definition maxVelocity : JS.num := JS.Fin 30.
Definition rotationalDamping : JS.num := JS.Fin 0.99.
Definition ballRadius : JS.num := JS.Fin 8.
Definition canvasWidth : JS.num := JS.Fin 1200.
Definition canvasHeight : JS.num := JS.Fin 800.
Definition memorySize : nat := 1000.
End GAME_CONFIG.

Module Vector2D.

Record t : Type := mk { x : JS.num; y : JS.num }.

Definition add (a v : t) : t := mk (JS.add (x a) (x v)) (JS.add (y a) (y v)).

Definition subtract (a v : t) : t := mk (JS.sub (x a) (x v)) (JS.sub (y a) (y v)).

Definition multiply (a : t) (scalar : JS.num) : t :=
  mk (JS.mul (x a) scalar) (JS.mul (y a) scalar).

Definition divide (a : t) (scalar : JS.num) : Logged t :=
  if JS.strictEq scalar (JS.Fin 0) then ret (mk (JS.Fin 0) (JS.Fin 0))
  else
    do qx <~ quotient (x a) scalar;
    do qy <~ quotient (y a) scalar;
    ret (mk qx qy).

Definition dot (a v : t) : JS.num :=
  JS.add (JS.mul (x a) (x v)) (JS.mul (y a) (y v)).

Definition magnitude (a : t) : JS.num :=
  JS.sqrt (JS.add (JS.mul (x a) (x a)) (JS.mul (y a) (y a))).

(** [normalize()].  The sum of squares of the model neither overflows nor
    underflows, as it does in doubles for coordinates beyond about 1e154 or
    below 1e-162, where the magnitude is computed as [Infinity] or 0. *)
Definition normalize (a : t) : Logged t :=
  let mag := magnitude a in
  if JS.strictEq mag (JS.Fin 0) then ret (mk (JS.Fin 0) (JS.Fin 0))
  else divide a mag.

Definition limit (a : t) (max : JS.num) : Logged t :=
  let mag := magnitude a in
  if JS.gt mag max then
    do n <~ normalize a;
    ret (multiply n max)
  else ret (mk (x a) (y a)).

(** [Math.pow(d, 2)] is [d * d] on every number of the model. *)
Definition distanceTo (a v : t) : JS.num :=
  let dx := JS.sub (x a) (x v) in
  let dy := JS.sub (y a) (y v) in
  JS.sqrt (JS.add (JS.mul dx dx) (JS.mul dy dy)).

Definition finite (a : t) : Prop := JS.finite (x a) /\ JS.finite (y a).

Definition moderate (a : t) : Prop := JS.moderate (x a) /\ JS.moderate (y a).



End Vector2D.

Module Physics.

Import JS.

(** [PhysicsBody], with the [radius] its subclass [Ball] adds and the
    collision code reads. *)
Record PhysicsBody : Type := mkBody {
  position : Vector2D.t;
  velocity : Vector2D.t;
  acceleration : Vector2D.t;
  force : Vector2D.t;
  mass : num;
  inverseMass : num;
  restitution : num;
  friction : num;
  angularVelocity : num;
  angularAcceleration : num;
  torque : num;
  rotation : num;
  momentOfInertia : num;
  isStatic : bool;
  affectedByGravity : bool;
  affectedByDrag : bool;
  radius : num
}.

Record Rect : Type := mkRect {
  rect_x : num;
  rect_y : num;
  width : num;
  height : num
}.

(** The object [resolveCircleRect] returns. *)
Record Collision : Type := mkCollision {
  normal : Vector2D.t;
  impulse : Vector2D.t;
  point : Vector2D.t;
  relativeVelocity : Vector2D.t
}.

Definition zero : Vector2D.t := Vector2D.mk (Fin 0) (Fin 0).


(** A body whose position, velocity, accumulated force, inverse mass,
    friction, restitution and radius are of moderate size. *)
Definition moderateBody (b : PhysicsBody) : Prop :=
  Vector2D.moderate (position b) /\ Vector2D.moderate (velocity b) /\
  Vector2D.moderate (force b) /\
  moderate (inverseMass b) /\ moderate (friction b) /\
  moderate (restitution b) /\ moderate (radius b).

(** [new Ball(x, y)]: the constructor of [PhysicsBody] with mass 1, then the
    radius. *)
Definition newBody (x0 y0 m r : num) : Logged PhysicsBody :=
  do im <~ (if gt m (Fin 0) then quotient (Fin 1) m else ret (Fin 0));
  ret {| position := Vector2D.mk x0 y0;
         velocity := zero;
         acceleration := zero;
         force := zero;
         mass := m;
         inverseMass := im;
         restitution := GAME_CONFIG.elasticity;
         friction := GAME_CONFIG.friction;
         angularVelocity := Fin 0;
         angularAcceleration := Fin 0;
         torque := Fin 0;
         rotation := Fin 0;
         momentOfInertia := mul m (Fin 10);
         isStatic := false;
         affectedByGravity := false;
         affectedByDrag := true;
         radius := r |}.

Definition withVelocity (b : PhysicsBody) (v : Vector2D.t) : PhysicsBody :=
  mkBody (position b) v (acceleration b) (force b) (mass b) (inverseMass b)
    (restitution b) (friction b) (angularVelocity b) (angularAcceleration b)
    (torque b) (rotation b) (momentOfInertia b) (isStatic b)
    (affectedByGravity b) (affectedByDrag b) (radius b).

Definition withPosition (b : PhysicsBody) (p : Vector2D.t) : PhysicsBody :=
  mkBody p (velocity b) (acceleration b) (force b) (mass b) (inverseMass b)
    (restitution b) (friction b) (angularVelocity b) (angularAcceleration b)
    (torque b) (rotation b) (momentOfInertia b) (isStatic b)
    (affectedByGravity b) (affectedByDrag b) (radius b).

Definition withAngularVelocity (b : PhysicsBody) (w : num) : PhysicsBody :=
  mkBody (position b) (velocity b) (acceleration b) (force b) (mass b)
    (inverseMass b) (restitution b) (friction b) w (angularAcceleration b)
    (torque b) (rotation b) (momentOfInertia b) (isStatic b)
    (affectedByGravity b) (affectedByDrag b) (radius b).



(** [PhysicsBody.update(deltaTime)].  The products of the model cannot
    overflow as those of doubles do; a force that overflows in the source is
    an infinite force here. *)
Definition update (b : PhysicsBody) (deltaTime : num) : Logged PhysicsBody :=
  if isStatic b then ret b
  else
    let acceleration0 := Vector2D.multiply (force b) (inverseMass b) in
    let acceleration1 :=
      if affectedByGravity b
      then Vector2D.mk (Vector2D.x acceleration0)
                       (add (Vector2D.y acceleration0) GAME_CONFIG.gravity)
      else acceleration0 in
    let velocity1 :=
      Vector2D.add (velocity b) (Vector2D.multiply acceleration1 deltaTime) in
    let velocity2 :=
      if affectedByDrag b
      then
        let dragForce := Vector2D.multiply velocity1 (neg GAME_CONFIG.airResistance) in
        Vector2D.add velocity1 dragForce
      else velocity1 in
    let velocity3 := Vector2D.multiply velocity2 (friction b) in
    do velocity4 <~ Vector2D.limit velocity3 GAME_CONFIG.maxVelocity;
    let position1 :=
      Vector2D.add (position b) (Vector2D.multiply velocity4 deltaTime) in
    do angularAcceleration1 <~ quotient (torque b) (momentOfInertia b);
    let angularVelocity1 :=
      add (angularVelocity b) (mul angularAcceleration1 deltaTime) in
    let angularVelocity2 := mul angularVelocity1 GAME_CONFIG.rotationalDamping in
    let rotation1 := add (rotation b) (mul angularVelocity2 deltaTime) in
    ret {| position := position1;
           velocity := velocity4;
           acceleration := acceleration1;
           force := zero;
           mass := mass b;
           inverseMass := inverseMass b;
           restitution := restitution b;
           friction := friction b;
           angularVelocity := angularVelocity2;
           angularAcceleration := angularAcceleration1;
           torque := Fin 0;
           rotation := rotation1;
           momentOfInertia := momentOfInertia b;
           isStatic := isStatic b;
           affectedByGravity := affectedByGravity b;
           affectedByDrag := affectedByDrag b;
           radius := radius b |}.

(** [MathUtil.clamp]. *)
Definition clamp (value lo hi : num) : num := max lo (min hi value).

(** The closest point of the rectangle to the centre of the ball. *)
Definition closestPoint (ball : PhysicsBody) (rect : Rect) : Vector2D.t :=
  Vector2D.mk
    (clamp (Vector2D.x (position ball)) (rect_x rect) (add (rect_x rect) (width rect)))
    (clamp (Vector2D.y (position ball)) (rect_y rect) (add (rect_y rect) (height rect))).

(** The contact normal of [resolveCircleRect]: the normalized offset of the
    centre from the closest point, and [normal.x = 1] when its magnitude is
    zero. *)
Definition contactNormal (ball : PhysicsBody) (rect : Rect) : Logged Vector2D.t :=
  let closest := closestPoint ball rect in
  do normal0 <~ Vector2D.normalize (Vector2D.subtract (position ball) closest);
  ret (if strictEq (Vector2D.magnitude normal0) (Fin 0)
       then Vector2D.mk (Fin 1) (Vector2D.y normal0)
       else normal0).

(** [resolveCircleRect(ball, rect, rectVel)]: the ball after the call and
    what the call returns ([None] for [undefined]). *)
Definition resolveCircleRect (ball : PhysicsBody) (rect : Rect)
    (rectVel : Vector2D.t) : Logged (PhysicsBody * option Collision) :=
  let closest := closestPoint ball rect in
  do normal <~ contactNormal ball rect;
  let relVel := Vector2D.subtract (velocity ball) rectVel in
  let velAlongNormal := Vector2D.dot relVel normal in
  if gt velAlongNormal (Fin 0) then ret (ball, None)
  else
    let e := restitution ball in
    let j := mul (neg (add (Fin 1) e)) velAlongNormal in
    let impulse := Vector2D.multiply normal j in
    let ball1 := withVelocity ball (Vector2D.add (velocity ball) impulse) in
    do half <~ quotient (height rect) (Fin 2);
    let offsetY := sub (Vector2D.y (position ball1)) (add (rect_y rect) half) in
    let ball2 :=
      withAngularVelocity ball1
        (add (angularVelocity ball1) (mul offsetY (Fin 0.01))) in
    let separation := sub (radius ball2) (Vector2D.magnitude normal) in
    let ball3 :=
      withPosition ball2
        (Vector2D.add (position ball2) (Vector2D.multiply normal separation)) in
    ret (ball3,
         Some {| normal := normal;
                 impulse := impulse;
                 point := closest;
                 relativeVelocity := relVel |}).

(** [resolveCircleCircle(c1, c2)], for two distinct bodies.  In exact
    arithmetic the centres end [r1 + r2] apart, on the boundary of the
    strict test of [checkCircleCircle]: nothing is stated on what that test
    answers after the call, which rounding decides. *)
Definition resolveCircleCircle (c1 c2 : PhysicsBody)
    : Logged (PhysicsBody * PhysicsBody) :=
  do normal <~ Vector2D.normalize (Vector2D.subtract (position c1) (position c2));
  let relVel := Vector2D.subtract (velocity c1) (velocity c2) in
  let velAlongNormal := Vector2D.dot relVel normal in
  if gt velAlongNormal (Fin 0) then ret (c1, c2)
  else
    let e := min (restitution c1) (restitution c2) in
    let j := mul (neg (add (Fin 1) e)) velAlongNormal in
    do scale <~ quotient j (add (inverseMass c1) (inverseMass c2));
    let impulse := Vector2D.multiply normal scale in
    let c1a :=
      withVelocity c1
        (Vector2D.add (velocity c1) (Vector2D.multiply impulse (inverseMass c1))) in
    let c2a :=
      withVelocity c2
        (Vector2D.subtract (velocity c2) (Vector2D.multiply impulse (inverseMass c2))) in
    let overlap :=
      sub (add (radius c1a) (radius c2a))
          (Vector2D.distanceTo (position c1a) (position c2a)) in
    do halfOverlap <~ quotient overlap (Fin 2);
    let separation := Vector2D.multiply normal halfOverlap in
    ret (withPosition c1a (Vector2D.add (position c1a) separation),
         withPosition c2a (Vector2D.subtract (position c2a) separation)).

(** Two bodies given by the finite numbers [resolveCircleCircle] reads:
    positions, velocities, inverse masses, restitutions and radii. *)
Definition placed (c1 c2 : PhysicsBody)
    (x1 y1 x2 y2 u1 w1 u2 w2 i1 i2 e1 e2 r1 r2 : R) : Prop :=
  position c1 = Vector2D.mk (Fin x1) (Fin y1) /\
  position c2 = Vector2D.mk (Fin x2) (Fin y2) /\
  velocity c1 = Vector2D.mk (Fin u1) (Fin w1) /\
  velocity c2 = Vector2D.mk (Fin u2) (Fin w2) /\
  inverseMass c1 = Fin i1 /\ inverseMass c2 = Fin i2 /\
  restitution c1 = Fin e1 /\ restitution c2 = Fin e2 /\
  radius c1 = Fin r1 /\ radius c2 = Fin r2.




(** The object [{ x, y, radius }] the collision checks take. *)
Record Circle : Type := mkCircle {
  circle_x : num;
  circle_y : num;
  circle_radius : num
}.


(** [checkCircleCircle(c1, c2)]. *)
Definition checkCircleCircle (c1 c2 : Circle) : bool :=
  let dx := sub (circle_x c1) (circle_x c2) in
  let dy := sub (circle_y c1) (circle_y c2) in
  let distSquared := add (mul dx dx) (mul dy dy) in
  let radiusSum := add (circle_radius c1) (circle_radius c2) in
  lt distSquared (mul radiusSum radiusSum).

(** [{ x: ball.position.x, y: ball.position.y, radius: ball.radius }]. *)
Definition circleOf (ball : PhysicsBody) : Circle :=
  mkCircle (Vector2D.x (position ball)) (Vector2D.y (position ball)) (radius ball).

(** What [checkBallBallCollision(ball1, ball2)] does to the two balls (its
    sound and particles are left out). *)
Definition checkBallBallCollision (ball1 ball2 : PhysicsBody)
    : Logged (PhysicsBody * PhysicsBody) :=
  if checkCircleCircle (circleOf ball1) (circleOf ball2)
  then resolveCircleCircle ball1 ball2
  else ret (ball1, ball2).

(** The player [scorePoint] is called for. *)
Inductive Player : Type :=
| player1
| player2.

(** [checkBallWallCollision(ball)] up to its first call of [scorePoint]:
    the ball after the top and bottom walls, and the player the point goes
    to when the ball is past the left or the right wall.  What [scorePoint]
    does then (sound, particles, the reset or removal of the ball) is not
    part of the model. *)
Definition checkBallWallCollision (ball : PhysicsBody)
    : PhysicsBody * option Player :=
  let ball1 :=
    if lt (sub (Vector2D.y (position ball)) (radius ball)) (Fin 0)
    then
      withVelocity
        (withPosition ball (Vector2D.mk (Vector2D.x (position ball)) (radius ball)))
        (Vector2D.mk (Vector2D.x (velocity ball))
                     (mul (abs (Vector2D.y (velocity ball))) (restitution ball)))
    else ball in
  let ball2 :=
    if gt (add (Vector2D.y (position ball1)) (radius ball1)) GAME_CONFIG.canvasHeight
    then
      withVelocity
        (withPosition ball1
           (Vector2D.mk (Vector2D.x (position ball1))
                        (sub GAME_CONFIG.canvasHeight (radius ball1))))
        (Vector2D.mk (Vector2D.x (velocity ball1))
                     (mul (neg (abs (Vector2D.y (velocity ball1)))) (restitution ball1)))
    else ball1 in
  (ball2,
   if lt (sub (Vector2D.x (position ball2)) (radius ball2)) (Fin 0)
   then Some player2
   else if gt (add (Vector2D.x (position ball2)) (radius ball2)) GAME_CONFIG.canvasWidth
        then Some player1
        else None).

End Physics.

(** [MathUtil] ([src/audio-system.js]). *)

Module MathUtil.

Import JS.

Definition clamp (value lo hi : num) : num := Physics.clamp value lo hi.


Definition map (value inMin inMax outMin outMax : num) : Logged num :=
  do q <~ quotient (mul (sub value inMin) (sub outMax outMin)) (sub inMax inMin);
  ret (add q outMin).


(** The [for] loop of [isPrime], from the trial divisor [i]. *)
Fixpoint isPrimeLoop (fuel : nat) (n i : num) : result bool :=
  if le (mul i i) n then
    match fuel with
    | O => OutOfFuel
    | S fuel' =>
        if strictEq (rem n i) (Fin 0)
           || strictEq (rem n (add i (Fin 2))) (Fin 0)
        then Ok false
        else isPrimeLoop fuel' n (add i (Fin 6))
    end
  else Ok true.

Definition isPrime (fuel : nat) (n : num) : result bool :=
  if le n (Fin 1) then Ok false
  else if le n (Fin 3) then Ok true
  else if strictEq (rem n (Fin 2)) (Fin 0)
          || strictEq (rem n (Fin 3)) (Fin 0)
  then Ok false
  else isPrimeLoop fuel n (Fin 5).

End MathUtil.

(** [Random] ([src/audio-system.js]); [r] is the number [Math.random()]
    returns. *)

Module Random.

Import JS.





End Random.

(** The bookkeeping of [NeuralNetworkAI] ([src/audio-system.js]): the
    replay memory and the reward. *)

Module NeuralNetworkAI.

Import JS.

(** One entry of the replay memory. *)
Record Experience : Type := mkExperience {
  state : list num;
  action : num;
  reward : num;
  nextState : list num;
  done : bool
}.

(** The fields [remember] reads and writes. *)
Record t : Type := mk {
  memory : list Experience;
  memorySize : nat;
  rewardHistory : list num
}.

(** The constructor. *)
Definition new : t :=
  {| memory := []; memorySize := GAME_CONFIG.memorySize; rewardHistory := [] |}.

(** [remember(state, action, reward, nextState, done)]. *)
Definition remember (ai : t) (e : Experience) : t :=
  let pushed := memory ai ++ [e] in
  {| memory := if (memorySize ai <? length pushed)%nat then tl pushed else pushed;
     memorySize := memorySize ai;
     rewardHistory := rewardHistory ai ++ [reward e] |}.

(** [calculateReward(paddle, ball, scored, conceded)]. *)
Definition calculateReward (paddle ball : Physics.PhysicsBody)
    (scored conceded : bool) : Logged num :=
  let reward0 := Fin 0 in
  let reward1 := if scored then add reward0 (Fin 10) else reward0 in
  let reward2 := if conceded then sub reward1 (Fin 10) else reward1 in
  if negb scored && negb conceded then
    let error :=
      abs (sub (Vector2D.y (Physics.position ball))
               (Vector2D.y (Physics.position paddle))) in
    do q1 <~ quotient error (Fin 100);
    let reward3 := add reward2 (max (Fin 0) (sub (Fin 1) q1)) in
    if gt (Vector2D.x (Physics.velocity ball)) (Fin 0) then
      let trackingError :=
        abs (sub (Vector2D.y (Physics.position ball))
                 (Vector2D.y (Physics.position paddle))) in
      do q2 <~ quotient trackingError (Fin 200);
      ret (add reward3 (max (Fin 0) (sub (Fin 1) q2)))
    else ret reward3
  else ret reward2.

End NeuralNetworkAI.

(** ** Runs of calls and concrete inputs *)

Module Runs.

Import JS AI.

(** The arguments of one call of [recordDecision]. *)
Record Decision : Type := mkDecision {
  d_ball : Ball;
  d_paddle : Paddle;
  d_canvasWidth : num;
  d_canvasHeight : num;
  d_action : Z
}.

Definition record (c : Controller) (d : Decision) : Controller :=
  recordDecision c (d_ball d) (d_paddle d) (d_canvasWidth d) (d_canvasHeight d)
    (d_action d).

Definition sampleOfDecision (d : Decision) : Sample :=
  sampleOf (d_ball d) (d_paddle d) (d_canvasWidth d) (d_canvasHeight d)
    (d_action d).

(** The controller after the calls [ds], in order. *)
Definition recordAll (c : Controller) (ds : list Decision) : Controller :=
  fold_left record ds c.

(** A network [createNetwork] can draw: every weight of the two hidden
    layers and every bias is 0, and each of the 8 rows of the last layer
    is [[0, 0, 0.25]]. *)
Definition flatNet : Network :=
  [ {| weights := repeat (repeat (Fin 0) 16) 4;
       biases := repeat (Fin 0) 16;
       activation := Relu |};
    {| weights := repeat (repeat (Fin 0) 8) 16;
       biases := repeat (Fin 0) 8;
       activation := Relu |};
    {| weights := repeat [Fin 0; Fin 0; Fin 0.25] 8;
       biases := repeat (Fin 0) 3;
       activation := Softmax |} ].

(** A game state on an 800 by 400 canvas: the paddle of the controller on
    the right, the ball in the middle flying towards it. *)
Definition aiPaddle : Paddle := mkPaddle (Fin 780) (Fin 160) (Fin 80).

Definition incomingBall : Ball := mkBall (Fin 400) (Fin 200) (Fin 5) (Fin 3).

(** The same ball moving straight up and down: [speedX] is 0. *)
Definition verticalBall : Ball := mkBall (Fin 400) (Fin 200) (Fin 0) (Fin 3).

(** The decision "move down" recorded in that state. *)
Definition downSample : Sample :=
  sampleOf incomingBall aiPaddle (Fin 800) (Fin 400) 1.

(** A decision that differs from call to call: at call [k] the ball is at
    height [k]. *)
Definition decisionAt (k : nat) : Decision :=
  {| d_ball := mkBall (Fin 400) (Fin (INR k)) (Fin 5) (Fin 0);
     d_paddle := mkPaddle (Fin 780) (Fin 160) (Fin 80);
     d_canvasWidth := Fin 800;
     d_canvasHeight := Fin 400;
     d_action := 0%Z |}.


End Runs.

Module Scenes.

Import JS Physics.

(** The ball [new Ball(px, py)] builds (mass 1, radius 8, friction 0.98),
    then given the velocity [(vx, vy)] and the restitution [e]. *)
Definition ballWith (px py vx vy e : R) : PhysicsBody :=
  {| position := Vector2D.mk (Fin px) (Fin py);
     velocity := Vector2D.mk (Fin vx) (Fin vy);
     acceleration := zero;
     force := zero;
     mass := Fin 1;
     inverseMass := Fin 1;
     restitution := Fin e;
     friction := GAME_CONFIG.friction;
     angularVelocity := Fin 0;
     angularAcceleration := Fin 0;
     torque := Fin 0;
     rotation := Fin 0;
     momentOfInertia := Fin 10;
     isStatic := false;
     affectedByGravity := false;
     affectedByDrag := true;
     radius := GAME_CONFIG.ballRadius |}.

(** A static wall above the field: its lower face is the line [y = 0], so
    the contact normal of a ball below it is [(0, 1)]. *)
Definition topWall : Rect := mkRect (Fin 0) (Fin (-10)) (Fin 800) (Fin 10).


(** Balls in contact with [topWall], 3 below it, with restitution 1.0: one
    flying away from the wall with velocity (5, 3), one flying into it, one
    sliding along it. *)
Definition leavingBall : PhysicsBody := ballWith 100 3 5 3 1.0.
Definition slidingBall : PhysicsBody := ballWith 100 3 5 0 1.0.



(** Two balls side by side, flying apart. *)
Definition rightBall : PhysicsBody := ballWith 100 100 5 0 1.0.
Definition leftBall : PhysicsBody := ballWith 90 100 (-5) 0 1.0.

(** Two overlapping balls, centres 10 apart, flying into each other. *)
Definition closingRight : PhysicsBody := ballWith 100 100 (-5) 0 1.0.
Definition closingLeft : PhysicsBody := ballWith 90 100 5 0 1.0.

(** A paddle of 15 by 100 centred at (50, 200), and a ball at rest at its
    exact centre. *)
Definition paddleBounds : Rect := mkRect (Fin 42.5) (Fin 150) (Fin 15) (Fin 100).
Definition centredBall : PhysicsBody := ballWith 50 200 0 0 1.0.



End Scenes.

(** ** The paddle, the ball and the game tick

    The classes [Paddle] ([src/js/paddle.js]) and [Ball] (the ball class
    [src/js/game.js] imports) and the part of [Game.update] that moves the
    paddle of the controller.  The numbers [Math.random()] returns and the
    ghost balls [updateGhostBalls] draws from them are arguments of the
    calls that use them. *)

Module PaddleJs.

Import JS.

Record t : Type := mk {
  x : num;
  y : num;
  width : num;
  height : num;
  speed : num;
  isAI : bool;
  velocity : num
}.

(** [new Paddle(x, y, isAI)]. *)
Definition new (x0 y0 : num) (ai : bool) : t :=
  {| x := x0; y := y0; width := Fin 10; height := Fin 80; speed := Fin 5;
     isAI := ai; velocity := Fin 0 |}.

Definition withY (p : t) (y' : num) : t :=
  mk (x p) y' (width p) (height p) (speed p) (isAI p) (velocity p).

Definition withVelocity (p : t) (v : num) : t :=
  mk (x p) (y p) (width p) (height p) (speed p) (isAI p) v.

(** [update(canvasHeight)]. *)
Definition update (p : t) (canvasHeight : num) : t :=
  let y1 := add (y p) (velocity p) in
  let y2 := if lt y1 (Fin 0) then Fin 0 else y1 in
  let y3 :=
    if gt (add y2 (height p)) canvasHeight then sub canvasHeight (height p)
    else y2 in
  withY p y3.

(** What [predict] and [recordDecision] read of a paddle. *)
Definition view (p : t) : AI.Paddle := AI.mkPaddle (x p) (y p) (height p).

End PaddleJs.

Module BallJs.

Import JS.

Record Ghost : Type := mkGhost {
  ghost_x : num;
  ghost_y : num;
  opacity : num
}.

Inductive QuantumState : Type :=
| coherent.

Record t : Type := mk {
  canvasWidth : num;
  canvasHeight : num;
  radius : num;
  ghostBalls : list Ghost;
  x : num;
  y : num;
  speedX : num;
  speedY : num;
  uncertainty : num;
  quantumState : QuantumState
}.

(** [reset()], with the two numbers [Math.random()] returns. *)
Definition reset (b : t) (r1 r2 : R) : t :=
  {| canvasWidth := canvasWidth b;
     canvasHeight := canvasHeight b;
     radius := radius b;
     ghostBalls := ghostBalls b;
     x := div (canvasWidth b) (Fin 2);
     y := div (canvasHeight b) (Fin 2);
     speedX := mul (if gt (Fin r1) (Fin 0.5) then Fin 1 else Fin (-1)) (Fin 5);
     speedY := mul (sub (Fin r2) (Fin 0.5)) (Fin 5);
     uncertainty := Fin 0;
     quantumState := coherent |}.

(** [new Ball(canvasWidth, canvasHeight)]. *)
Definition new (w h : num) (r1 r2 : R) : t :=
  reset {| canvasWidth := w; canvasHeight := h; radius := Fin 8;
           ghostBalls := []; x := NaN; y := NaN; speedX := NaN; speedY := NaN;
           uncertainty := NaN; quantumState := coherent |} r1 r2.

(** [quantumCollapse()]; its return value is the constant 5. *)
Definition quantumCollapse (b : t) : t :=
  mk (canvasWidth b) (canvasHeight b) (radius b) (ghostBalls b) (x b) (y b)
     (speedX b) (speedY b) (max (Fin 0) (sub (uncertainty b) (Fin 1)))
     (quantumState b).

(** [update(quantumMode, quantumFlux)]: [u1] and [u2] are the two random
    numbers drawn in quantum mode and [ghosts] the list
    [updateGhostBalls(quantumFlux)] builds then. *)
Definition update (b : t) (quantumMode : bool) (u1 u2 : R) (ghosts : list Ghost)
    : t :=
  let uncertaintyX :=
    if quantumMode
    then mul (mul (sub (Fin u1) (Fin 0.5)) (uncertainty b)) (Fin 2) else Fin 0 in
  let uncertaintyY :=
    if quantumMode
    then mul (mul (sub (Fin u2) (Fin 0.5)) (uncertainty b)) (Fin 2) else Fin 0 in
  let x1 := add (x b) (add (speedX b) uncertaintyX) in
  let y1 := add (y b) (add (speedY b) uncertaintyY) in
  let ghosts1 := if quantumMode then ghosts else ghostBalls b in
  let b1 :=
    mk (canvasWidth b) (canvasHeight b) (radius b) ghosts1 x1 y1
       (speedX b) (speedY b) (uncertainty b) (quantumState b) in
  if lt (sub y1 (radius b)) (Fin 0) || gt (add y1 (radius b)) (canvasHeight b)
  then
    quantumCollapse
      (mk (canvasWidth b) (canvasHeight b) (radius b) ghosts1 x1 y1
          (speedX b) (neg (speedY b)) (uncertainty b) (quantumState b))
  else b1.

(** What [checkPaddleCollision] returns. *)
Record Hit : Type := mkHit {
  hit : bool;
  fluxIncrease : option num;
  tunneled : bool
}.

(** [checkPaddleCollision(paddle, quantumMode, statusCallback)]; [r] is the
    random number drawn in quantum mode. *)
Definition checkPaddleCollision (b : t) (paddle : PaddleJs.t) (quantumMode : bool)
    (r : R) : t * Hit :=
  if quantumMode && lt (Fin r) (Fin 0.05)
  then (b, mkHit false None true)
  else if lt (sub (x b) (radius b)) (add (PaddleJs.x paddle) (PaddleJs.width paddle))
          && gt (add (x b) (radius b)) (PaddleJs.x paddle)
          && gt (y b) (PaddleJs.y paddle)
          && lt (y b) (add (PaddleJs.y paddle) (PaddleJs.height paddle))
  then
    let speedX1 := mul (neg (speedX b)) (Fin 1.05) in
    let uncertainty1 := add (uncertainty b) (Fin 2) in
    let hitPos := div (sub (y b) (PaddleJs.y paddle)) (PaddleJs.height paddle) in
    let speedY1 := mul (sub hitPos (Fin 0.5)) (Fin 10) in
    let b1 :=
      mk (canvasWidth b) (canvasHeight b) (radius b) (ghostBalls b) (x b) (y b)
         speedX1 speedY1 uncertainty1 (quantumState b) in
    (quantumCollapse b1, mkHit true (Some (Fin 5)) false)
  else (b, mkHit false None false).

Inductive Scorer : Type :=
| ai
| player.

(** [checkScore()]. *)
Definition checkScore (b : t) : option Scorer :=
  if lt (sub (x b) (radius b)) (Fin 0) then Some ai
  else if gt (add (x b) (radius b)) (canvasWidth b) then Some player
  else None.

(** What [predict] and [recordDecision] read of a ball. *)
Definition view (b : t) : AI.Ball := AI.mkBall (x b) (y b) (speedX b) (speedY b).

(** A ball in play: every number is finite, the horizontal speed has
    magnitude 5 or more and the uncertainty is not negative. *)
Definition inPlay (b : t) : Prop :=
  finite (canvasWidth b) /\ finite (canvasHeight b) /\ finite (radius b) /\
  finite (x b) /\ finite (y b) /\ finite (speedY b) /\
  (exists vx, speedX b = Fin vx /\ 5 <= Rabs vx) /\
  (exists u, uncertainty b = Fin u /\ 0 <= u).

End BallJs.

Module GameJs.

Import JS.

(** The events of [src/js/game.js] that write to the ball. *)
Definition triggerUncertainty (b : BallJs.t) : BallJs.t :=
  BallJs.mk (BallJs.canvasWidth b) (BallJs.canvasHeight b) (BallJs.radius b)
    (BallJs.ghostBalls b) (BallJs.x b) (BallJs.y b) (BallJs.speedX b)
    (BallJs.speedY b) (Fin 10) (BallJs.quantumState b).

Definition triggerEntanglement (b : BallJs.t) : BallJs.t :=
  BallJs.mk (BallJs.canvasWidth b) (BallJs.canvasHeight b) (BallJs.radius b)
    (BallJs.ghostBalls b) (BallJs.x b) (BallJs.y b) (neg (BallJs.speedX b))
    (neg (BallJs.speedY b)) (BallJs.uncertainty b) (BallJs.quantumState b).

Definition antigravity (b : BallJs.t) : BallJs.t :=
  BallJs.mk (BallJs.canvasWidth b) (BallJs.canvasHeight b) (BallJs.radius b)
    (BallJs.ghostBalls b) (BallJs.x b) (BallJs.y b) (BallJs.speedX b)
    (mul (neg (BallJs.speedY b)) (Fin 2)) (BallJs.uncertainty b)
    (BallJs.quantumState b).

(** [swapPaddles()]. *)
Definition swapPaddles (playerPaddle aiPaddle : PaddleJs.t)
    : PaddleJs.t * PaddleJs.t :=
  (PaddleJs.withY playerPaddle (PaddleJs.y aiPaddle),
   PaddleJs.withY aiPaddle (PaddleJs.y playerPaddle)).

(** One thing that happens to the ball between two frames. *)
Inductive BallEvent : Type :=
| Reset (r1 r2 : R)
| Update (quantumMode : bool) (u1 u2 : R) (ghosts : list BallJs.Ghost)
| Collide (paddle : PaddleJs.t) (quantumMode : bool) (r : R)
| Uncertainty
| Entanglement
| Antigravity.

Definition applyEvent (b : BallJs.t) (e : BallEvent) : BallJs.t :=
  match e with
  | Reset r1 r2 => BallJs.reset b r1 r2
  | Update q u1 u2 ghosts => BallJs.update b q u1 u2 ghosts
  | Collide paddle q r => fst (BallJs.checkPaddleCollision b paddle q r)
  | Uncertainty => triggerUncertainty b
  | Entanglement => triggerEntanglement b
  | Antigravity => antigravity b
  end.

(** The ball after the events [es], in order. *)
Definition run (b : BallJs.t) (es : list BallEvent) : BallJs.t :=
  fold_left applyEvent es b.

(** The part of [Game.update] that moves the paddle of the controller: the
    action [predict] returns sets the velocity, the decision is recorded
    and the paddle is updated. *)
Definition aiTick (fuel : nat) (c : AI.Controller) (ball : BallJs.t)
    (aiPaddle : PaddleJs.t) (canvasWidth canvasHeight : num)
    : result (AI.Controller * PaddleJs.t) :=
  aiAction <- AI.predict fuel (AI.network c) (BallJs.view ball)
                (PaddleJs.view aiPaddle) canvasWidth canvasHeight ;;
  let aiPaddle1 :=
    PaddleJs.withVelocity aiPaddle (mul (Fin (IZR aiAction)) (PaddleJs.speed aiPaddle)) in
  let c1 :=
    AI.recordDecision c (BallJs.view ball) (PaddleJs.view aiPaddle1)
      canvasWidth canvasHeight aiAction in
  Ok (c1, PaddleJs.update aiPaddle1 canvasHeight).

End GameJs.

(** * Properties *)

(** ** Real comparisons *)

Lemma Rltb_true (a b : R) : JS.Rltb a b = true <-> a < b.
Proof. unfold JS.Rltb. destruct (Rlt_dec a b); split; intros; try easy. Qed.

Lemma Rltb_false (a b : R) : JS.Rltb a b = false <-> b <= a.
Proof.
  unfold JS.Rltb. destruct (Rlt_dec a b); split; intros; try easy; lra.
Qed.

Lemma Reqb_true (a b : R) : JS.Reqb a b = true <-> a = b.
Proof. unfold JS.Reqb. destruct (Req_dec_T a b); split; intros; try easy. Qed.

Lemma Reqb_false (a b : R) : JS.Reqb a b = false <-> a <> b.
Proof. unfold JS.Reqb. destruct (Req_dec_T a b); split; intros; try easy. Qed.

(** Decides the real comparisons a goal is stuck on, by linear arithmetic. *)
Ltac rdecide :=
  repeat match goal with
  | |- context [JS.Rltb ?a ?b] =>
      let H := fresh "Hlt" in
      destruct (Rlt_dec a b) as [H | H];
      [ rewrite (proj2 (Rltb_true a b) H)
      | rewrite (proj2 (Rltb_false a b) (Rnot_lt_le _ _ H)) ];
      try (exfalso; lra)
  | |- context [JS.Reqb ?a ?b] =>
      let H := fresh "Heq" in
      destruct (Req_dec_T a b) as [H | H];
      [ rewrite (proj2 (Reqb_true a b) H)
      | rewrite (proj2 (Reqb_false a b) H) ];
      try (exfalso; lra)
  end.

(** Shows that a number given by its digits is of moderate size. *)
Ltac moderate_num :=
  cbn [JS.moderate];
  first [ left; lra
        | right; rewrite Rabs_right by lra; split; lra
        | right; rewrite Rabs_left by lra; split; lra ].

(** ** The training buffer *)

Section Buffer.

Import JS AI Runs.

Lemma sliceLast_length {A : Type} (k : nat) (l : list A) :
  length (sliceLast k l) = Nat.min k (length l).
Proof. unfold sliceLast. rewrite length_skipn. lia. Qed.

Lemma skipn_S_snoc {A : Type} (l : list A) (a : A) (n : nat) :
  (n <= length l)%nat -> skipn (S n) (l ++ [a]) = tl (skipn n l ++ [a]).
Proof.
  revert n. induction l as [| x l IH]; intros n Hn.
  - cbn in Hn. replace n with 0%nat by lia. reflexivity.
  - destruct n as [| n]; [reflexivity |].
    cbn [length] in Hn. apply (IH n). lia.
Qed.

(** Appending one element to the last [k] and dropping the oldest when that
    makes [k + 1] is taking the last [k] of the longer list. *)
Lemma sliceLast_snoc {A : Type} (k : nat) (l : list A) (a : A) :
  sliceLast k (l ++ [a]) =
  if (k <? length (sliceLast k l ++ [a]))%nat
  then tl (sliceLast k l ++ [a]) else sliceLast k l ++ [a].
Proof.
  rewrite length_app, sliceLast_length. cbn [length].
  unfold sliceLast. rewrite length_app. cbn [length].
  destruct (Nat.ltb_spec k (Nat.min k (length l) + 1)) as [Hlt | Hge].
  - replace (length l + 1 - k)%nat with (S (length l - k)) by lia.
    apply skipn_S_snoc. lia.
  - replace (length l + 1 - k)%nat with 0%nat by lia.
    replace (length l - k)%nat with 0%nat by lia. reflexivity.
Qed.

Lemma record_trainingData (c : Controller) (d : Decision) :
  trainingData (record c d) =
  if (maxTrainingData c <? length (trainingData c ++ [sampleOfDecision d]))%nat
  then tl (trainingData c ++ [sampleOfDecision d])
  else trainingData c ++ [sampleOfDecision d].
Proof. reflexivity. Qed.

Lemma record_maxTrainingData (c : Controller) (d : Decision) :
  maxTrainingData (record c d) = maxTrainingData c.
Proof. reflexivity. Qed.

Lemma recordAll_snoc (c : Controller) (ds : list Decision) (d : Decision) :
  recordAll c (ds ++ [d]) = record (recordAll c ds) d.
Proof. unfold recordAll. rewrite fold_left_app. reflexivity. Qed.

Lemma recordAll_maxTrainingData (c : Controller) (ds : list Decision) :
  maxTrainingData (recordAll c ds) = maxTrainingData c.
Proof.
  induction ds as [| d ds IH] using rev_ind; [reflexivity |].
  rewrite recordAll_snoc, record_maxTrainingData. exact IH.
Qed.

(** From an empty buffer, the buffer is the last [maxTrainingData] samples
    recorded, oldest first. *)
Lemma recordAll_fifo (net : Network) (ds : list Decision) :
  trainingData (recordAll (newController net) ds) =
  sliceLast 200 (map sampleOfDecision ds).
Proof.
  induction ds as [| d ds IH] using rev_ind; [reflexivity |].
  rewrite recordAll_snoc, record_trainingData, recordAll_maxTrainingData, IH.
  cbn [newController maxTrainingData].
  rewrite map_app. cbn [map]. symmetry. apply sliceLast_snoc.
Qed.

(** C8. The training buffer is a bounded first-in first-out queue of
    capacity 200: from the empty buffer of a new controller, after any
    number of calls of [recordDecision] the buffer holds at most 200
    samples, namely the last 200 recorded in the order they were recorded;
    after 250 calls these are exactly the samples of calls 51 to 250, the
    first 50 having been evicted. *)
Theorem recordDecision_bounded_fifo (net : Network) (ds : list Decision) :
  let buffer := trainingData (recordAll (newController net) ds) in
  (length buffer <= 200)%nat /\
  buffer = sliceLast 200 (map sampleOfDecision ds) /\
  (length ds = 250%nat ->
   length buffer = 200%nat /\ buffer = skipn 50 (map sampleOfDecision ds)).
Proof.
  cbv zeta. rewrite recordAll_fifo. repeat split.
  - rewrite sliceLast_length. lia.
  - rewrite sliceLast_length, length_map. lia.
  - unfold sliceLast. rewrite length_map, H. reflexivity.
Qed.

(** 250 decisions, all different, recorded by a new controller. *)
Lemma recordDecision_bounded_fifo_witness :
  length (map decisionAt (List.seq 0 250)) = 250%nat /\
  length (trainingData
            (recordAll (newController []) (map decisionAt (List.seq 0 250))))
  = 200%nat /\
  trainingData (recordAll (newController []) (map decisionAt (List.seq 0 250)))
  = skipn 50 (map sampleOfDecision (map decisionAt (List.seq 0 250))).
Proof.
  assert (H : length (map decisionAt (List.seq 0 250)) = 250%nat)
    by (rewrite length_map, length_seq; reflexivity).
  split; [exact H |].
  exact (proj2 (proj2 (recordDecision_bounded_fifo []
                         (map decisionAt (List.seq 0 250)))) H).
Defined.

(** C9. With fewer than 20 samples in the buffer, [reward()] and
    [punish()] return normally and leave the controller, hence every weight
    matrix and bias vector of its network, as it was. *)
Theorem reward_punish_underrun (c : Controller) :
  (length (trainingData c) < 20)%nat ->
  reward c = Ok c /\ punish c = Ok c.
Proof.
  intros H. unfold reward, punish.
  apply Nat.ltb_lt in H. rewrite H. split; reflexivity.
Qed.

(** A controller that has recorded 19 decisions. *)
Lemma reward_punish_underrun_witness :
  (length (trainingData
             (recordAll (newController []) (map decisionAt (List.seq 0 19)))) < 20)%nat /\
  reward (recordAll (newController []) (map decisionAt (List.seq 0 19)))
  = Ok (recordAll (newController []) (map decisionAt (List.seq 0 19))) /\
  punish (recordAll (newController []) (map decisionAt (List.seq 0 19)))
  = Ok (recordAll (newController []) (map decisionAt (List.seq 0 19))).
Proof.
  assert (H : (length (trainingData
                 (recordAll (newController []) (map decisionAt (List.seq 0 19)))) < 20)%nat).
  { rewrite recordAll_fifo, sliceLast_length, !length_map, length_seq. lia. }
  split; [exact H |].
  exact (reward_punish_underrun _ H).
Defined.

End Buffer.

(** ** The forward pass *)

Section ForwardPass.

Import JS AI.

Lemma finite_inv (a : num) : finite a -> exists r, a = Fin r.
Proof. destruct a; cbn; intros H; try contradiction. eauto. Qed.

Lemma finite_list (l : list num) :
  Forall finite l -> exists rs, l = map Fin rs.
Proof.
  induction 1 as [| a l Ha _ [rs ->]].
  - exists []. reflexivity.
  - destruct (finite_inv a Ha) as [r ->]. exists (r :: rs). reflexivity.
Qed.

Lemma get_finite (l : list num) (j : nat) :
  Forall finite l -> (j < length l)%nat -> finite (get l j).
Proof.
  intros Hl Hj. unfold get.
  apply (proj1 (Forall_forall finite l) Hl). apply nth_In. exact Hj.
Qed.

(** [mapM] over a function that always returns. *)
Lemma mapM_ok {A B : Type} (f : A -> result B) (P : A -> B -> Prop) (l : list A) :
  (forall a, In a l -> exists b, f a = Ok b /\ P a b) ->
  exists bs, mapM f l = Ok bs /\ Forall2 P l bs.
Proof.
  induction l as [| a l IH]; intros H.
  - exists []. split; [reflexivity | constructor].
  - destruct (H a (or_introl eq_refl)) as [b [Hb HP]].
    destruct IH as [bs [Hbs HF]]; [intros; apply H; right; assumption |].
    exists (b :: bs). cbn. rewrite Hb. cbn. rewrite Hbs. cbn.
    split; [reflexivity | constructor; assumption].
Qed.

(** The inner loop returns when the rows it reads exist, and its result is
    finite when everything it reads is. *)
Lemma columnSum_ok (weights : matrix) (j : nat) (input : list num) :
  forall (i : nat) (sum : num),
    (i + length input <= length weights)%nat ->
    exists v, columnSum weights j input i sum = Ok v /\
      (finite sum -> Forall finite input ->
       Forall (fun row => finite (get row j)) weights -> finite v).
Proof.
  induction input as [| x input IH]; intros i sum Hlen.
  - exists sum. split; [reflexivity | auto].
  - cbn [length] in Hlen. cbn [columnSum].
    destruct (nth_error weights i) as [row |] eqn:Hrow.
    + destruct (IH (S i) (add sum (mul x (get row j)))) as [v [Hv Hfin]]; [lia |].
      exists v. split; [exact Hv |].
      intros Hs Hin Hw. inversion Hin as [| ? ? Hx Hin']; subst.
      apply Hfin; [| exact Hin' | exact Hw].
      apply nth_error_In in Hrow.
      pose proof (proj1 (Forall_forall _ _) Hw row Hrow) as Hr. cbn in Hr.
      destruct sum, x, (get row j); cbn in *; try contradiction; exact I.
    + apply nth_error_None in Hrow. lia.
Qed.

(** The inner loop throws as soon as the input is longer than the matrix
    has rows. *)
Lemma columnSum_throws (weights : matrix) (j : nat) (input : list num) :
  forall (i : nat) (sum : num),
    (i <= length weights)%nat ->
    (length weights < i + length input)%nat ->
    columnSum weights j input i sum = TypeError.
Proof.
  induction input as [| x input IH]; intros i sum Hi Hlen.
  - cbn in Hlen. lia.
  - cbn [length] in Hlen. cbn [columnSum].
    destruct (nth_error weights i) as [row |] eqn:Hrow.
    + apply IH; [| lia].
      assert (i < length weights)%nat by (apply nth_error_Some; congruence). lia.
    + reflexivity.
Qed.

Lemma Forall2_length_r {A B : Type} (P : A -> B -> Prop) (l : list A) (bs : list B) :
  Forall2 P l bs -> length bs = length l.
Proof. induction 1; cbn; congruence. Qed.

Lemma matrixMultiply_ok (rows cols : nat) (input : list num) (w : matrix)
    (b : list num) :
  (0 < rows)%nat -> wellShaped rows cols w b -> (length input <= rows)%nat ->
  exists z, matrixMultiply input w b = Ok z /\ length z = cols /\
    (allFinite w b -> Forall finite input -> Forall finite z).
Proof.
  intros Hrows (Hw & Hrowlen & Hb) Hin.
  destruct w as [| row0 w']; [cbn in Hw; lia |].
  unfold matrixMultiply.
  assert (Hcols : length row0 = cols) by (inversion Hrowlen; assumption).
  rewrite Hcols.
  destruct (mapM_ok
              (fun j => columnSum (row0 :: w') j input 0 (get b j))
              (fun j v => allFinite (row0 :: w') b -> Forall finite input -> finite v)
              (List.seq 0 cols)) as [z [Hz HF]].
  { intros j Hj. apply in_seq in Hj.
    destruct (columnSum_ok (row0 :: w') j input 0 (get b j)) as [v [Hv Hfin]];
      [cbn [Nat.add]; lia |].
    exists v. split; [exact Hv |].
    intros [Hwf Hbf] Hinf. apply Hfin; [| exact Hinf |].
    - apply get_finite; [exact Hbf | lia].
    - apply Forall_forall. intros row Hrow.
      apply get_finite.
      + exact (proj1 (Forall_forall _ _) Hwf row Hrow).
      + rewrite (proj1 (Forall_forall _ _) Hrowlen row Hrow). lia. }
  exists z. split; [exact Hz |]. split.
  - rewrite (Forall2_length_r _ _ _ HF). apply length_seq.
  - intros Hfin Hinf. clear Hz.
    induction HF as [| j v js vs Hjv _ IH]; constructor; auto.
Qed.

Lemma matrixMultiply_throws (rows cols : nat) (input : list num) (w : matrix)
    (b : list num) :
  (0 < cols)%nat -> wellShaped rows cols w b -> (rows < length input)%nat ->
  matrixMultiply input w b = TypeError.
Proof.
  intros Hcols (Hw & Hrowlen & Hb) Hin.
  unfold matrixMultiply. destruct w as [| row0 w']; [reflexivity |].
  assert (Hc : length row0 = cols) by (inversion Hrowlen; assumption).
  rewrite Hc. destruct cols as [| cols]; [lia |].
  cbn [List.seq mapM].
  rewrite columnSum_throws; [reflexivity | lia | cbn [Nat.add]; lia].
Qed.

End ForwardPass.

(** ** The normalized exponential *)

Section SoftmaxFacts.

Import JS AI.

Lemma fold_max_Fin (rs : list R) (a : R) :
  fold_left max (map Fin rs) (Fin a) = Fin (fold_left Rmax rs a).
Proof. revert a. induction rs as [| r rs IH]; intros a; cbn; auto. Qed.

Lemma maxOf_Fin (r : R) (rs : list R) :
  maxOf (map Fin (r :: rs)) = Fin (fold_left Rmax rs r).
Proof. unfold maxOf. cbn. apply fold_max_Fin. Qed.

Lemma fold_add_Fin (rs : list R) (a : R) :
  fold_left add (map Fin rs) (Fin a) = Fin (fold_left Rplus rs a).
Proof. revert a. induction rs as [| r rs IH]; intros a; cbn; auto. Qed.

Lemma fold_Rplus_pos (es : list R) (a : R) :
  Forall (fun e => 0 < e) es -> a <= fold_left Rplus es a.
Proof.
  intros H. revert a. induction H as [| e es He _ IH]; intros a; cbn.
  - lra.
  - specialize (IH (a + e)). lra.
Qed.

Lemma fold_Rplus_div (es : list R) (a s : R) :
  s <> 0 ->
  fold_left Rplus (map (fun e => e / s) es) (a / s) = fold_left Rplus es a / s.
Proof.
  intros Hs. revert a. induction es as [| e es IH]; intros a; cbn.
  - reflexivity.
  - rewrite <- IH. f_equal. field. exact Hs.
Qed.

(** On a non-empty list of finite numbers the normalized exponential is a
    list of positive reals that sum to 1. *)
Lemma softmax_distribution (rs : list R) :
  rs <> [] ->
  exists ps,
    softmax (map Fin rs) = map Fin ps /\ length ps = length rs /\
    Forall (fun p => 0 < p) ps /\ fold_left Rplus ps 0 = 1.
Proof.
  intros Hne. destruct rs as [| r rs]; [congruence |].
  unfold softmax. rewrite maxOf_Fin.
  set (m := fold_left Rmax rs r).
  set (es := map (fun v => Rtrigo_def.exp (v + - m)) (r :: rs)).
  assert (Hexps : map (fun v => exp (sub v (Fin m))) (map Fin (r :: rs)) = map Fin es).
  { unfold es. rewrite !map_map. reflexivity. }
  rewrite Hexps, fold_add_Fin.
  set (s := fold_left Rplus es 0).
  assert (Hpos : Forall (fun e => 0 < e) es).
  { unfold es. apply Forall_forall. intros e He.
    apply in_map_iff in He. destruct He as [v [<- _]]. apply exp_pos. }
  assert (Hs : 0 < s).
  { unfold s, es. cbn [map fold_left].
    pose proof (exp_pos (r + - m)) as H0.
    eapply Rlt_le_trans; [| apply fold_Rplus_pos].
    - lra.
    - inversion Hpos; assumption. }
  exists (map (fun e => e / s) es). repeat split.
  - rewrite !map_map. apply map_ext. intros e. unfold div.
    rewrite (proj2 (Reqb_false s 0)); [reflexivity | lra].
  - unfold es. rewrite !length_map. reflexivity.
  - apply Forall_forall. intros p Hp.
    apply in_map_iff in Hp. destruct Hp as [e [<- He]].
    apply Rdiv_lt_0_compat; [| exact Hs].
    exact (proj1 (Forall_forall _ _) Hpos e He).
  - replace 0 with (0 / s) at 1 by (unfold Rdiv; ring).
    rewrite fold_Rplus_div by lra. fold s. field. lra.
Qed.

Lemma relu_finite (z : list num) : Forall finite z -> Forall finite (map relu z).
Proof.
  induction 1 as [| a z Ha _ IH]; constructor; [| exact IH].
  destruct a; cbn in *; auto.
Qed.

End SoftmaxFacts.

(** ** The forward pass of a well-formed network *)

Section WellFormedNetwork.

Import JS AI Runs.

(** On a network as [createNetwork] builds it, an input of at most 4
    entries goes through the three layers without a throw; the activations
    have 16, 8 and 3 entries, and for a finite input they are finite and
    the last is a distribution. *)
Lemma forwardPass_wellFormed (net : Network) (inputs : list num) :
  wellFormed net -> (length inputs <= 4)%nat ->
  exists a1 a2 out,
    forwardPass net inputs =
      Ok {| output := out; activations := [inputs; a1; a2; out] |} /\
    length a1 = 16%nat /\ length a2 = 8%nat /\ length out = 3%nat /\
    (Forall finite inputs ->
     exists p0 p1 p2,
       out = [Fin p0; Fin p1; Fin p2] /\
       0 < p0 /\ 0 < p1 /\ 0 < p2 /\ p0 + p1 + p2 = 1).
Proof.
  intros (l0 & l1 & l2 & -> & (S0 & F0 & K0) & (S1 & F1 & K1) & (S2 & F2 & K2)) Hlen.
  unfold forwardPass. cbn [forwardLayers].
  destruct (matrixMultiply_ok 4 16 inputs _ _ ltac:(lia) S0 Hlen)
    as (z0 & -> & Hz0 & Fz0).
  cbn [bind]. rewrite K0.
  assert (Ha1 : length (map relu z0) = 16%nat) by (rewrite length_map; exact Hz0).
  destruct (matrixMultiply_ok 16 8 (map relu z0) _ _ ltac:(lia) S1 ltac:(lia))
    as (z1 & -> & Hz1 & Fz1).
  cbn [bind]. rewrite K1.
  assert (Ha2 : length (map relu z1) = 8%nat) by (rewrite length_map; exact Hz1).
  destruct (matrixMultiply_ok 8 3 (map relu z1) _ _ ltac:(lia) S2 ltac:(lia))
    as (z2 & -> & Hz2 & Fz2).
  cbn [bind app]. rewrite K2.
  exists (map relu z0), (map relu z1), (softmax z2).
  split; [reflexivity |]. repeat split; auto.
  - unfold softmax. rewrite !length_map. exact Hz2.
  - intros Hfin.
    pose proof (relu_finite _ (Fz0 F0 Hfin)) as Hf1.
    pose proof (relu_finite _ (Fz1 F1 Hf1)) as Hf2.
    destruct (finite_list _ (Fz2 F2 Hf2)) as [rs ->].
    rewrite length_map in Hz2.
    destruct (softmax_distribution rs) as (ps & -> & Hps & Hpos & Hsum).
    { destruct rs; [discriminate | congruence]. }
    rewrite Hz2 in Hps.
    destruct ps as [| p0 [| p1 [| p2 [| ? ?]]]]; try discriminate.
    exists p0, p1, p2. split; [reflexivity |].
    inversion Hpos as [| ? ? H0 Hpos1]; subst.
    inversion Hpos1 as [| ? ? H1 Hpos2]; subst.
    inversion Hpos2 as [| ? ? H2 _]; subst.
    cbn in Hsum. repeat split; auto; lra.
Qed.

Lemma repeat_Forall {A : Type} (P : A -> Prop) (a : A) (n : nat) :
  P a -> Forall P (repeat a n).
Proof. intros H. induction n; cbn; constructor; auto. Qed.

Lemma flatNet_wellFormed : wellFormed flatNet.
Proof.
  unfold flatNet. eexists _, _, _. split; [reflexivity |].
  unfold shaped, wellShaped, allFinite. cbn [weights biases activation].
  rewrite !repeat_length.
  repeat split;
    repeat first
      [ apply repeat_Forall
      | rewrite repeat_length; reflexivity
      | reflexivity
      | exact I
      | constructor ].
Qed.

End WellFormedNetwork.

(** ** Evaluating the network [flatNet] *)

Section FlatNet.

Import JS AI Runs.

Lemma mapM_ext_ok {A B : Type} (f : A -> result B) (g : A -> B) (l : list A) :
  (forall a, In a l -> f a = Ok (g a)) -> mapM f l = Ok (map g l).
Proof.
  induction l as [| a l IH]; intros H; [reflexivity |].
  cbn. rewrite (H a (or_introl eq_refl)). cbn.
  rewrite IH by (intros; apply H; right; assumption). reflexivity.
Qed.

Lemma map_get_seq (b : list num) : map (get b) (List.seq 0 (length b)) = b.
Proof.
  apply (nth_ext _ _ NaN NaN).
  - rewrite length_map, length_seq. reflexivity.
  - intros n Hn. rewrite length_map, length_seq in Hn.
    rewrite (nth_indep _ NaN (get b 0)) by (rewrite length_map, length_seq; exact Hn).
    rewrite (map_nth (get b)), seq_nth by exact Hn. reflexivity.
Qed.

(** When every product [input[i] * weights[i][j]] is zero, the column sum
    is the bias it started from. *)
Lemma columnSum_zero (weights : matrix) (j : nat) (input : list num) (b : R) :
  forall i : nat,
    (i + length input <= length weights)%nat ->
    (forall x row, In x input -> In row weights -> mul x (get row j) = Fin 0) ->
    columnSum weights j input i (Fin b) = Ok (Fin b).
Proof.
  induction input as [| x input IH]; intros i Hlen Hzero; [reflexivity |].
  cbn [length] in Hlen. cbn [columnSum].
  destruct (nth_error weights i) as [row |] eqn:Hrow.
  - rewrite (Hzero x row (or_introl eq_refl) (nth_error_In _ _ Hrow)).
    cbn [add]. rewrite Rplus_0_r.
    apply IH; [lia | intros; apply Hzero; [right |]; assumption].
  - apply nth_error_None in Hrow. lia.
Qed.

Lemma matrixMultiply_zero (rows cols : nat) (input : list num) (w : matrix)
    (bs : list R) :
  (0 < rows)%nat -> wellShaped rows cols w (map Fin bs) ->
  (length input <= rows)%nat ->
  (forall x row j, In x input -> In row w -> (j < cols)%nat ->
                   mul x (get row j) = Fin 0) ->
  matrixMultiply input w (map Fin bs) = Ok (map Fin bs).
Proof.
  intros Hrows (Hw & Hrowlen & Hb) Hin Hzero.
  destruct w as [| row0 w']; [cbn in Hw; lia |].
  unfold matrixMultiply.
  assert (Hcols : length row0 = cols) by (inversion Hrowlen; assumption).
  rewrite Hcols, (mapM_ext_ok _ (get (map Fin bs))).
  - rewrite <- Hb, map_get_seq. reflexivity.
  - intros j Hj. apply in_seq in Hj.
    assert (Hget : get (map Fin bs) j = Fin (nth j bs 0)).
    { unfold get. rewrite (nth_indep _ NaN (Fin 0)) by lia. apply (map_nth Fin). }
    rewrite Hget. apply columnSum_zero; [cbn [Nat.add]; lia |].
    intros x row Hx Hrow. apply Hzero; [assumption | assumption | lia].
Qed.

Lemma mul_zero_r (x : num) : finite x -> mul x (Fin 0) = Fin 0.
Proof. destruct x; cbn; try contradiction. intros _. f_equal. ring. Qed.

Lemma mul_zero_l (x : num) : finite x -> mul (Fin 0) x = Fin 0.
Proof. destruct x; cbn; try contradiction. intros _. f_equal. ring. Qed.

Lemma get_repeat (a : num) (n j : nat) : (j < n)%nat -> get (repeat a n) j = a.
Proof. intros H. unfold get. apply nth_repeat_lt. exact H. Qed.

Lemma map_Fin_repeat (r : R) (n : nat) : map Fin (repeat r n) = repeat (Fin r) n.
Proof. induction n; cbn; congruence. Qed.

Lemma relu_zeros (n : nat) : map relu (repeat (Fin 0) n) = repeat (Fin 0) n.
Proof.
  induction n; cbn [repeat map]; [reflexivity |].
  rewrite IHn. unfold relu at 1. cbn [max]. rewrite Rmax_left by lra. reflexivity.
Qed.

Lemma softmax_zeros :
  softmax (repeat (Fin 0) 3) = repeat (Fin (1 / 3)) 3.
Proof.
  unfold softmax, maxOf. cbn [repeat fold_left map max sub neg add exp].
  rewrite !(Rmax_left 0 0) by lra.
  replace (0 + - 0) with 0 by lra. rewrite exp_0.
  replace (0 + 1 + 1 + 1) with 3 by lra.
  unfold div. rewrite (proj2 (Reqb_false 3 0)) by lra. reflexivity.
Qed.

(** The forward pass of [flatNet] on a finite input of at most 4 entries:
    both hidden layers output zeros and the three actions get 1/3 each. *)
Lemma flatNet_forward (inputs : list num) :
  Forall finite inputs -> (length inputs <= 4)%nat ->
  forwardPass flatNet inputs =
    Ok {| output := repeat (Fin (1 / 3)) 3;
          activations := [inputs; repeat (Fin 0) 16; repeat (Fin 0) 8;
                          repeat (Fin (1 / 3)) 3] |}.
Proof.
  intros Hfin Hlen.
  unfold forwardPass, flatNet. cbn [forwardLayers weights biases activation].
  rewrite <- !map_Fin_repeat.
  rewrite (matrixMultiply_zero 4 16).
  2: lia.
  2: { repeat split; rewrite ?length_map, ?repeat_length; try reflexivity.
       apply repeat_Forall. rewrite length_map, repeat_length. reflexivity. }
  2: exact Hlen.
  2: { intros x row j Hx Hrow Hj. apply repeat_spec in Hrow. subst row.
       rewrite map_Fin_repeat, get_repeat by exact Hj.
       apply mul_zero_r. exact (proj1 (Forall_forall _ _) Hfin x Hx). }
  cbn [bind]. rewrite !map_Fin_repeat, relu_zeros. rewrite <- !map_Fin_repeat.
  rewrite (matrixMultiply_zero 16 8).
  2: lia.
  2: { repeat split; rewrite ?length_map, ?repeat_length; try reflexivity.
       apply repeat_Forall. rewrite length_map, repeat_length. reflexivity. }
  2: rewrite length_map, repeat_length; lia.
  2: { intros x row j Hx Hrow Hj. apply repeat_spec in Hrow. subst row.
       rewrite map_Fin_repeat, get_repeat by exact Hj.
       apply mul_zero_r. rewrite map_Fin_repeat in Hx.
       apply repeat_spec in Hx. subst x. exact I. }
  cbn [bind]. rewrite !map_Fin_repeat, relu_zeros. rewrite <- !(map_Fin_repeat 0).
  rewrite (matrixMultiply_zero 8 3).
  2: lia.
  2: { repeat split; rewrite ?length_map, ?repeat_length; try reflexivity.
       apply repeat_Forall. reflexivity. }
  2: rewrite length_map, repeat_length; lia.
  2: { intros x row j Hx Hrow Hj. rewrite map_Fin_repeat in Hx.
       apply repeat_spec in Hx. subst x. apply repeat_spec in Hrow. subst row.
       apply mul_zero_l.
       destruct j as [| [| [| j]]]; cbn; try exact I. lia. }
  cbn [bind app]. rewrite !map_Fin_repeat, softmax_zeros. reflexivity.
Qed.

End FlatNet.

(** ** The decision *)

Section Decision.

Import JS AI Runs.

(** The fold-back loop stops: a height between [-n] and [n + 1] canvas
    heights is back inside the canvas after at most [n] turns. *)
Lemma bounce_terminates (h : R) :
  0 < h ->
  forall (n fuel : nat) (y : R),
    (n <= fuel)%nat -> - INR n * h <= y <= (INR n + 1) * h ->
    exists r, bounce fuel (Fin y) (Fin h) = Ok (Fin r) /\ 0 <= r <= h.
Proof.
  intros Hh. induction n as [| n IH]; intros fuel y Hfuel Hy.
  - cbn [INR] in Hy.
    exists y. split; [| lra].
    destruct fuel; cbn [bounce lt gt]; rdecide; reflexivity.
  - rewrite S_INR in Hy. pose proof (pos_INR n) as Hn.
    destruct fuel as [| fuel]; [lia |].
    cbn [bounce lt gt].
    destruct (Rlt_dec y 0) as [Hneg | Hnneg].
    + rewrite (proj2 (Rltb_true y 0) Hneg). cbn [orb neg].
      apply IH; [lia | nra].
    + rewrite (proj2 (Rltb_false y 0)) by lra. cbn [orb].
      destruct (Rlt_dec h y) as [Hbig | Hin].
      * rewrite (proj2 (Rltb_true h y) Hbig). cbn [sub mul neg add].
        apply IH; [lia | nra].
      * rewrite (proj2 (Rltb_false h y)) by lra.
        exists y. split; [reflexivity | lra].
Qed.

(** The loop never stops on an infinite height. *)
Lemma bounce_infinite (h : R) (fuel : nat) :
  bounce fuel PInf (Fin h) = OutOfFuel /\ bounce fuel NInf (Fin h) = OutOfFuel.
Proof.
  induction fuel as [| fuel [IHp IHn]]; split; cbn; auto.
Qed.

(** With a canvas of height 0 the loop never stops on a height other than
    0. *)
Lemma bounce_flat_canvas (y : R) (fuel : nat) :
  y <> 0 -> bounce fuel (Fin y) (Fin 0) = OutOfFuel.
Proof.
  revert y. induction fuel as [| fuel IH]; intros y Hy; cbn [bounce lt gt].
  - destruct (Rlt_dec y 0) as [Hneg | Hnneg].
    + rewrite (proj2 (Rltb_true y 0) Hneg). reflexivity.
    + rewrite (proj2 (Rltb_false y 0)) by lra.
      rewrite (proj2 (Rltb_true 0 y)) by lra. reflexivity.
  - destruct (Rlt_dec y 0) as [Hneg | Hnneg].
    + rewrite (proj2 (Rltb_true y 0) Hneg). cbn [orb neg]. apply IH. lra.
    + rewrite (proj2 (Rltb_false y 0)) by lra.
      rewrite (proj2 (Rltb_true 0 y)) by lra. cbn [orb sub mul neg add].
      apply IH. lra.
Qed.

(** On a canvas of negative height the loop never stops. *)
Lemma bounce_negative_canvas (h : R) :
  h < 0 -> forall (fuel : nat) (y : R), bounce fuel (Fin y) (Fin h) = OutOfFuel.
Proof.
  intros Hh. induction fuel as [| fuel IH]; intros y; cbn [bounce lt gt].
  - destruct (Rlt_dec y 0) as [Hneg | Hnneg].
    + rewrite (proj2 (Rltb_true y 0) Hneg). reflexivity.
    + rewrite (proj2 (Rltb_false y 0)) by lra.
      rewrite (proj2 (Rltb_true h y)) by lra. reflexivity.
  - destruct (Rlt_dec y 0) as [Hneg | Hnneg].
    + rewrite (proj2 (Rltb_true y 0) Hneg). cbn [orb neg]. apply IH.
    + rewrite (proj2 (Rltb_false y 0)) by lra.
      rewrite (proj2 (Rltb_true h y)) by lra. cbn [orb sub mul neg add].
      apply IH.
Qed.

(** With a horizontal speed other than 0 the loop of [predictBallY] starts
    from the height the ball reaches on a straight line. *)
Lemma predictBallY_Fin (fuel : nat) (x y vx vy t : R)
    (canvasWidth canvasHeight : num) :
  vx <> 0 ->
  predictBallY fuel (mkBall (Fin x) (Fin y) (Fin vx) (Fin vy)) (Fin t)
    canvasWidth canvasHeight
  = bounce fuel (Fin (y + vy * (Rabs (t - x) / Rabs vx))) canvasHeight.
Proof.
  intros Hvx. unfold predictBallY, Rminus.
  cbn [ball_x ball_y speedX speedY sub neg add abs div].
  rewrite (proj2 (Reqb_false (Rabs vx) 0)) by (apply Rabs_no_R0; exact Hvx).
  reflexivity.
Qed.

Lemma INR_1024 : INR 1024 = 1024.
Proof. rewrite INR_IZR_INZ. reflexivity. Qed.

(** A straight-line height within 1024 canvas heights. *)
Lemma straightLine_bound (y vy T h : R) :
  0 <= T -> Rabs y + Rabs vy * T <= 1024 * h ->
  - INR 1024 * h <= y + vy * T <= (INR 1024 + 1) * h /\ 0 <= h.
Proof.
  intros HT Hbound. rewrite INR_1024.
  pose proof (Rabs_pos y) as Hy. pose proof (Rabs_pos vy) as Hvy.
  assert (Hprod : 0 <= Rabs vy * T) by (apply Rmult_le_pos; assumption).
  assert (Habs : Rabs (y + vy * T) <= Rabs y + Rabs vy * T).
  { eapply Rle_trans; [apply Rabs_triang |].
    rewrite Rabs_mult, (Rabs_right T) by lra. lra. }
  assert (Hh : 0 <= h) by lra.
  split; [| exact Hh].
  destruct (Rabs_def2 (y + vy * T) (1024 * h + 1)) as [H1 H2]; [lra |].
  pose proof (Rle_abs (y + vy * T)) as Hup.
  pose proof (Rle_abs (- (y + vy * T))) as Hlow. rewrite Rabs_Ropp in Hlow.
  split; lra.
Qed.

Lemma timeToReach_nonneg (x vx t : R) : 0 <= Rabs (t - x) / Rabs vx.
Proof.
  destruct (Req_dec vx 0) as [-> | Hvx].
  - rewrite Rabs_R0. unfold Rdiv. rewrite Rinv_0, Rmult_0_r. lra.
  - apply Rmult_le_pos; [apply Rabs_pos |].
    apply Rlt_le, Rinv_0_lt_compat, Rabs_pos_lt, Hvx.
Qed.

(** Within 1024 canvas heights the loop of [predictBallY] stops after at
    most 1024 turns, inside the canvas. *)
Lemma predictBallY_within (x y vx vy t h : R) (canvasWidth : num) (fuel : nat) :
  vx <> 0 ->
  Rabs y + Rabs vy * (Rabs (t - x) / Rabs vx) <= 1024 * h ->
  (1024 <= fuel)%nat ->
  exists r,
    predictBallY fuel (mkBall (Fin x) (Fin y) (Fin vx) (Fin vy)) (Fin t)
      canvasWidth (Fin h) = Ok (Fin r) /\
    0 <= r <= h.
Proof.
  intros Hvx Hbound Hfuel. rewrite predictBallY_Fin by exact Hvx.
  destruct (straightLine_bound y vy _ h (timeToReach_nonneg x vx t) Hbound)
    as [Hraw Hh].
  set (raw := y + vy * (Rabs (t - x) / Rabs vx)) in *.
  destruct (Req_dec h 0) as [Hh0 | Hh0].
  - rewrite Hh0, INR_1024 in Hraw.
    assert (Hzero : raw = 0) by lra. rewrite Hzero, Hh0.
    exists 0. split; [| lra].
    destruct fuel; cbn [bounce lt gt]; rdecide; reflexivity.
  - apply (bounce_terminates h ltac:(lra) 1024 fuel raw Hfuel Hraw).
Qed.

(** With a horizontal speed of 0 and either a vertical speed of 0 or a
    ball at the target, the predicted height is [NaN] and the loop is
    skipped. *)
Lemma predictBallY_undefined (fuel : nat) (x y vy t : R)
    (canvasWidth canvasHeight : num) :
  vy = 0 \/ t = x ->
  predictBallY fuel (mkBall (Fin x) (Fin y) (Fin 0) (Fin vy)) (Fin t)
    canvasWidth canvasHeight = Ok NaN.
Proof.
  intros Hcase. unfold predictBallY.
  cbn [ball_x ball_y speedX speedY sub neg add abs div].
  rewrite Rabs_R0, (proj2 (Reqb_true 0 0) eq_refl). cbv beta iota.
  assert (Hnan : mul (Fin vy)
                   (if Reqb (Rabs (t + - x)) 0 then NaN
                    else infOfSign (Rabs (t + - x))) = NaN).
  { destruct (Reqb (Rabs (t + - x)) 0) eqn:Hdx; [reflexivity |].
    apply Reqb_false in Hdx.
    destruct Hcase as [-> | ->].
    - unfold infOfSign. destruct (Rltb 0 _); cbn [mul];
        rewrite (proj2 (Reqb_true 0 0) eq_refl); reflexivity.
    - exfalso. apply Hdx. replace (x + - x) with 0 by ring. apply Rabs_R0. }
  rewrite Hnan. destruct fuel, canvasHeight; reflexivity.
Qed.

(** With a horizontal speed of 0, a vertical speed other than 0 and a ball
    away from the target, the predicted height is infinite and the loop
    never stops. *)
Lemma predictBallY_vertical (fuel : nat) (x y vy t h : R) (canvasWidth : num) :
  vy <> 0 -> t <> x ->
  predictBallY fuel (mkBall (Fin x) (Fin y) (Fin 0) (Fin vy)) (Fin t)
    canvasWidth (Fin h) = OutOfFuel.
Proof.
  intros Hvy Ht. unfold predictBallY.
  cbn [ball_x ball_y speedX speedY sub neg add abs div].
  rewrite Rabs_R0, (proj2 (Reqb_true 0 0) eq_refl). cbv beta iota.
  assert (Hdx : 0 < Rabs (t + - x)) by (apply Rabs_pos_lt; lra).
  rewrite (proj2 (Reqb_false (Rabs (t + - x)) 0)) by lra.
  unfold infOfSign. rewrite (proj2 (Rltb_true 0 _) Hdx). cbn [mul].
  rewrite (proj2 (Reqb_false vy 0) Hvy). unfold infOfSign.
  destruct (Rltb 0 vy); cbv beta iota; apply bounce_infinite.
Qed.

(** Whatever the numbers are, the value [predict] returns, when it
    returns, is one of the three literals of its [return] statements. *)
Lemma predict_range (fuel : nat) (net : Network) (ball : Ball) (paddle : Paddle)
    (canvasWidth canvasHeight : num) (a : Z) :
  predict fuel net ball paddle canvasWidth canvasHeight = Ok a ->
  a = (-1)%Z \/ a = 0%Z \/ a = 1%Z.
Proof.
  unfold predict.
  destruct (forwardPass net _) as [f | |]; cbn [bind]; try discriminate.
  destruct (predictBallY fuel ball _ _ _) as [py | |]; cbn [bind]; try discriminate.
  repeat match goal with
         | |- context [if ?b then _ else _] => destruct b
         end;
    intros H; injection H as <-; auto.
Qed.

(** On a network as [createNetwork] builds it [predict] goes the way
    [predictBallY] goes: it returns one of its three actions when
    [predictBallY] returns, and never returns when [predictBallY] does
    not. *)
Lemma predict_follows (fuel : nat) (net : Network) (ball : Ball) (paddle : Paddle)
    (canvasWidth canvasHeight : num) :
  wellFormed net ->
  (forall py,
     predictBallY fuel ball (paddle_x paddle) canvasWidth canvasHeight = Ok py ->
     exists a,
       predict fuel net ball paddle canvasWidth canvasHeight = Ok a /\
       (a = (-1)%Z \/ a = 0%Z \/ a = 1%Z)) /\
  (predictBallY fuel ball (paddle_x paddle) canvasWidth canvasHeight = OutOfFuel ->
   predict fuel net ball paddle canvasWidth canvasHeight = OutOfFuel).
Proof.
  intros Hnet.
  destruct (forwardPass_wellFormed net
              (normalizeInputs ball paddle canvasWidth canvasHeight)
              Hnet ltac:(cbn; lia)) as (a1 & a2 & out & Hfw & _).
  split.
  - intros py Hpy.
    assert (Hret : exists a,
               predict fuel net ball paddle canvasWidth canvasHeight = Ok a).
    { unfold predict. rewrite Hfw. cbn [bind]. rewrite Hpy. cbn [bind].
      repeat match goal with
             | |- context [if ?b then _ else _] => destruct b
             end; eexists; reflexivity. }
    destruct Hret as [a Ha]. exists a. split; [exact Ha |].
    exact (predict_range _ _ _ _ _ _ _ Ha).
  - intros Hloop. unfold predict. rewrite Hfw. cbn [bind]. rewrite Hloop.
    reflexivity.
Qed.

End Decision.

(** ** The claims on the forward pass and the decision *)

Section ForwardClaims.

Import JS AI Runs.

(** C3. On a network as [createNetwork] builds it, the forward pass of a
    vector of 4 finite numbers returns, and its final output is a vector of
    three finite numbers, each at least 0, whose sum is exactly 1. *)
Theorem forwardPass_distribution (net : Network) (inputs : list num) :
  wellFormed net -> length inputs = 4%nat -> Forall finite inputs ->
  exists f p0 p1 p2,
    forwardPass net inputs = Ok f /\
    output f = [Fin p0; Fin p1; Fin p2] /\
    0 <= p0 /\ 0 <= p1 /\ 0 <= p2 /\ p0 + p1 + p2 = 1.
Proof.
  intros Hnet Hlen Hfin.
  destruct (forwardPass_wellFormed net inputs Hnet ltac:(lia))
    as (a1 & a2 & out & Hfw & _ & _ & _ & Hdist).
  destruct (Hdist Hfin) as (p0 & p1 & p2 & -> & H0 & H1 & H2 & Hsum).
  eexists _, p0, p1, p2. split; [exact Hfw |].
  cbn [output]. repeat split; auto; lra.
Qed.

(** The feature vector (0.5, 0, 0.5, 0.5) on [flatNet]. *)
Lemma forwardPass_distribution_witness :
  wellFormed flatNet /\
  length [Fin 0.5; Fin 0; Fin 0.5; Fin 0.5] = 4%nat /\
  Forall finite [Fin 0.5; Fin 0; Fin 0.5; Fin 0.5] /\
  exists f p0 p1 p2,
    forwardPass flatNet [Fin 0.5; Fin 0; Fin 0.5; Fin 0.5] = Ok f /\
    output f = [Fin p0; Fin p1; Fin p2] /\
    0 <= p0 /\ 0 <= p1 /\ 0 <= p2 /\ p0 + p1 + p2 = 1.
Proof.
  assert (Hfin : Forall finite [Fin 0.5; Fin 0; Fin 0.5; Fin 0.5])
    by (repeat constructor).
  split; [exact flatNet_wellFormed |].
  split; [reflexivity |].
  split; [exact Hfin |].
  exact (forwardPass_distribution flatNet [Fin 0.5; Fin 0; Fin 0.5; Fin 0.5]
           flatNet_wellFormed eq_refl Hfin).
Defined.

(** C2, as the code has it.  On a network as [createNetwork] builds it, a
    vector of more than 4 entries makes the forward pass throw (a
    [TypeError], when the fifth row of the first weight matrix is read); a
    vector of fewer than 4 entries is not rejected: the forward pass
    returns a 3-vector computed from the rows the vector reaches. *)
Theorem forwardPass_length_mismatch (net : Network) (inputs : list num) :
  wellFormed net ->
  ((4 < length inputs)%nat -> forwardPass net inputs = TypeError) /\
  ((length inputs < 4)%nat ->
   exists f, forwardPass net inputs = Ok f /\ length (output f) = 3%nat).
Proof.
  intros Hnet. split; intros Hlen.
  - destruct Hnet as (l0 & l1 & l2 & -> & (S0 & _ & _) & _).
    unfold forwardPass. cbn [forwardLayers].
    rewrite (matrixMultiply_throws 4 16); [reflexivity | lia | exact S0 | exact Hlen].
  - destruct (forwardPass_wellFormed net inputs Hnet ltac:(lia))
      as (a1 & a2 & out & Hfw & _ & _ & Hout & _).
    eexists. split; [exact Hfw | exact Hout].
Qed.

(** A vector of 5 entries and a vector of 3 entries on [flatNet]. *)
Lemma forwardPass_length_mismatch_witness :
  wellFormed flatNet /\
  forwardPass flatNet [Fin 0.5; Fin 0; Fin 0.5; Fin 0.5; Fin 1] = TypeError /\
  exists f, forwardPass flatNet [Fin 0.5; Fin 0; Fin 0.5] = Ok f /\
            length (output f) = 3%nat.
Proof.
  split; [exact flatNet_wellFormed |]. split.
  - apply (proj1 (forwardPass_length_mismatch flatNet _ flatNet_wellFormed)).
    cbn. lia.
  - apply (proj2 (forwardPass_length_mismatch flatNet _ flatNet_wellFormed)).
    cbn. lia.
Defined.

(** C2 as stated fails: a vector of 3 entries, one short of the 4 the first
    layer expects, goes through the forward pass of [flatNet] and comes out
    as the distribution (1/3, 1/3, 1/3). *)
Lemma forwardPass_short_input_computed :
  length [Fin 0.5; Fin 0; Fin 0.5] <> 4%nat /\
  forwardPass flatNet [Fin 0.5; Fin 0; Fin 0.5] =
    Ok {| output := [Fin (1 / 3); Fin (1 / 3); Fin (1 / 3)];
          activations := [ [Fin 0.5; Fin 0; Fin 0.5];
                           repeat (Fin 0) 16;
                           repeat (Fin 0) 8;
                           [Fin (1 / 3); Fin (1 / 3); Fin (1 / 3)] ] |}.
Proof.
  split; [cbn; lia |].
  apply flatNet_forward; [repeat constructor | cbn; lia].
Qed.

(** C4, as the code has it.  On a network as [createNetwork] builds it and
    for a ball position, ball speeds, paddle [x] and canvas height of
    moderate size: [predict] returns, within 1024 turns of the loop of
    [predictBallY], and what it returns is -1, 0 or 1, when [speedX] is not
    0, the canvas height is not negative and the straight line to the
    paddle stays within 1024 canvas heights
    ([|y| + |speedY| * |paddle.x - x| / |speedX| <= 1024 * canvasHeight]),
    and also when [speedX] is 0 with [speedY] 0 or the ball at the [x] of
    the paddle (the predicted height is [NaN] and the loop is skipped).
    It never returns when [speedX] is 0 with [speedY] not 0 and the ball
    away from the [x] of the paddle, nor when [speedX] is not 0 and the
    canvas height is negative. *)
Theorem predict_returns_action (net : Network) (paddle : Paddle)
    (canvasWidth : num) (x y vx vy t h : R) :
  wellFormed net ->
  moderate (Fin x) -> moderate (Fin y) -> moderate (Fin vx) ->
  moderate (Fin vy) -> moderate (Fin t) -> moderate (Fin h) ->
  paddle_x paddle = Fin t ->
  let ball := mkBall (Fin x) (Fin y) (Fin vx) (Fin vy) in
  ((vx <> 0 /\ 0 <= h /\
    Rabs y + Rabs vy * (Rabs (t - x) / Rabs vx) <= 1024 * h) \/
   (vx = 0 /\ (vy = 0 \/ t = x)) ->
   forall fuel, (1024 <= fuel)%nat ->
     exists a,
       predict fuel net ball paddle canvasWidth (Fin h) = Ok a /\
       (a = (-1)%Z \/ a = 0%Z \/ a = 1%Z)) /\
  ((vx <> 0 /\ h < 0) \/ (vx = 0 /\ vy <> 0 /\ t <> x) ->
   forall fuel,
     predict fuel net ball paddle canvasWidth (Fin h) = OutOfFuel).
Proof.
  intros Hnet _ _ _ _ _ _ Hpx ball. subst ball. split.
  - intros Hcase fuel Hfuel.
    destruct (predict_follows fuel net (mkBall (Fin x) (Fin y) (Fin vx) (Fin vy))
                paddle canvasWidth (Fin h) Hnet) as [Hret _].
    rewrite Hpx in Hret.
    destruct Hcase as [(Hvx & _ & Hbound) | (-> & Hnan)].
    + destruct (predictBallY_within x y vx vy t h canvasWidth fuel
                  Hvx Hbound Hfuel) as (r & Hr & _).
      exact (Hret _ Hr).
    + exact (Hret _ (predictBallY_undefined fuel x y vy t canvasWidth (Fin h) Hnan)).
  - intros Hcase fuel.
    destruct (predict_follows fuel net (mkBall (Fin x) (Fin y) (Fin vx) (Fin vy))
                paddle canvasWidth (Fin h) Hnet) as [_ Hhang].
    rewrite Hpx in Hhang. apply Hhang.
    destruct Hcase as [(Hvx & Hh) | (-> & Hvy & Ht)].
    + rewrite predictBallY_Fin by exact Hvx.
      apply bounce_negative_canvas. exact Hh.
    + apply predictBallY_vertical; assumption.
Qed.

(** The ball flying towards the paddle on the 800 by 400 canvas: the
    straight line reaches the paddle at height 428. *)
Lemma predict_returns_action_witness :
  wellFormed flatNet /\
  exists a,
    predict 1024 flatNet incomingBall aiPaddle (Fin 800) (Fin 400) = Ok a /\
    (a = (-1)%Z \/ a = 0%Z \/ a = 1%Z).
Proof.
  split; [exact flatNet_wellFormed |].
  destruct (predict_returns_action flatNet aiPaddle (Fin 800) 400 200 5 3 780 400
              flatNet_wellFormed) as [Hret _]; try moderate_num; try reflexivity.
  apply Hret; [| apply le_n].
  left. split; [lra |]. split; [lra |].
  rewrite !Rabs_right by lra. lra.
Defined.

(** C4 as stated fails: for a ball moving straight up or down in front
    of the paddle ([speedX] is 0) the time to reach the paddle is
    [Infinity], so is the predicted height, and the loop that folds it back
    into the canvas never ends: no amount of fuel makes [predict] return.
    The same happens on a canvas of height 0. *)
Lemma predict_hangs :
  ~ (exists fuel a,
       predict fuel flatNet verticalBall aiPaddle (Fin 800) (Fin 400) = Ok a) /\
  ~ (exists fuel a,
       predict fuel flatNet incomingBall aiPaddle (Fin 800) (Fin 0) = Ok a).
Proof.
  split; intros (fuel & a & H); unfold predict in H.
  - destruct (forwardPass_wellFormed flatNet
                (normalizeInputs verticalBall aiPaddle (Fin 800) (Fin 400))
                flatNet_wellFormed ltac:(cbn; lia)) as (a1 & a2 & out & Hfw & _).
    rewrite Hfw in H. cbn [bind] in H.
    assert (Hloop : predictBallY fuel verticalBall (paddle_x aiPaddle)
                      (Fin 800) (Fin 400) = OutOfFuel).
    { unfold predictBallY, verticalBall, aiPaddle.
      cbn [ball_x ball_y speedX speedY paddle_x sub neg add abs div].
      rewrite Rabs_R0, (Rabs_right (780 + - (400))) by lra.
      unfold infOfSign. rdecide. cbn [mul]. unfold infOfSign. rdecide.
      cbn [add]. apply bounce_infinite. }
    rewrite Hloop in H. discriminate.
  - destruct (forwardPass_wellFormed flatNet
                (normalizeInputs incomingBall aiPaddle (Fin 800) (Fin 0))
                flatNet_wellFormed ltac:(cbn; lia)) as (a1 & a2 & out & Hfw & _).
    rewrite Hfw in H. cbn [bind] in H.
    assert (Hloop : predictBallY fuel incomingBall (paddle_x aiPaddle)
                      (Fin 800) (Fin 0) = OutOfFuel).
    { unfold predictBallY, incomingBall, aiPaddle.
      cbn [ball_x ball_y speedX speedY paddle_x sub neg add abs div].
      rewrite (Rabs_right 5), (Rabs_right (780 + - (400))) by lra.
      rdecide. cbn [mul add]. apply bounce_flat_canvas. lra. }
    rewrite Hloop in H. discriminate.
Qed.

End ForwardClaims.

(** ** The update rule of one layer *)

Section UpdateRule.

Import JS AI.

Lemma get_nil (j : nat) : get [] j = NaN.
Proof. destruct j; reflexivity. Qed.

Lemma get_set_eq (a : list num) (i : nat) (v : num) : get (set a i v) i = v.
Proof.
  unfold get. revert a. induction i as [| i IH]; intros [| x a]; cbn [set nth]; auto.
Qed.

Lemma get_set_neq (a : list num) (i j : nat) (v : num) :
  i <> j -> get (set a i v) j = get a j.
Proof.
  unfold get. revert a j.
  induction i as [| i IH]; intros [| x a] [| j] H; cbn [set nth]; try congruence.
  - destruct j; reflexivity.
  - rewrite (IH [] j) by congruence. destruct j; reflexivity.
  - apply IH. congruence.
Qed.

Lemma length_set (a : list num) (i : nat) (v : num) :
  (i < length a)%nat -> length (set a i v) = length a.
Proof.
  revert a. induction i as [| i IH]; intros [| x a] H; cbn in *; try lia.
  rewrite IH by lia. reflexivity.
Qed.

Lemma length_setRow (m : matrix) (i : nat) (row : list num) :
  length (setRow m i row) = length m.
Proof.
  revert i. induction m as [| r m IH]; intros [| i]; cbn; auto.
Qed.

Lemma nth_setRow_eq (m : matrix) (i : nat) (row : list num) :
  (i < length m)%nat -> nth i (setRow m i row) [] = row.
Proof.
  revert i. induction m as [| r m IH]; intros [| i] H; cbn in *; try lia; auto.
  apply IH. lia.
Qed.

Lemma nth_setRow_neq (m : matrix) (i k : nat) (row : list num) :
  i <> k -> nth k (setRow m i row) [] = nth k m [].
Proof.
  revert i k. induction m as [| r m IH]; intros [| i] [| k] H; cbn; try congruence.
  apply IH. congruence.
Qed.

(** A loop over [a, a + 1, ..., a + n - 1] that keeps an invariant. *)
Lemma foldM_seq {S : Type} (f : S -> nat -> result S) (P : nat -> S -> Prop) :
  forall (n a : nat) (s : S),
    P a s ->
    (forall k s, (a <= k < a + n)%nat -> P k s ->
                 exists s', f s k = Ok s' /\ P (Datatypes.S k) s') ->
    exists s', foldM f (List.seq a n) s = Ok s' /\ P (a + n)%nat s'.
Proof.
  induction n as [| n IH]; intros a s Hs Hstep.
  - exists s. rewrite Nat.add_0_r. split; [reflexivity | exact Hs].
  - destruct (Hstep a s ltac:(lia) Hs) as (s1 & Hf & H1).
    destruct (IH (Datatypes.S a) s1 H1) as (s' & Hfold & H').
    { intros k s0 Hk. apply Hstep. lia. }
    exists s'. cbn [List.seq foldM]. rewrite Hf. cbn [bind].
    split; [exact Hfold |]. replace (a + Datatypes.S n)%nat with (Datatypes.S a + n)%nat by lia.
    exact H'.
Qed.


Lemma get_map_seq (f : nat -> num) (n i : nat) :
  (i < n)%nat -> get (map f (List.seq 0 n)) i = f i.
Proof.
  intros H. unfold get.
  rewrite (nth_indep _ NaN (f 0%nat)) by (rewrite length_map, length_seq; exact H).
  rewrite (map_nth f), seq_nth by exact H. reflexivity.
Qed.

Lemma fold_left_ext_seq (f g : num -> nat -> num) (n : nat) (a : num) :
  (forall acc j, (j < n)%nat -> f acc j = g acc j) ->
  fold_left f (List.seq 0 n) a = fold_left g (List.seq 0 n) a.
Proof.
  intros H. induction n as [| n IH].
  - reflexivity.
  - rewrite seq_S, !fold_left_app. cbn [Nat.add fold_left].
    rewrite IH by (intros; apply H; lia). apply H. lia.
Qed.

Section OneLayer.

Variables (lr : num) (l : nat) (error prevActivation : list num).
Variables (rows cols : nat).
Hypothesis Hprev : length prevActivation = rows.

(** The inner loop, for output unit [j]: every weight of column [j] takes
    its gradient, and every entry of the error for the previous layer takes
    the product of [error[j]] and the weight just written. *)
Lemma updateCell_loop (j : nat) (layer0 : Layer) (ne0 : list num) :
  (j < cols)%nat ->
  length (weights layer0) = rows ->
  (forall i, (i < rows)%nat -> length (nth i (weights layer0) []) = cols) ->
  length ne0 = rows ->
  exists layer1 ne1,
    foldM (updateCell lr l error prevActivation j) (List.seq 0 rows) (layer0, ne0)
    = Ok (layer1, ne1) /\
    biases layer1 = biases layer0 /\
    activation layer1 = activation layer0 /\
    length (weights layer1) = rows /\
    (forall i, (i < rows)%nat -> length (nth i (weights layer1) []) = cols) /\
    (forall i jj, (i < rows)%nat ->
       entry (weights layer1) i jj =
       if (jj =? j)%nat then steppedWeight lr error prevActivation (weights layer0) i j
       else entry (weights layer0) i jj) /\
    length ne1 = rows /\
    (forall i, (i < rows)%nat ->
       get ne1 i =
       if (0 <? l)%nat
       then add (get ne0 i)
                (mul (get error j)
                     (steppedWeight lr error prevActivation (weights layer0) i j))
       else get ne0 i).
Proof.
  intros Hj Hw Hrow Hne.
  pose (P := fun (r : nat) (st : Layer * list num) =>
    biases (fst st) = biases layer0 /\
    activation (fst st) = activation layer0 /\
    length (weights (fst st)) = rows /\
    (forall i, (i < rows)%nat -> length (nth i (weights (fst st)) []) = cols) /\
    (forall i jj, (i < rows)%nat ->
       entry (weights (fst st)) i jj =
       if ((jj =? j) && (i <? r))%nat
       then steppedWeight lr error prevActivation (weights layer0) i j
       else entry (weights layer0) i jj) /\
    length (snd st) = rows /\
    (forall i, (i < rows)%nat ->
       get (snd st) i =
       if ((0 <? l) && (i <? r))%nat
       then add (get ne0 i)
                (mul (get error j)
                     (steppedWeight lr error prevActivation (weights layer0) i j))
       else get ne0 i)).
  destruct (foldM_seq (updateCell lr l error prevActivation j) P rows 0 (layer0, ne0))
    as ([layer1 ne1] & Hfold & HP).
  - unfold P. cbn [fst snd]. repeat split; auto.
    + intros i jj Hi. rewrite Bool.andb_false_r. reflexivity.
    + intros i Hi. rewrite Bool.andb_false_r. reflexivity.
  - intros r [lay ne] Hr (Hb & Ha & Hlen & Hrows & Hent & Hnelen & Hneval).
    cbn [fst snd] in *. unfold updateCell.
    rewrite (nth_error_nth' (weights lay) []) by lia.
    set (row := nth r (weights lay) []).
    set (w := add (get row j) (mul (mul lr (get error j)) (get prevActivation r))).
    assert (Hw_eq : w = steppedWeight lr error prevActivation (weights layer0) r j).
    { unfold w, steppedWeight. f_equal. change (get row j) with (entry (weights lay) r j).
      rewrite Hent by lia. rewrite Nat.ltb_irrefl, Bool.andb_false_r. reflexivity. }
    eexists. split; [reflexivity |].
    unfold P. cbn [fst snd weights biases activation].
    split; [exact Hb |]. split; [exact Ha |].
    split; [rewrite length_setRow; exact Hlen |].
    split; [| split; [| split]].
    + intros i Hi. destruct (Nat.eq_dec r i) as [<- | Hneq].
      * rewrite nth_setRow_eq by lia. rewrite length_set; [apply Hrows; lia |].
        unfold row. rewrite Hrows by lia. exact Hj.
      * rewrite nth_setRow_neq by exact Hneq. apply Hrows. exact Hi.
    + intros i jj Hi. unfold entry. destruct (Nat.eq_dec r i) as [<- | Hneq].
      * rewrite nth_setRow_eq by lia.
        replace (r <? Datatypes.S r)%nat with true by (symmetry; apply Nat.ltb_lt; lia).
        rewrite Bool.andb_true_r.
        destruct (Nat.eqb_spec jj j) as [-> | Hjj].
        -- rewrite get_set_eq. exact Hw_eq.
        -- rewrite get_set_neq by congruence.
           change (get row jj) with (entry (weights lay) r jj).
           rewrite Hent by lia.
           rewrite (proj2 (Nat.eqb_neq jj j) Hjj). reflexivity.
      * rewrite nth_setRow_neq by exact Hneq.
        change (get (nth i (weights lay) []) jj) with (entry (weights lay) i jj).
        rewrite Hent by exact Hi.
        replace (i <? Datatypes.S r)%nat with (i <? r)%nat; [reflexivity |].
        destruct (Nat.ltb_spec i r), (Nat.ltb_spec i (Datatypes.S r)); try reflexivity; lia.
    + destruct (0 <? l)%nat; [| exact Hnelen].
      rewrite length_set by lia. exact Hnelen.
    + intros i Hi. destruct (0 <? l)%nat eqn:Hl; cbn [andb].
      * destruct (Nat.eq_dec r i) as [<- | Hneq].
        -- rewrite get_set_eq.
           replace (r <? Datatypes.S r)%nat with true by (symmetry; apply Nat.ltb_lt; lia).
           rewrite Hneval by lia. rewrite ?Hl, Nat.ltb_irrefl. cbn [andb].
           rewrite Hw_eq. reflexivity.
        -- rewrite get_set_neq by exact Hneq. rewrite Hneval by exact Hi.
           rewrite ?Hl. cbn [andb].
           replace (i <? Datatypes.S r)%nat with (i <? r)%nat; [reflexivity |].
           destruct (Nat.ltb_spec i r), (Nat.ltb_spec i (Datatypes.S r)); try reflexivity; lia.
      * rewrite Hneval by exact Hi. rewrite ?Hl. reflexivity.
  - destruct HP as (Hb & Ha & Hlen & Hrows & Hent & Hnelen & Hneval).
    cbn [fst snd Nat.add] in *.
    exists layer1, ne1. split; [exact Hfold |].
    repeat split; auto.
    + intros i jj Hi. rewrite Hent by exact Hi.
      rewrite (proj2 (Nat.ltb_lt i rows) Hi), Bool.andb_true_r. reflexivity.
    + intros i Hi. rewrite Hneval by exact Hi.
      rewrite (proj2 (Nat.ltb_lt i rows) Hi), Bool.andb_true_r. reflexivity.
Qed.

(** The outer loop: after the first [k] output units, the biases and the
    weight columns of these units are updated and the error for the
    previous layer holds their weighted sum. *)
Lemma updateUnit_loop (layer : Layer) :
  wellShaped rows cols (weights layer) (biases layer) ->
  length error = cols ->
  exists layer' ne,
    foldM (updateUnit lr l error prevActivation) (List.seq 0 cols)
          (layer, repeat (Fin 0) rows) = Ok (layer', ne) /\
    activation layer' = activation layer /\
    wellShaped rows cols (weights layer') (biases layer') /\
    (forall j, (j < cols)%nat ->
       get (biases layer') j = steppedBias lr error (biases layer) j) /\
    (forall i j, (i < rows)%nat -> (j < cols)%nat ->
       entry (weights layer') i j = steppedWeight lr error prevActivation (weights layer) i j) /\
    length ne = rows /\
    (forall i, (i < rows)%nat ->
       get ne i =
       if (0 <? l)%nat then weightedError error (weights layer') cols i
       else Fin 0).
Proof.
  intros (Hw & Hrowlen & Hb) Herr.
  assert (Hrows0 : forall i, (i < rows)%nat -> length (nth i (weights layer) []) = cols).
  { intros i Hi. apply (proj1 (Forall_forall _ _) Hrowlen). apply nth_In. lia. }
  pose (P := fun (k : nat) (st : Layer * list num) =>
    activation (fst st) = activation layer /\
    length (weights (fst st)) = rows /\
    (forall i, (i < rows)%nat -> length (nth i (weights (fst st)) []) = cols) /\
    length (biases (fst st)) = cols /\
    (forall j, get (biases (fst st)) j =
               if (j <? k)%nat then steppedBias lr error (biases layer) j
               else get (biases layer) j) /\
    (forall i j, (i < rows)%nat ->
       entry (weights (fst st)) i j =
       if (j <? k)%nat then steppedWeight lr error prevActivation (weights layer) i j
       else entry (weights layer) i j) /\
    length (snd st) = rows /\
    (forall i, (i < rows)%nat ->
       get (snd st) i =
       if (0 <? l)%nat
       then fold_left
              (fun acc j =>
                 add acc (mul (get error j)
                              (steppedWeight lr error prevActivation (weights layer) i j)))
              (List.seq 0 k) (Fin 0)
       else Fin 0)).
  destruct (foldM_seq (updateUnit lr l error prevActivation) P cols 0
              (layer, repeat (Fin 0) rows)) as ([layer' ne] & Hfold & HP).
  - unfold P. cbn [fst snd List.seq fold_left].
    repeat split; auto.
    + apply repeat_length.
    + intros i Hi. rewrite get_repeat by exact Hi. destruct (0 <? l)%nat; reflexivity.
  - intros k [lay ne] Hk (Ha & Hlen & Hrows & Hblen & Hbias & Hent & Hnelen & Hneval).
    cbn [fst snd] in *. unfold updateUnit.
    destruct (updateCell_loop k
                {| weights := weights lay;
                   biases := set (biases lay) k
                               (add (get (biases lay) k) (mul lr (get error k)));
                   activation := activation lay |} ne)
      as (lay1 & ne1 & Hloop & Hb1 & Ha1 & Hlen1 & Hrows1 & Hent1 & Hnelen1 & Hneval1);
      cbn [weights biases activation]; auto; try lia.
    cbn [weights biases activation] in *.
    exists (lay1, ne1). split; [rewrite Hprev; exact Hloop |].
    unfold P. cbn [fst snd].
    split; [congruence |]. split; [exact Hlen1 |]. split; [exact Hrows1 |].
    split; [| split; [| split; [| split]]].
    + rewrite Hb1, length_set by lia. exact Hblen.
    + intros j. rewrite Hb1. destruct (Nat.eq_dec k j) as [<- | Hneq].
      * rewrite get_set_eq.
        replace (k <? Datatypes.S k)%nat with true by (symmetry; apply Nat.ltb_lt; lia).
        rewrite Hbias, Nat.ltb_irrefl. reflexivity.
      * rewrite get_set_neq by exact Hneq. rewrite Hbias.
        replace (j <? Datatypes.S k)%nat with (j <? k)%nat; [reflexivity |].
        destruct (Nat.ltb_spec j k), (Nat.ltb_spec j (Datatypes.S k)); try reflexivity; lia.
    + intros i j Hi. rewrite Hent1 by exact Hi.
      destruct (Nat.eqb_spec j k) as [-> | Hneq].
      * replace (k <? Datatypes.S k)%nat with true by (symmetry; apply Nat.ltb_lt; lia).
        unfold steppedWeight. rewrite Hent by exact Hi.
        rewrite Nat.ltb_irrefl. reflexivity.
      * rewrite Hent by exact Hi.
        replace (j <? Datatypes.S k)%nat with (j <? k)%nat; [reflexivity |].
        destruct (Nat.ltb_spec j k), (Nat.ltb_spec j (Datatypes.S k)); try reflexivity; lia.
    + exact Hnelen1.
    + intros i Hi. rewrite Hneval1 by exact Hi.
      destruct (0 <? l)%nat eqn:Hl.
      * rewrite seq_S, fold_left_app. cbn [Nat.add fold_left].
        rewrite Hneval by exact Hi. rewrite ?Hl.
        unfold steppedWeight at 2. rewrite Hent by exact Hi.
        rewrite Nat.ltb_irrefl. reflexivity.
      * rewrite Hneval by exact Hi. rewrite ?Hl. reflexivity.
  - destruct HP as (Ha & Hlen & Hrows & Hblen & Hbias & Hent & Hnelen & Hneval).
    cbn [fst snd Nat.add] in *.
    assert (Hent' : forall i j, (i < rows)%nat -> (j < cols)%nat ->
                      entry (weights layer') i j =
                      steppedWeight lr error prevActivation (weights layer) i j).
    { intros i j Hi Hj. rewrite Hent by exact Hi.
      rewrite (proj2 (Nat.ltb_lt j cols) Hj). reflexivity. }
    exists layer', ne. split; [exact Hfold |].
    split; [exact Ha |]. split; [| split; [| split; [exact Hent' | split; [exact Hnelen |]]]].
    + repeat split; auto.
      apply Forall_forall. intros row Hin.
      destruct (In_nth _ _ [] Hin) as (i & Hi & <-). apply Hrows. lia.
    + intros j Hj. rewrite Hbias. rewrite (proj2 (Nat.ltb_lt j cols) Hj). reflexivity.
    + intros i Hi. rewrite Hneval by exact Hi.
      destruct (0 <? l)%nat; [| reflexivity].
      unfold weightedError. apply fold_left_ext_seq.
      intros acc j Hj. rewrite Hent' by assumption. reflexivity.
Qed.

End OneLayer.

Lemma gate_spec (prevActivation nextError : list num) (i : nat) :
  (i < length nextError)%nat ->
  get (gate prevActivation nextError) i =
  if gt (get prevActivation i) (Fin 0) then get nextError i else Fin 0.
Proof.
  intros H. unfold gate.
  rewrite (get_map_seq
             (fun k => if gt (get prevActivation k) (Fin 0)
                       then get nextError k else Fin 0)) by exact H.
  reflexivity.
Qed.

(** X7. What one turn of the loop of [updateWeights] does to layer number [l],
    entry by entry.  Each bias takes [learningRate * error[j]] and each
    weight [learningRate * error[j] * prevActivation[i]]; the error handed
    to the layer before is the sum of the errors weighted by the weights
    just written, and it is zeroed at the units whose activation
    [prevActivation[i]] is not above 0 exactly when the layer being updated
    is itself rectified-linear; for the first layer it is all zeros. *)
Lemma updateLayer_rule (lr : num) (l : nat) (layer : Layer)
    (prevActivation error : list num) (rows cols : nat) :
  wellShaped rows cols (weights layer) (biases layer) ->
  length prevActivation = rows -> length error = cols ->
  exists layer' nextError,
    updateLayer lr l layer prevActivation error = Ok (layer', nextError) /\
    activation layer' = activation layer /\
    wellShaped rows cols (weights layer') (biases layer') /\
    (forall j, (j < cols)%nat ->
       get (biases layer') j = steppedBias lr error (biases layer) j) /\
    (forall i j, (i < rows)%nat -> (j < cols)%nat ->
       entry (weights layer') i j =
       steppedWeight lr error prevActivation (weights layer) i j) /\
    length nextError = rows /\
    (forall i, (i < rows)%nat ->
       get nextError i =
       if (0 <? l)%nat then
         if isRelu (activation layer) && negb (gt (get prevActivation i) (Fin 0))
         then Fin 0
         else weightedError error (weights layer') cols i
       else Fin 0).
Proof.
  intros Hshape Hprev Herr.
  destruct (updateUnit_loop lr l error prevActivation rows cols Hprev layer Hshape Herr)
    as (layer' & ne & Hloop & Ha & Hshape' & Hbias & Hent & Hnelen & Hneval).
  unfold updateLayer. rewrite Hprev, Herr, Hloop. cbn [bind].
  eexists _, _. split; [reflexivity |].
  split; [exact Ha |]. split; [exact Hshape' |].
  split; [exact Hbias |]. split; [exact Hent |].
  rewrite Ha. destruct (0 <? l)%nat; cbn [andb].
  - destruct (isRelu (activation layer)); cbn [andb].
    + split; [unfold gate; rewrite length_map, length_seq; exact Hnelen |].
      intros i Hi. rewrite gate_spec by lia. rewrite Hneval by exact Hi.
      destruct (gt (get prevActivation i) (Fin 0)); reflexivity.
    + split; [exact Hnelen |]. exact Hneval.
  - split; [exact Hnelen |]. exact Hneval.
Qed.

(** The last layer of a network (8 rows of [[0, 0, 0.25]], no bias) updated
    from the error (0, 0, 1) with all 8 units before it at activation 1. *)
Lemma updateLayer_rule_witness :
  exists layer' nextError,
    updateLayer (Fin 0.01) 2
      (mkLayer (repeat [Fin 0; Fin 0; Fin 0.25] 8) (repeat (Fin 0) 3) Softmax)
      (repeat (Fin 1) 8) [Fin 0; Fin 0; Fin 1] = Ok (layer', nextError) /\
    activation layer' = Softmax /\
    get (biases layer') 2 = Fin (0 + 0.01 * 1) /\
    entry (weights layer') 0 2 = Fin (0.25 + 0.01 * 1 * 1) /\
    length nextError = 8%nat.
Proof.
  destruct (updateLayer_rule (Fin 0.01) 2
              (mkLayer (repeat [Fin 0; Fin 0; Fin 0.25] 8) (repeat (Fin 0) 3) Softmax)
              (repeat (Fin 1) 8) [Fin 0; Fin 0; Fin 1] 8 3)
    as (layer' & nextError & Hrun & Hact & _ & Hbias & Hw & Hlen & _).
  - cbn [weights biases]. repeat split; repeat constructor.
  - reflexivity.
  - reflexivity.
  - exists layer', nextError. split; [exact Hrun |]. split; [exact Hact |].
    split; [rewrite Hbias by lia; reflexivity |].
    split; [rewrite Hw by lia; reflexivity | exact Hlen].
Defined.

End UpdateRule.

(** ** One training step on [flatNet] *)

Section Training.

Import JS AI Runs.

Lemma downSample_inputs :
  inputs downSample =
  [Fin (200 / 400); Fin (3 / 10); Fin ((400 + - (780)) / 800); Fin (160 / 400)].
Proof.
  unfold downSample, sampleOf, normalizeInputs, incomingBall, aiPaddle.
  cbn [inputs ball_x ball_y speedX speedY paddle_x paddle_y sub neg add div].
  rdecide. reflexivity.
Qed.

Lemma Rltb_irrefl (a : R) : Rltb a a = false.
Proof. apply Rltb_false. lra. Qed.

(** Evaluates a computation on lists of finite numbers, leaving the real
    arithmetic as it is. *)
Ltac evaluate :=
  cbv - [Rplus Rmult Ropp Rinv Rdiv Rminus IZR Rltb Reqb Rmax Rmin Rabs
         Rlt_dec Req_dec_T];
  rewrite ?Rltb_irrefl;
  cbv beta iota.

(** Closes an equation between two lists of finite numbers by linear
    arithmetic on their entries. *)
Ltac entrywise :=
  repeat match goal with
         | |- _ :: _ = _ :: _ => f_equal
         | |- Fin _ = Fin _ => f_equal; lra
         | |- [] = [] => reflexivity
         end.

(** With 20 samples or more, [reward()] runs [trainSample] with reward
    factor 1.0 over the last 30 samples, oldest first, each on the network
    the one before left. *)
Lemma reward_trains_on_slice (c : Controller) :
  (20 <= length (trainingData c))%nat ->
  reward c =
    (net <- foldM (trainSample (learningRate c) (Fin 1.0))
                  (sliceLast 30 (trainingData c)) (network c) ;;
     Ok (withNetwork c net)).
Proof.
  intros H. unfold reward, trainOnRecentData.
  rewrite (proj2 (Nat.ltb_ge _ 20) H).
  rewrite (proj2 (Nat.ltb_ge _ 10)) by lia. reflexivity.
Qed.

(** C1 fails on the code at the rectified-linear units of the second hidden
    layer.  On [flatNet] and the sample [downSample] (target "move down",
    reward factor 1) the forward pass leaves all 8 units of that layer at
    activation 0.  The turn of the loop of [updateWeights] for the last
    layer (number 2, normalized-exponential) nevertheless hands them the
    error 1/6 each, not 0: the derivative gate looks at the kind of the
    layer being updated, not at the kind of the layer whose units receive
    the error.  With it the biases of these units move from 0 to 1/600. *)
Theorem updateWeights_misses_gate :
  exists f layer2 net',
    forwardPass flatNet (inputs downSample) = Ok f /\
    nth 2 (activations f) [] = repeat (Fin 0) 8 /\
    updateLayer (Fin 0.01) 2 (nth 2 flatNet (mkLayer [] [] Relu))
      (nth 2 (activations f) []) (errorOf downSample (output f) (Fin 1.0))
    = Ok (layer2, repeat (Fin (1 / 6)) 8) /\
    trainSample (Fin 0.01) (Fin 1.0) flatNet downSample = Ok net' /\
    biases (nth 1 flatNet (mkLayer [] [] Relu)) = repeat (Fin 0) 8 /\
    biases (nth 1 net' (mkLayer [] [] Relu)) = repeat (Fin (1 / 600)) 8.
Proof.
  assert (Hfw : forwardPass flatNet (inputs downSample) =
                Ok {| output := repeat (Fin (1 / 3)) 3;
                      activations := [inputs downSample; repeat (Fin 0) 16;
                                      repeat (Fin 0) 8; repeat (Fin (1 / 3)) 3] |}).
  { apply flatNet_forward; rewrite downSample_inputs;
      [repeat constructor | cbn; lia]. }
  eexists _, _, _. split; [exact Hfw |].
  split; [reflexivity |].
  unfold trainSample. rewrite Hfw.
  cbn [bind output activations nth]. rewrite downSample_inputs.
  split; [| split; [| split; [reflexivity |]]].
  - evaluate. do 2 f_equal. entrywise.
  - unfold updateWeights, flatNet. evaluate. reflexivity.
  - cbn [nth biases repeat]. entrywise.
Qed.

End Training.

(** ** Vectors of finite numbers *)

Section VectorFacts.

Import JS.

Lemma sum_squares_nonneg (x y : R) : 0 <= x * x + y * y.
Proof. nra. Qed.

Lemma magnitude_Fin (x y : R) :
  Vector2D.magnitude (Vector2D.mk (Fin x) (Fin y)) =
  Fin (R_sqrt.sqrt (x * x + y * y)).
Proof.
  unfold Vector2D.magnitude. cbn [Vector2D.x Vector2D.y mul add sqrt].
  rewrite (proj2 (Rltb_false (x * x + y * y) 0)) by apply sum_squares_nonneg.
  reflexivity.
Qed.

Lemma finite_vector_inv (v : Vector2D.t) :
  Vector2D.finite v -> exists x y, v = Vector2D.mk (Fin x) (Fin y).
Proof.
  destruct v as [[x | | |] [y | | |]]; intros [Hx Hy]; cbn in *;
    try contradiction.
  exists x, y. reflexivity.
Qed.

(** A vector whose magnitude is the number 0 is the zero vector. *)
Lemma magnitude_zero_inv (v : Vector2D.t) :
  Vector2D.magnitude v = Fin 0 -> v = Vector2D.mk (Fin 0) (Fin 0).
Proof.
  destruct v as [[x | | |] [y | | |]]; unfold Vector2D.magnitude;
    cbn [Vector2D.x Vector2D.y mul add sqrt]; try discriminate.
  rewrite (proj2 (Rltb_false (x * x + y * y) 0)) by apply sum_squares_nonneg.
  intros H. injection H as H.
  apply sqrt_eq_0 in H; [| apply sum_squares_nonneg].
  assert (x = 0) by nra. assert (y = 0) by nra. subst. reflexivity.
Qed.

Lemma unit_after_division (x y : R) :
  let m := R_sqrt.sqrt (x * x + y * y) in
  m <> 0 -> x / m * (x / m) + y / m * (y / m) = 1.
Proof.
  intros m Hm.
  assert (Hsq : m * m = x * x + y * y)
    by (apply sqrt_sqrt, sum_squares_nonneg).
  replace (x / m * (x / m) + y / m * (y / m))
    with ((x * x + y * y) / (m * m)) by (field; exact Hm).
  rewrite Hsq. field. rewrite <- Hsq. nra.
Qed.

(** [normalize] on a finite vector: the zero vector stays, with no
    division; any other is divided by its magnitude, twice. *)
Lemma normalize_Fin (x y : R) :
  let m := R_sqrt.sqrt (x * x + y * y) in
  Vector2D.normalize (Vector2D.mk (Fin x) (Fin y)) =
  if Reqb m 0 then (Vector2D.mk (Fin 0) (Fin 0), [])
  else (Vector2D.mk (Fin (x / m)) (Fin (y / m)), [Fin m; Fin m]).
Proof.
  intros m. unfold Vector2D.normalize. rewrite magnitude_Fin. fold m.
  cbn [strictEq]. destruct (Reqb m 0) eqn:Hm; [reflexivity |].
  unfold Vector2D.divide. cbn [strictEq]. rewrite Hm.
  unfold quotient, andThen, ret. cbn [Vector2D.x Vector2D.y div app].
  rewrite Hm. reflexivity.
Qed.

End VectorFacts.

(** ** The contact normal *)

Section ContactNormal.

Import JS Physics Scenes.

(** The contact normal of a ball and a rectangle with finite coordinates:
    the canonical axis when the centre is its own closest point, the unit
    vector from the closest point to the centre otherwise. *)
Lemma contactNormal_Fin (ball : PhysicsBody) (px py rx ry w h : R) :
  position ball = Vector2D.mk (Fin px) (Fin py) ->
  let dx := px + - Rmax rx (Rmin (rx + w) px) in
  let dy := py + - Rmax ry (Rmin (ry + h) py) in
  let m := R_sqrt.sqrt (dx * dx + dy * dy) in
  contactNormal ball (mkRect (Fin rx) (Fin ry) (Fin w) (Fin h)) =
  if Reqb m 0 then (Vector2D.mk (Fin 1) (Fin 0), [])
  else (Vector2D.mk (Fin (dx / m)) (Fin (dy / m)), [Fin m; Fin m]).
Proof.
  intros Hpos dx dy m.
  unfold contactNormal, closestPoint, clamp. rewrite Hpos.
  cbn [rect_x rect_y width height Vector2D.x Vector2D.y add min max].
  unfold Vector2D.subtract. cbn [Vector2D.x Vector2D.y sub neg add].
  fold dx dy. rewrite normalize_Fin. fold m.
  destruct (Reqb m 0) eqn:Hm; unfold andThen, ret; cbn [app].
  - rewrite magnitude_Fin.
    replace (0 * 0 + 0 * 0) with 0 by ring. rewrite sqrt_0.
    cbn [strictEq]. rewrite (proj2 (Reqb_true 0 0) eq_refl). reflexivity.
  - apply Reqb_false in Hm.
    rewrite magnitude_Fin. unfold m at 1 2 3 4. rewrite unit_after_division by exact Hm.
    rewrite sqrt_1. cbn [strictEq].
    rewrite (proj2 (Reqb_false 1 0)) by lra. reflexivity.
Qed.


(** The three balls of the wall scene sit 3 below the wall: their contact
    normal is (0, 1). *)
Lemma contactNormal_below_wall (vx vy e : R) :
  contactNormal (ballWith 100 3 vx vy e) topWall =
  (Vector2D.mk (Fin 0) (Fin 1), [Fin 3; Fin 3]).
Proof.
  unfold topWall.
  rewrite (contactNormal_Fin (ballWith 100 3 vx vy e) 100 3 0 (-10) 800 10 eq_refl).
  cbv zeta.
  assert (Hx : 100 + - Rmax 0 (Rmin (0 + 800) 100) = 0).
  { rewrite Rmin_right, Rmax_right by lra. lra. }
  assert (Hy : 3 + - Rmax (-10) (Rmin (-10 + 10) 3) = 3).
  { rewrite Rmin_left by lra. rewrite Rmax_right by lra. lra. }
  rewrite Hx, Hy.
  replace (0 * 0 + 3 * 3) with (3 * 3) by ring.
  rewrite sqrt_square by lra.
  rewrite (proj2 (Reqb_false 3 0)) by lra.
  repeat f_equal; lra.
Qed.

End ContactNormal.

(** ** Collision resolution *)

Section Resolution.

Import JS Physics Scenes.


(** The early return: nothing is touched when the relative velocity along
    the normal is positive. *)
Lemma resolveCircleRect_separating (ball : PhysicsBody) (rect : Rect)
    (rectVel : Vector2D.t) :
  gt (Vector2D.dot (Vector2D.subtract (velocity ball) rectVel)
                   (value (contactNormal ball rect))) (Fin 0) = true ->
  value (resolveCircleRect ball rect rectVel) = (ball, None).
Proof.
  unfold resolveCircleRect, value.
  destruct (contactNormal ball rect) as [n log]. cbn [fst andThen].
  intros ->. reflexivity.
Qed.

(** The other branch, written out: the ball after the call and the record
    returned. *)
Lemma resolveCircleRect_contact (ball : PhysicsBody) (rect : Rect)
    (rectVel : Vector2D.t) :
  let n := value (contactNormal ball rect) in
  let relVel := Vector2D.subtract (velocity ball) rectVel in
  let imp :=
    Vector2D.multiply n
      (mul (neg (add (Fin 1) (restitution ball))) (Vector2D.dot relVel n)) in
  gt (Vector2D.dot relVel n) (Fin 0) = false ->
  resolveCircleRect ball rect rectVel =
  ((withPosition
      (withAngularVelocity
         (withVelocity ball (Vector2D.add (velocity ball) imp))
         (add (angularVelocity ball)
              (mul (sub (Vector2D.y (position ball))
                        (add (rect_y rect) (div (height rect) (Fin 2))))
                   (Fin 0.01))))
      (Vector2D.add (position ball)
         (Vector2D.multiply n (sub (radius ball) (Vector2D.magnitude n)))),
    Some {| normal := n;
            impulse := imp;
            point := closestPoint ball rect;
            relativeVelocity := relVel |}),
   divisors (contactNormal ball rect) ++ [Fin 2]).
Proof.
  unfold resolveCircleRect, value, divisors.
  destruct (contactNormal ball rect) as [n log]. cbn [fst snd andThen].
  intros ->. unfold quotient, ret. cbn [andThen]. rewrite app_nil_r.
  reflexivity.
Qed.

Lemma resolveCircleCircle_separating (c1 c2 : PhysicsBody) :
  gt (Vector2D.dot (Vector2D.subtract (velocity c1) (velocity c2))
        (value (Vector2D.normalize
                  (Vector2D.subtract (position c1) (position c2)))))
     (Fin 0) = true ->
  value (resolveCircleCircle c1 c2) = (c1, c2).
Proof.
  unfold resolveCircleCircle, value.
  destruct (Vector2D.normalize _) as [n log]. cbn [fst andThen].
  intros ->. reflexivity.
Qed.

End Resolution.

(** ** The claims on collision resolution *)

Section ResolutionClaims.

Import JS Physics Scenes.

(** Unfolds the vector operations on bodies given by their fields, down to
    real arithmetic under [Fin]. *)
Ltac vector_eval :=
  unfold value, divisors, zero, ballWith, Vector2D.dot, Vector2D.subtract,
    Vector2D.add, Vector2D.multiply;
  unfold GAME_CONFIG.ballRadius, GAME_CONFIG.friction;
  cbn [fst snd position velocity restitution angularVelocity radius
       withPosition withAngularVelocity withVelocity rect_x rect_y width height
       Vector2D.x Vector2D.y add sub neg mul].




(** C6, as the code has it.  When the relative velocity along the contact
    normal is above 0, [resolveCircleRect] and [resolveCircleCircle] return
    at once: no impulse is applied, and the positions, velocities and
    angular velocities of the bodies, as every other field, are what they
    were. *)
Theorem separating_bodies_untouched (ball : PhysicsBody) (rect : Rect)
    (rectVel : Vector2D.t) (c1 c2 : PhysicsBody) :
  (gt (Vector2D.dot (Vector2D.subtract (velocity ball) rectVel)
         (value (contactNormal ball rect))) (Fin 0) = true ->
   value (resolveCircleRect ball rect rectVel) = (ball, None)) /\
  (gt (Vector2D.dot (Vector2D.subtract (velocity c1) (velocity c2))
         (value (Vector2D.normalize
                   (Vector2D.subtract (position c1) (position c2)))))
      (Fin 0) = true ->
   value (resolveCircleCircle c1 c2) = (c1, c2)).
Proof.
  split.
  - apply resolveCircleRect_separating.
  - apply resolveCircleCircle_separating.
Qed.

(** The ball flying away from [topWall], and two balls flying apart. *)
Lemma separating_bodies_untouched_witness :
  value (resolveCircleRect leavingBall topWall zero) = (leavingBall, None) /\
  value (resolveCircleCircle rightBall leftBall) = (rightBall, leftBall).
Proof.
  split.
  - apply (proj1 (separating_bodies_untouched leavingBall topWall zero
                    rightBall leftBall)).
    unfold leavingBall. rewrite contactNormal_below_wall. vector_eval.
    cbn. apply Rltb_true. lra.
  - apply (proj2 (separating_bodies_untouched leavingBall topWall zero
                    rightBall leftBall)).
    unfold rightBall, leftBall. vector_eval. rewrite normalize_Fin. cbv zeta.
    replace ((100 + - (90)) * (100 + - (90)) + (100 + - (100)) * (100 + - (100)))
      with (10 * 10) by ring.
    rewrite sqrt_square by lra.
    rewrite (proj2 (Reqb_false 10 0)) by lra.
    cbn. apply Rltb_true. lra.
Defined.

(** C6 as stated fails at a relative normal velocity of exactly 0: the
    ball sliding along the wall is not skipped.  The impulse is zero, but
    the call moves the ball from (100, 3) to (100, 10) and takes its angular
    velocity from 0 to 0.08. *)
Lemma resting_contact_is_resolved :
  Vector2D.dot (Vector2D.subtract (velocity slidingBall) zero)
    (value (contactNormal slidingBall topWall)) = Fin 0 /\
  position slidingBall = Vector2D.mk (Fin 100) (Fin 3) /\
  angularVelocity slidingBall = Fin 0 /\
  position (fst (value (resolveCircleRect slidingBall topWall zero)))
  = Vector2D.mk (Fin 100) (Fin 10) /\
  angularVelocity (fst (value (resolveCircleRect slidingBall topWall zero)))
  = Fin 0.08.
Proof.
  rewrite resolveCircleRect_contact.
  2: { unfold slidingBall. rewrite contactNormal_below_wall. vector_eval.
       cbn. apply Rltb_false. lra. }
  unfold slidingBall. rewrite contactNormal_below_wall.
  unfold value. cbn [fst]. rewrite magnitude_Fin.
  replace (0 * 0 + 1 * 1) with 1 by ring. rewrite sqrt_1.
  unfold topWall. vector_eval.
  unfold div. rewrite (proj2 (Reqb_false 2 0)) by lra.
  cbn [add sub neg mul].
  repeat split; repeat f_equal; lra.
Qed.

(** C7. When the centre of the ball is its own closest point on the
    rectangle (the offset between them has length 0), [resolveCircleRect]
    takes the canonical axis (1, 0) as contact normal, without any
    division, and no division of the call has a zero divisor.  A ball that
    moves away along that axis is returned as it is.  Otherwise the call
    resolves the contact along the axis: it returns the record with the
    normal (1, 0) and the impulse [-(1 + e) * velAlongNormal] times (1, 0),
    adds that impulse to the velocity of the ball and moves the ball by
    [radius - 1] along the axis; its one division is by 2. *)
Theorem zero_normal_falls_back (ball : PhysicsBody) (rect : Rect)
    (rectVel : Vector2D.t) :
  Vector2D.magnitude (Vector2D.subtract (position ball) (closestPoint ball rect))
  = Fin 0 ->
  let axis := Vector2D.mk (Fin 1) (Fin 0) in
  let relVel := Vector2D.subtract (velocity ball) rectVel in
  let imp :=
    Vector2D.multiply axis
      (mul (neg (add (Fin 1) (restitution ball))) (Vector2D.dot relVel axis)) in
  value (contactNormal ball rect) = axis /\
  divisors (contactNormal ball rect) = [] /\
  Forall (fun d => strictEq d (Fin 0) = false)
         (divisors (resolveCircleRect ball rect rectVel)) /\
  (gt (Vector2D.dot relVel axis) (Fin 0) = true ->
   resolveCircleRect ball rect rectVel = ((ball, None), [])) /\
  (gt (Vector2D.dot relVel axis) (Fin 0) = false ->
   exists ball',
     resolveCircleRect ball rect rectVel =
       ((ball', Some {| normal := axis;
                        impulse := imp;
                        point := closestPoint ball rect;
                        relativeVelocity := relVel |}),
        [Fin 2]) /\
     velocity ball' = Vector2D.add (velocity ball) imp /\
     position ball' =
       Vector2D.add (position ball)
         (Vector2D.multiply axis (sub (radius ball) (Fin 1)))).
Proof.
  intros Hzero axis relVel imp. apply magnitude_zero_inv in Hzero.
  assert (Hcn : contactNormal ball rect = (axis, [])).
  { unfold contactNormal. rewrite Hzero.
    unfold Vector2D.normalize. rewrite magnitude_Fin.
    replace (0 * 0 + 0 * 0) with 0 by ring. rewrite sqrt_0.
    cbn [strictEq]. rewrite (proj2 (Reqb_true 0 0) eq_refl).
    unfold andThen, ret. cbn [app]. rewrite magnitude_Fin.
    replace (0 * 0 + 0 * 0) with 0 by ring. rewrite sqrt_0.
    cbn [strictEq]. rewrite (proj2 (Reqb_true 0 0) eq_refl). reflexivity. }
  assert (Haxis : Vector2D.magnitude axis = Fin 1).
  { unfold axis. rewrite magnitude_Fin.
    replace (1 * 1 + 0 * 0) with 1 by ring. rewrite sqrt_1. reflexivity. }
  assert (Hsep : gt (Vector2D.dot relVel axis) (Fin 0) = true ->
                 resolveCircleRect ball rect rectVel = ((ball, None), [])).
  { intros Hgt. unfold resolveCircleRect. rewrite Hcn. cbn [andThen].
    fold relVel. rewrite Hgt. reflexivity. }
  assert (Hres : gt (Vector2D.dot relVel axis) (Fin 0) = false ->
                 resolveCircleRect ball rect rectVel =
                 ((withPosition
                     (withAngularVelocity
                        (withVelocity ball (Vector2D.add (velocity ball) imp))
                        (add (angularVelocity ball)
                             (mul (sub (Vector2D.y (position ball))
                                       (add (rect_y rect) (div (height rect) (Fin 2))))
                                  (Fin 0.01))))
                     (Vector2D.add (position ball)
                        (Vector2D.multiply axis (sub (radius ball) (Fin 1)))),
                   Some {| normal := axis;
                           impulse := imp;
                           point := closestPoint ball rect;
                           relativeVelocity := relVel |}),
                  [Fin 2])).
  { intros Hgt.
    rewrite (resolveCircleRect_contact ball rect rectVel);
      rewrite Hcn; unfold value, divisors; cbn [fst snd app].
    - fold axis relVel imp. rewrite Haxis. reflexivity.
    - exact Hgt. }
  split; [rewrite Hcn; reflexivity |].
  split; [rewrite Hcn; reflexivity |].
  split; [| split].
  - destruct (gt (Vector2D.dot relVel axis) (Fin 0)) eqn:Hgt.
    + rewrite (Hsep eq_refl). constructor.
    + rewrite (Hres eq_refl). unfold divisors. cbn [snd].
      repeat constructor. cbn [strictEq]. apply Reqb_false. lra.
  - exact Hsep.
  - intros Hgt. eexists. split; [exact (Hres Hgt) |].
    split; reflexivity.
Qed.

(** The ball at rest at the exact centre of the paddle: the call returns
    the contact with normal (1, 0) and a zero impulse, and divides by 2
    only. *)
Lemma zero_normal_falls_back_witness :
  Vector2D.magnitude
    (Vector2D.subtract (position centredBall) (closestPoint centredBall paddleBounds))
  = Fin 0 /\
  exists ball' c,
    resolveCircleRect centredBall paddleBounds zero = ((ball', Some c), [Fin 2]) /\
    normal c = Vector2D.mk (Fin 1) (Fin 0).
Proof.
  assert (H : Vector2D.magnitude
                (Vector2D.subtract (position centredBall)
                   (closestPoint centredBall paddleBounds)) = Fin 0).
  { unfold closestPoint, clamp, centredBall, paddleBounds. vector_eval.
    cbn [min max]. vector_eval. rewrite magnitude_Fin.
    rewrite (Rmin_right (42.5 + 15) 50), (Rmax_right 42.5 50) by lra.
    rewrite (Rmin_right (150 + 100) 200), (Rmax_right 150 200) by lra.
    replace ((50 + - (50)) * (50 + - (50)) + (200 + - (200)) * (200 + - (200)))
      with 0 by ring.
    rewrite sqrt_0. reflexivity. }
  split; [exact H |].
  destruct (zero_normal_falls_back centredBall paddleBounds zero H)
    as (_ & _ & _ & _ & Hres).
  destruct Hres as (ball' & Hrun & _).
  - unfold centredBall, zero. vector_eval. cbn [gt lt].
    apply Rltb_false. lra.
  - eexists ball', _. split; [exact Hrun | reflexivity].
Defined.

End ResolutionClaims.

(** ** The integration step *)

Section Integration.

Import JS Physics Scenes.

(** The constructor gives a body of positive mass a finite inverse mass,
    its reciprocal, and it is not static. *)
Lemma newBody_positive_mass (x0 y0 r : num) (m : R) :
  0 < m ->
  inverseMass (value (newBody x0 y0 (Fin m) r)) = Fin (1 / m) /\
  isStatic (value (newBody x0 y0 (Fin m) r)) = false /\
  divisors (newBody x0 y0 (Fin m) r) = [Fin m].
Proof.
  intros Hm. unfold newBody. cbn [gt lt].
  rewrite (proj2 (Rltb_true 0 m) Hm).
  unfold quotient, andThen, ret, value, divisors. cbn [fst snd app div].
  rewrite (proj2 (Reqb_false m 0)) by lra. repeat split.
Qed.

(** [ballWith] is the ball of the constructor, moving. *)
Lemma ballWith_constructed (px py : R) :
  value (newBody (Fin px) (Fin py) (Fin 1) GAME_CONFIG.ballRadius) =
  ballWith px py 0 0 1.0.
Proof.
  unfold newBody. cbn [gt lt]. rewrite (proj2 (Rltb_true 0 1)) by lra.
  unfold quotient, andThen, ret, value, ballWith, zero, GAME_CONFIG.elasticity.
  cbn [fst div mul]. rewrite (proj2 (Reqb_false 1 0)) by lra.
  f_equal; f_equal; lra.
Qed.










End Integration.

(** * Further properties of the code *)

(** ** Construction of the network *)

Section Construction.

Import JS AI.

Lemma randomArray_spec (rand : nat -> R) (size k : nat) :
  validSource rand ->
  length (fst (randomArray rand size k)) = size /\
  within 0.1 (fst (randomArray rand size k)) /\
  snd (randomArray rand size k) = (k + size)%nat.
Proof.
  intros Hrand. revert k. induction size as [| size IH]; intros k.
  - cbn. repeat split; [constructor | lia].
  - cbn [randomArray]. specialize (IH (S k)).
    destruct (randomArray rand size (S k)) as [rest k'].
    cbn [fst snd] in *. destruct IH as (Hlen & Hin & Hk).
    repeat split; [cbn; lia | | lia].
    constructor; [| exact Hin].
    eexists. split; [reflexivity |].
    pose proof (Hrand k). apply Rabs_le. lra.
Qed.

Lemma randomRow_spec (rand : nat -> R) (rows cols k : nat) :
  validSource rand -> (0 < rows)%nat ->
  length (fst (randomRow rand rows cols k)) = cols /\
  within (R_sqrt.sqrt (2 / INR rows)) (fst (randomRow rand rows cols k)) /\
  snd (randomRow rand rows cols k) = (k + cols)%nat.
Proof.
  intros Hrand Hrows. revert k. induction cols as [| cols IH]; intros k.
  - cbn. repeat split; [constructor | lia].
  - cbn [randomRow]. specialize (IH (S k)).
    destruct (randomRow rand rows cols (S k)) as [rest k'].
    cbn [fst snd] in *. destruct IH as (Hlen & Hin & Hk).
    repeat split; [cbn; lia | | lia].
    constructor; [| exact Hin].
    assert (Hpos : 0 < INR rows) by (apply lt_0_INR; exact Hrows).
    assert (Hq : 0 < 2 / INR rows) by (apply Rdiv_lt_0_compat; lra).
    cbn [mul sub neg add div sqrt].
    rewrite (proj2 (Reqb_false (INR rows) 0)) by lra.
    replace (2.0 / INR rows) with (2 / INR rows) by lra.
    cbn [sqrt]. rewrite (proj2 (Rltb_false (2 / INR rows) 0)) by lra.
    cbn [mul]. eexists. split; [reflexivity |].
    pose proof (Hrand k) as Hu.
    pose proof (sqrt_pos (2 / INR rows)) as Hs.
    rewrite Rabs_mult, (Rabs_right (R_sqrt.sqrt _)) by lra.
    assert (Rabs (rand k * 2 + - (1)) <= 1) by (apply Rabs_le; lra).
    nra.
Qed.

Lemma randomRows_spec (rand : nat -> R) (rows cols n k : nat) :
  validSource rand -> (0 < rows)%nat ->
  length (fst (randomRows rand rows cols n k)) = n /\
  Forall (fun row => length row = cols /\
                     within (R_sqrt.sqrt (2 / INR rows)) row)
         (fst (randomRows rand rows cols n k)) /\
  snd (randomRows rand rows cols n k) = (k + n * cols)%nat.
Proof.
  intros Hrand Hrows. revert k. induction n as [| n IH]; intros k.
  - cbn. repeat split; [constructor | lia].
  - cbn [randomRows].
    destruct (randomRow_spec rand rows cols k Hrand Hrows) as (Hl & Hw & Hk).
    destruct (randomRow rand rows cols k) as [row k1]. cbn [fst snd] in *.
    specialize (IH k1).
    destruct (randomRows rand rows cols n k1) as [rest k2]. cbn [fst snd] in *.
    destruct IH as (Hlen & Hall & Hk2).
    repeat split; [cbn; lia | | lia].
    constructor; [split; assumption | exact Hall].
Qed.

Lemma within_finite (M : R) (l : list num) : within M l -> Forall finite l.
Proof.
  unfold within. intros H. eapply Forall_impl; [| exact H].
  intros v (x & -> & _). exact I.
Qed.

(** X1. For every source of random numbers between 0 and 1,
    [createNetwork()] builds a network of the three shapes 4x16, 16x8 and
    8x3 with finite entries, drawing 243 random numbers; every weight of a
    layer of [rows] inputs has magnitude at most the square root of
    [2 / rows] and every bias magnitude at most 0.1. *)
Theorem createNetwork_wellFormed (rand : nat -> R) (k : nat) :
  validSource rand ->
  wellFormed (fst (createNetwork rand k)) /\
  snd (createNetwork rand k) = (k + 243)%nat /\
  Forall (fun layer =>
            Forall (within (R_sqrt.sqrt (2 / INR (length (weights layer)))))
                   (weights layer) /\
            within 0.1 (biases layer))
         (fst (createNetwork rand k)).
Proof.
  intros Hrand. unfold createNetwork, randomMatrix.
  destruct (randomRows_spec rand 4 16 4 k Hrand ltac:(lia)) as (Hl0 & Hr0 & Hk0).
  destruct (randomRows rand 4 16 4 k) as [w0 k1]. cbn [fst snd] in *.
  destruct (randomArray_spec rand 16 k1 Hrand) as (Hbl0 & Hb0 & Hk1).
  destruct (randomArray rand 16 k1) as [b0 k2]. cbn [fst snd] in *.
  destruct (randomRows_spec rand 16 8 16 k2 Hrand ltac:(lia)) as (Hl1 & Hr1 & Hk2).
  destruct (randomRows rand 16 8 16 k2) as [w1 k3]. cbn [fst snd] in *.
  destruct (randomArray_spec rand 8 k3 Hrand) as (Hbl1 & Hb1 & Hk3).
  destruct (randomArray rand 8 k3) as [b1 k4]. cbn [fst snd] in *.
  destruct (randomRows_spec rand 8 3 8 k4 Hrand ltac:(lia)) as (Hl2 & Hr2 & Hk4).
  destruct (randomRows rand 8 3 8 k4) as [w2 k5]. cbn [fst snd] in *.
  destruct (randomArray_spec rand 3 k5 Hrand) as (Hbl2 & Hb2 & Hk5).
  destruct (randomArray rand 3 k5) as [b2 k6]. cbn [fst snd] in *.
  assert (Hshape : forall rows cols w b kind,
            length w = rows ->
            Forall (fun row => length row = cols /\
                               within (R_sqrt.sqrt (2 / INR rows)) row) w ->
            length b = cols -> within 0.1 b ->
            shaped rows cols kind
              {| weights := w; biases := b; activation := kind |}).
  { intros rows cols w b kind Hl Hr Hbl Hb.
    unfold shaped, wellShaped, allFinite. cbn [weights biases activation].
    repeat split; auto.
    - eapply Forall_impl; [| exact Hr]. intros row [H _]. exact H.
    - eapply Forall_impl; [| exact Hr]. intros row [_ H].
      exact (within_finite _ _ H).
    - exact (within_finite _ _ Hb). }
  split; [| split].
  - eexists _, _, _. split; [reflexivity |].
    split; [| split]; apply Hshape; auto.
  - lia.
  - repeat constructor; cbn [weights biases]; auto.
    + rewrite Hl0. eapply Forall_impl; [| exact Hr0]. intros row [_ H]. exact H.
    + rewrite Hl1. eapply Forall_impl; [| exact Hr1]. intros row [_ H]. exact H.
    + rewrite Hl2. eapply Forall_impl; [| exact Hr2]. intros row [_ H]. exact H.
Qed.

(** The source that always returns 0.5. *)
Lemma createNetwork_wellFormed_witness :
  validSource (fun _ => 0.5) /\
  wellFormed (fst (createNetwork (fun _ => 0.5) 0)) /\
  snd (createNetwork (fun _ => 0.5) 0) = 243%nat.
Proof.
  assert (H : validSource (fun _ => 0.5)) by (intros k; lra).
  split; [exact H |].
  destruct (createNetwork_wellFormed (fun _ => 0.5) 0 H) as (Hw & Hk & _).
  split; [exact Hw | exact Hk].
Defined.

End Construction.

(** ** Training keeps the network well formed *)

Section TrainingInvariant.

Import JS AI Runs.























End TrainingInvariant.

(** ** Outcomes of the matrix product and shape of the forward pass *)

Section ForwardStructure.

Import JS AI Runs.

(** X4. [matrixMultiply] throws in exactly two cases: the weight matrix
    has no row at all, or its first row is not empty and the input has more
    entries than the matrix has rows.  In every other case (also with rows
    of different lengths, a short input or missing biases) it returns a
    vector with as many entries as the first row of the matrix. *)
Theorem matrixMultiply_outcome (input : list num) (w : matrix) (b : list num) :
  (matrixMultiply input w b = TypeError <->
   w = [] \/ (nth 0 w [] <> [] /\ (length w < length input)%nat)) /\
  matrixMultiply input w b <> OutOfFuel /\
  (forall z, matrixMultiply input w b = Ok z -> length z = length (nth 0 w [])).
Proof.
  destruct w as [| row0 w'].
  - cbn. repeat split; try discriminate. intros _. left. reflexivity.
  - unfold matrixMultiply. cbn [nth].
    destruct (Nat.le_gt_cases (length input) (length (row0 :: w'))) as [Hle | Hgt].
    + destruct (mapM_ok
                  (fun j => columnSum (row0 :: w') j input 0 (get b j))
                  (fun _ _ => True) (List.seq 0 (length row0))) as (z & Hz & HF).
      { intros j _.
        destruct (columnSum_ok (row0 :: w') j input 0 (get b j)) as (v & Hv & _);
          [cbn [Nat.add]; exact Hle |].
        exists v. split; [exact Hv | exact I]. }
      rewrite Hz. repeat split; try discriminate.
      * intros [Hnil | [_ Hlt]]; [discriminate | lia].
      * intros z' Hz'. injection Hz' as <-.
        rewrite (Forall2_length_r _ _ _ HF). apply length_seq.
    + destruct row0 as [| a row0].
      * cbn [length List.seq mapM]. repeat split; try discriminate.
        -- intros [Hnil | [Hne _]]; [discriminate | congruence].
        -- intros z Hz. injection Hz as <-. reflexivity.
      * cbn [length List.seq mapM].
        rewrite columnSum_throws by (cbn [Nat.add]; lia). cbn [bind].
        repeat split; try discriminate.
        intros _. right. split; [discriminate | exact Hgt].
Qed.

Lemma forwardLayers_activations (layers : list Layer) :
  forall (act : list num) (acts : list (list num)) (f : Forward),
    forwardLayers layers act acts = Ok f ->
    last acts [] = act -> acts <> [] ->
    length (activations f) = (length acts + length layers)%nat /\
    firstn (length acts) (activations f) = acts /\
    last (activations f) [] = output f.
Proof.
  induction layers as [| layer rest IH]; intros act acts f Hf Hlast Hne.
  - cbn in Hf. injection Hf as <-. cbn [activations output length].
    rewrite Nat.add_0_r, firstn_all. auto.
  - cbn [forwardLayers] in Hf.
    destruct (matrixMultiply act (weights layer) (biases layer)) as [z | |];
      cbn [bind] in Hf; try discriminate.
    apply IH in Hf.
    + destruct Hf as (Hlen & Hfirst & Hout).
      rewrite length_app in Hlen, Hfirst. cbn [length] in *.
      split; [lia |]. split; [| exact Hout].
      apply (f_equal (firstn (length acts))) in Hfirst.
      rewrite firstn_firstn in Hfirst.
      replace (Nat.min (length acts) (length acts + 1)) with (length acts) in Hfirst by lia.
      rewrite Hfirst, firstn_app, firstn_all, Nat.sub_diag. cbn [firstn].
      apply app_nil_r.
    + apply last_last.
    + destruct acts; discriminate.
Qed.

(** X5. Whatever the network is (any number of layers, any shapes, any
    activation kinds), when [forwardPass] returns, [activations] holds one
    vector more than the network has layers: the first is the input itself
    and the last is the output returned with it.  So [updateWeights] finds
    [activations[l]] defined for every layer number [l]. *)
Theorem forwardPass_activations (net : Network) (inputs : list num) (f : Forward) :
  forwardPass net inputs = Ok f ->
  length (activations f) = S (length net) /\
  nth 0 (activations f) [] = inputs /\
  last (activations f) [] = output f /\
  (forall l, (l < length net)%nat -> nth_error (activations f) l <> None).
Proof.
  intros Hf. unfold forwardPass in Hf.
  apply forwardLayers_activations in Hf; [| reflexivity | discriminate].
  cbn [length] in Hf. destruct Hf as (Hlen & Hfirst & Hout).
  split; [exact Hlen |]. split; [| split; [exact Hout |]].
  - destruct (activations f) as [| a0 rest]; [discriminate |].
    cbn in Hfirst. injection Hfirst as ->. reflexivity.
  - intros l Hl. apply nth_error_Some. lia.
Qed.

(** The forward pass of [flatNet] on three numbers. *)
Lemma forwardPass_activations_witness :
  exists f,
    forwardPass flatNet [Fin 0.5; Fin 0; Fin 0.5] = Ok f /\
    length (activations f) = 4%nat /\
    nth 0 (activations f) [] = [Fin 0.5; Fin 0; Fin 0.5] /\
    last (activations f) [] = output f.
Proof.
  destruct (forwardPass_wellFormed flatNet [Fin 0.5; Fin 0; Fin 0.5]
              flatNet_wellFormed ltac:(cbn; lia)) as (a1 & a2 & out & Hfw & _).
  eexists. split; [exact Hfw |].
  destruct (forwardPass_activations flatNet _ _ Hfw) as (H1 & H2 & H3 & _).
  split; [exact H1 |]. split; [exact H2 | exact H3].
Defined.

End ForwardStructure.

(** ** The normalized exponential against its textbook form *)

Section SoftmaxTextbook.

Import JS AI.

Lemma fold_Rplus_scale (f : R -> R) (c : R) (rs : list R) (a : R) :
  fold_left Rplus (map (fun r => c * f r) rs) (c * a) =
  c * fold_left Rplus (map f rs) a.
Proof.
  revert a. induction rs as [| r rs IH]; intros a; cbn [map fold_left].
  - reflexivity.
  - rewrite <- IH. f_equal. ring.
Qed.

Lemma fold_Rplus_exp_pos (rs : list R) :
  rs <> [] -> 0 < fold_left Rplus (map Rtrigo_def.exp rs) 0.
Proof.
  destruct rs as [| r rs]; [congruence |]. intros _. cbn [map fold_left].
  pose proof (exp_pos r).
  eapply Rlt_le_trans; [| apply fold_Rplus_pos].
  - lra.
  - apply Forall_forall. intros e He. apply in_map_iff in He.
    destruct He as (v & <- & _). apply exp_pos.
Qed.

(** X6. On a non-empty list of finite numbers [softmax], which subtracts
    the largest entry before it exponentiates, returns exactly the textbook
    values [exp(r_i) / (exp(r_1) + ... + exp(r_n))]; so it keeps the strict
    order of its arguments: a larger logit gets a larger share. *)
Theorem softmax_textbook (rs : list R) :
  rs <> [] ->
  softmax (map Fin rs) =
    map (fun r => Fin (Rtrigo_def.exp r /
                       fold_left Rplus (map Rtrigo_def.exp rs) 0)) rs /\
  (forall i j, (i < length rs)%nat -> (j < length rs)%nat ->
     nth i rs 0 < nth j rs 0 ->
     lt (get (softmax (map Fin rs)) i) (get (softmax (map Fin rs)) j) = true).
Proof.
  intros Hne.
  pose proof (fold_Rplus_exp_pos rs Hne) as Hsum.
  set (S := fold_left Rplus (map Rtrigo_def.exp rs) 0) in *.
  assert (Heq : softmax (map Fin rs) =
                map (fun r => Fin (Rtrigo_def.exp r / S)) rs).
  { assert (Hmax : exists m, maxOf (map Fin rs) = Fin m).
    { destruct rs as [| r0 rs0]; [congruence |]. eexists. apply maxOf_Fin. }
    destruct Hmax as [m Hmax].
    unfold softmax. rewrite Hmax.
    rewrite !map_map. cbn [sub neg add exp].
    assert (Hexps : map (fun x => Fin (Rtrigo_def.exp (x + - m))) rs =
                    map Fin (map (fun r => Rtrigo_def.exp (- m) * Rtrigo_def.exp r) rs)).
    { rewrite map_map. apply map_ext. intros r. f_equal.
      rewrite <- exp_plus. f_equal. ring. }
    rewrite Hexps, fold_add_Fin.
    assert (Hscaled : fold_left Rplus
                        (map (fun r => Rtrigo_def.exp (- m) * Rtrigo_def.exp r) rs) 0
                      = Rtrigo_def.exp (- m) * S).
    { unfold S.
      rewrite <- (fold_Rplus_scale Rtrigo_def.exp (Rtrigo_def.exp (- m)) rs 0).
      f_equal. ring. }
    rewrite Hscaled.
    apply map_ext. intros r.
    pose proof (exp_pos (- m)) as Hm.
    cbn [div]. rewrite (proj2 (Reqb_false _ 0)) by nra.
    f_equal. rewrite exp_plus. field. split; lra. }
  split; [exact Heq |].
  intros i j Hi Hj Hlt. rewrite Heq.
  unfold get.
  rewrite (nth_indep _ NaN (Fin (Rtrigo_def.exp 0 / S))) by (rewrite length_map; exact Hi).
  rewrite (nth_indep _ NaN (Fin (Rtrigo_def.exp 0 / S)) (n := j)) by (rewrite length_map; exact Hj).
  rewrite !(map_nth (fun r => Fin (Rtrigo_def.exp r / S)) rs 0).
  cbn [lt]. apply Rltb_true.
  apply Rmult_lt_compat_r; [apply Rinv_0_lt_compat; exact Hsum |].
  apply exp_increasing. exact Hlt.
Qed.

(** The logits (0, 1, 3). *)
Lemma softmax_textbook_witness :
  lt (get (softmax (map Fin [0; 1; 3])) 0) (get (softmax (map Fin [0; 1; 3])) 2) = true.
Proof.
  apply (proj2 (softmax_textbook [0; 1; 3] ltac:(discriminate)) 0%nat 2%nat).
  - cbn. lia.
  - cbn. lia.
  - cbn. lra.
Defined.

End SoftmaxTextbook.

(** ** The predicted height and the decision *)

Section Prediction.

Import JS AI Runs.

(** The fold-back loop returns a mirror image of the height it was given:
    the height itself or its opposite, moved by an even number of canvas
    heights. *)
Lemma bounce_reflects (h : R) :
  0 < h ->
  forall (n fuel : nat) (y : R),
    (n <= fuel)%nat -> - INR n * h <= y <= (INR n + 1) * h ->
    exists r, bounce fuel (Fin y) (Fin h) = Ok (Fin r) /\ 0 <= r <= h /\
      exists k : Z, r = y + 2 * IZR k * h \/ r = - y + 2 * IZR k * h.
Proof.
  intros Hh. induction n as [| n IH]; intros fuel y Hfuel Hy.
  - cbn [INR] in Hy.
    exists y. split; [| split; [lra |]].
    + destruct fuel; cbn [bounce lt gt]; rdecide; reflexivity.
    + exists 0%Z. left. lra.
  - rewrite S_INR in Hy. pose proof (pos_INR n) as Hn.
    destruct fuel as [| fuel]; [lia |].
    cbn [bounce lt gt].
    destruct (Rlt_dec y 0) as [Hneg | Hnneg].
    + rewrite (proj2 (Rltb_true y 0) Hneg). cbn [orb neg].
      destruct (IH fuel (- y) ltac:(lia) ltac:(nra)) as (r & Hr & Hrange & k & Hk).
      exists r. split; [exact Hr |]. split; [exact Hrange |].
      exists k. destruct Hk as [Hk | Hk]; [right | left]; lra.
    + rewrite (proj2 (Rltb_false y 0)) by lra. cbn [orb].
      destruct (Rlt_dec h y) as [Hbig | Hin].
      * rewrite (proj2 (Rltb_true h y) Hbig). cbn [sub mul neg add].
        destruct (IH fuel (2 * h + - y) ltac:(lia) ltac:(nra))
          as (r & Hr & Hrange & k & Hk).
        exists r. split; [exact Hr |]. split; [exact Hrange |].
        destruct Hk as [Hk | Hk].
        -- exists (k + 1)%Z. right. rewrite plus_IZR. lra.
        -- exists (k - 1)%Z. left. rewrite minus_IZR. lra.
      * rewrite (proj2 (Rltb_false h y)) by lra.
        exists y. split; [reflexivity |]. split; [lra |].
        exists 0%Z. left. lra.
Qed.

(** X8. For a ball position, ball speeds, target and canvas height [h] of
    moderate size, with [speedX] not 0, [h] positive and a straight line to
    the target that stays within 1024 canvas heights
    ([|y| + |speedY| * |targetX - x| / |speedX| <= 1024 * h]), [predictBallY]
    returns after at most 1024 turns of its loop a height between 0 and [h]
    that is a mirror image of the straight-line height
    [y + speedY * |targetX - x| / |speedX|]: that height or its opposite,
    moved by an even multiple of [h]; a straight-line height already inside
    the canvas is returned as it is. *)
Theorem predictBallY_reflects (x y vx vy t : R) (canvasWidth : num) (h : R) :
  moderate (Fin x) -> moderate (Fin y) -> moderate (Fin vx) ->
  moderate (Fin vy) -> moderate (Fin t) -> moderate (Fin h) ->
  vx <> 0 -> 0 < h ->
  Rabs y + Rabs vy * (Rabs (t - x) / Rabs vx) <= 1024 * h ->
  let raw := y + vy * (Rabs (t - x) / Rabs vx) in
  forall fuel, (1024 <= fuel)%nat ->
    exists r,
      predictBallY fuel (mkBall (Fin x) (Fin y) (Fin vx) (Fin vy)) (Fin t)
        canvasWidth (Fin h) = Ok (Fin r) /\
      0 <= r <= h /\
      (exists k : Z, r = raw + 2 * IZR k * h \/ r = - raw + 2 * IZR k * h) /\
      (0 <= raw <= h -> r = raw).
Proof.
  intros _ _ _ _ _ _ Hvx Hh Hbound raw fuel Hfuel.
  destruct (straightLine_bound y vy _ h (timeToReach_nonneg x vx t) Hbound)
    as [Hraw _].
  fold raw in Hraw.
  destruct (bounce_reflects h Hh 1024 fuel raw Hfuel Hraw) as (r & Hr & Hrange & Hk).
  exists r. rewrite predictBallY_Fin by exact Hvx. fold raw.
  split; [exact Hr |]. split; [exact Hrange |]. split; [exact Hk |].
  intros Hin.
  assert (Hdirect : bounce fuel (Fin raw) (Fin h) = Ok (Fin raw)).
  { destruct fuel; cbn [bounce lt gt]; rdecide; reflexivity. }
  rewrite Hdirect in Hr. injection Hr as <-. reflexivity.
Qed.

(** The ball of the 800 by 400 canvas: the straight line reaches the paddle
    at height 428, which is folded back to 372. *)
Lemma predictBallY_reflects_witness :
  exists r,
    predictBallY 1024 incomingBall (Fin 780) (Fin 800) (Fin 400) = Ok (Fin r) /\
    0 <= r <= 400.
Proof.
  destruct (predictBallY_reflects 400 200 5 3 780 (Fin 800) 400)
    with (fuel := 1024%nat)
    as (r & Hr & Hrange & _); try moderate_num; try lra; try apply le_n.
  - rewrite !Rabs_right by lra. lra.
  - exists r. split; [exact Hr | exact Hrange].
Defined.

(** X9. The network can veto a move but never choose its direction: for
    the same ball, paddle and canvas, the actions [predict] returns with two
    different networks are equal, or one of them is 0 (stay).  When the ball
    moves away from the paddle ([speedX] not above 0) they are always
    equal. *)
Theorem predict_networks_agree (fuel1 fuel2 : nat) (net1 net2 : Network)
    (ball : Ball) (paddle : Paddle) (canvasWidth canvasHeight : num) (a1 a2 : Z) :
  predict fuel1 net1 ball paddle canvasWidth canvasHeight = Ok a1 ->
  predict fuel2 net2 ball paddle canvasWidth canvasHeight = Ok a2 ->
  (a1 = a2 \/ a1 = 0%Z \/ a2 = 0%Z) /\
  (gt (speedX ball) (Fin 0) = false -> a1 = a2).
Proof.
  unfold predict.
  destruct (forwardPass net1 _) as [f1 | |]; cbn [bind]; try discriminate.
  destruct (forwardPass net2 _) as [f2 | |]; cbn [bind]; try discriminate.
  assert (Hfuel : forall p1 p2,
            predictBallY fuel1 ball (paddle_x paddle) canvasWidth canvasHeight = Ok p1 ->
            predictBallY fuel2 ball (paddle_x paddle) canvasWidth canvasHeight = Ok p2 ->
            p1 = p2).
  { unfold predictBallY. generalize (add (ball_y ball)
      (mul (speedY ball)
         (div (abs (sub (paddle_x paddle) (ball_x ball))) (abs (speedX ball))))).
    clear. revert fuel2.
    induction fuel1 as [| fuel1 IH]; intros fuel2 y p1 p2 H1 H2.
    - cbn [bounce] in H1.
      destruct (lt y (Fin 0) || gt y canvasHeight) eqn:Hout; [discriminate |].
      injection H1 as <-.
      destruct fuel2; cbn [bounce] in H2; rewrite Hout in H2; congruence.
    - cbn [bounce] in H1.
      destruct (lt y (Fin 0) || gt y canvasHeight) eqn:Hout.
      + destruct fuel2 as [| fuel2]; cbn [bounce] in H2; rewrite Hout in H2;
          [discriminate |].
        destruct (lt y (Fin 0)); [exact (IH _ _ _ _ H1 H2) |].
        destruct (gt y canvasHeight); exact (IH _ _ _ _ H1 H2).
      + injection H1 as <-.
        destruct fuel2; cbn [bounce] in H2; rewrite Hout in H2; congruence. }
  destruct (predictBallY fuel1 ball _ _ _) as [p1 | |]; cbn [bind]; try discriminate.
  destruct (predictBallY fuel2 ball _ _ _) as [p2 | |]; cbn [bind]; try discriminate.
  rewrite <- (Hfuel p1 p2 eq_refl eq_refl).
  destruct (gt (speedX ball) (Fin 0)).
  - repeat match goal with
           | |- context [if ?b then _ else _] => destruct b
           end;
      intros H1 H2; injection H1 as <-; injection H2 as <-;
      (split; [auto | discriminate]).
  - repeat match goal with
           | |- context [if ?b then _ else _] => destruct b
           end;
      intros H1 H2; injection H1 as <-; injection H2 as <-;
      (split; [auto | reflexivity]).
Qed.

(** A ball at (400, 100) with speeds (5, 3) and a paddle at (20, 0): the
    paddle has to move down; [flatNet] vetoes the move, the network without
    layers, whose output is its input, lets it through. *)
Lemma predict_networks_agree_witness :
  predict 0 flatNet (mkBall (Fin 400) (Fin 100) (Fin 5) (Fin 3))
    (mkPaddle (Fin 20) (Fin 0) (Fin 80)) (Fin 800) (Fin 400) = Ok 0%Z /\
  predict 0 [] (mkBall (Fin 400) (Fin 100) (Fin 5) (Fin 3))
    (mkPaddle (Fin 20) (Fin 0) (Fin 80)) (Fin 800) (Fin 400) = Ok 1%Z /\
  (0%Z = 1%Z \/ 0%Z = 0%Z \/ 1%Z = 0%Z).
Proof.
  set (ball := mkBall (Fin 400) (Fin 100) (Fin 5) (Fin 3)).
  set (paddle := mkPaddle (Fin 20) (Fin 0) (Fin 80)).
  assert (Hin : normalizeInputs ball paddle (Fin 800) (Fin 400) =
                [Fin (100 / 400); Fin (3 / 10); Fin ((400 + - (20)) / 800);
                 Fin (0 / 400)]).
  { unfold normalizeInputs, ball, paddle.
    cbn [ball_x ball_y speedX speedY paddle_x paddle_y sub neg add div].
    rdecide. reflexivity. }
  assert (Hpy : predictBallY 0 ball (paddle_x paddle) (Fin 800) (Fin 400) =
                Ok (Fin (100 + 3 * (380 / 5)))).
  { unfold predictBallY, ball, paddle.
    cbn [ball_x ball_y speedX speedY paddle_x sub neg add abs div].
    rewrite (Rabs_left (20 + - (400))), (Rabs_right 5) by lra.
    rdecide. cbn [mul add bounce lt gt]. rdecide. cbn [orb].
    do 2 f_equal. lra. }
  assert (Hdiff : sub (sub (Fin (100 + 3 * (380 / 5))) (div (height paddle) (Fin 2)))
                      (paddle_y paddle) = Fin 288).
  { unfold paddle. cbn [height paddle_y div]. rdecide.
    cbn [sub neg add]. f_equal. lra. }
  assert (H1 : predict 0 flatNet ball paddle (Fin 800) (Fin 400) = Ok 0%Z).
  { unfold predict. rewrite Hin.
    rewrite flatNet_forward by (repeat constructor; cbn; lia).
    cbn [bind output]. rewrite Hpy. cbn [bind]. rewrite Hdiff.
    unfold ball. cbn [speedX gt lt abs repeat get nth]. rdecide.
    - exfalso. rewrite Rabs_right in Hlt0 by lra. lra.
    - reflexivity. }
  assert (H2 : predict 0 [] ball paddle (Fin 800) (Fin 400) = Ok 1%Z).
  { unfold predict. rewrite Hin. unfold forwardPass. cbn [forwardLayers bind output].
    rewrite Hpy. cbn [bind]. rewrite Hdiff.
    unfold ball. cbn [speedX gt lt abs get nth]. rdecide.
    - exfalso. rewrite Rabs_right in Hlt0 by lra. lra.
    - reflexivity. }
  split; [exact H1 |]. split; [exact H2 |].
  exact (proj1 (predict_networks_agree 0 0 flatNet [] ball paddle (Fin 800) (Fin 400)
                  0%Z 1%Z H1 H2)).
Defined.

End Prediction.

(** ** The paddle and the ball of the game *)

Section GameObjects.

Import JS AI Runs.

(** [Paddle.update] on finite numbers, as one expression. *)
Lemma paddle_update_Fin (p : PaddleJs.t) (y0 v h H : R) :
  PaddleJs.y p = Fin y0 -> PaddleJs.velocity p = Fin v ->
  PaddleJs.height p = Fin h ->
  PaddleJs.update p (Fin H) =
  PaddleJs.withY p
    (Fin (if Rltb (y0 + v) 0
          then (if Rltb H (0 + h) then H + - h else 0)
          else (if Rltb H (y0 + v + h) then H + - h else y0 + v))).
Proof.
  intros Hy Hv Hh. unfold PaddleJs.update. rewrite Hy, Hv, Hh.
  cbn [add lt gt sub neg].
  destruct (Rltb (y0 + v) 0); cbn [add lt].
  - destruct (Rltb H (0 + h)); reflexivity.
  - destruct (Rltb H (y0 + v + h)); reflexivity.
Qed.

(** Splits on the real comparisons of the goal and turns each outcome into
    an inequality among the hypotheses. *)
Ltac rcases :=
  repeat match goal with
         | |- context [Rltb ?a ?b] =>
             let H := fresh "Hcmp" in
             destruct (Rltb a b) eqn:H;
             [apply Rltb_true in H | apply Rltb_false in H]
         end.

(** X10. [Paddle.update] keeps a paddle that fits the canvas inside it:
    with finite position, velocity and height [h] and a canvas height [H]
    of at least [h], the new [y] is between 0 and [H - h]; it is
    [y + velocity] when that is in this range, and a paddle that was in
    range moves by at most the magnitude of its velocity.  No other field
    changes.  A paddle taller than the canvas ends at [H - h], above the
    top edge. *)
Theorem paddle_update_in_canvas (p : PaddleJs.t) (y0 v h H : R) :
  PaddleJs.y p = Fin y0 -> PaddleJs.velocity p = Fin v ->
  PaddleJs.height p = Fin h ->
  exists y1,
    PaddleJs.update p (Fin H) = PaddleJs.withY p (Fin y1) /\
    (h <= H -> 0 <= y1 <= H - h /\
               (0 <= y0 + v <= H - h -> y1 = y0 + v) /\
               (0 <= y0 <= H - h -> Rabs (y1 - y0) <= Rabs v)) /\
    (H < h -> y1 = H - h).
Proof.
  intros Hy Hv Hh. rewrite (paddle_update_Fin p y0 v h H Hy Hv Hh).
  eexists. split; [reflexivity |].
  rcases; (split; [intros Hle; split; [| split] | intros Hlt]);
    intros; try lra;
    unfold Rabs;
    repeat match goal with
           | |- context [Rcase_abs ?a] => destruct (Rcase_abs a)
           end; lra.
Qed.

(** The paddle of the controller 3 above the lower edge of a canvas of
    height 400, moving down at speed 5. *)
Lemma paddle_update_in_canvas_witness :
  exists y1,
    PaddleJs.update
      (PaddleJs.withVelocity (PaddleJs.new (Fin 770) (Fin 317) true) (Fin 5))
      (Fin 400)
    = PaddleJs.withY
        (PaddleJs.withVelocity (PaddleJs.new (Fin 770) (Fin 317) true) (Fin 5))
        (Fin y1) /\
    0 <= y1 <= 400 - 80.
Proof.
  destruct (paddle_update_in_canvas
              (PaddleJs.withVelocity (PaddleJs.new (Fin 770) (Fin 317) true) (Fin 5))
              317 5 80 400 eq_refl eq_refl eq_refl) as (y1 & Hrun & Hfit & _).
  exists y1. split; [exact Hrun |]. apply Hfit. lra.
Defined.

(** X11. One tick of the controller in [Game.update].  With a well-formed
    network, a buffer capacity of 1 or more, numbers of moderate size, a
    ball whose [speedX] is not 0 and whose straight line to the paddle
    stays within 1024 canvas heights, a canvas of positive height [H] and a
    paddle of height [h] and speed [s] (not negative) that sits inside the
    canvas, the tick returns, within 1024 turns of the loop of
    [predictBallY]: the velocity of the paddle is [-s], 0 or [s], the paddle
    moves by at most [s] and is still inside the canvas, and the decision
    taken is the newest sample of the training buffer. *)
Theorem aiTick_moves_paddle (c : Controller) (ball : BallJs.t) (p : PaddleJs.t)
    (canvasWidth : num) (x y vx vy t y0 h s H : R) :
  wellFormed (network c) -> (0 < maxTrainingData c)%nat ->
  BallJs.x ball = Fin x -> BallJs.y ball = Fin y ->
  BallJs.speedX ball = Fin vx -> BallJs.speedY ball = Fin vy ->
  PaddleJs.x p = Fin t -> PaddleJs.y p = Fin y0 ->
  PaddleJs.height p = Fin h -> PaddleJs.speed p = Fin s ->
  moderate (Fin x) -> moderate (Fin y) -> moderate (Fin vx) ->
  moderate (Fin vy) -> moderate (Fin t) -> moderate (Fin y0) ->
  moderate (Fin h) -> moderate (Fin s) -> moderate (Fin H) ->
  vx <> 0 -> 0 <= s -> 0 < H -> 0 <= y0 <= H - h ->
  Rabs y + Rabs vy * (Rabs (t - x) / Rabs vx) <= 1024 * H ->
  forall fuel, (1024 <= fuel)%nat ->
    exists c' p' a y1,
      GameJs.aiTick fuel c ball p canvasWidth (Fin H) = Ok (c', p') /\
      (a = (-1)%Z \/ a = 0%Z \/ a = 1%Z) /\
      PaddleJs.velocity p' = Fin (IZR a * s) /\
      PaddleJs.y p' = Fin y1 /\ 0 <= y1 <= H - h /\ Rabs (y1 - y0) <= s /\
      last (trainingData c') (mkSample [] []) =
        sampleOf (BallJs.view ball) (PaddleJs.view p) canvasWidth (Fin H) a.
Proof.
  intros Hnet Hcap Ex Ey Evx Evy Et Hy Hh Hs _ _ _ _ _ _ _ _ _
    Hvx Hs0 HH Hin Hbound fuel Hfuel.
  assert (Hpred : exists a,
            predict fuel (network c) (BallJs.view ball) (PaddleJs.view p)
              canvasWidth (Fin H) = Ok a /\
            (a = (-1)%Z \/ a = 0%Z \/ a = 1%Z)).
  { destruct (predict_follows fuel (network c) (BallJs.view ball) (PaddleJs.view p)
                canvasWidth (Fin H) Hnet) as [Hret _].
    destruct (predictBallY_within x y vx vy t H canvasWidth fuel Hvx Hbound Hfuel)
      as (r & Hr & _).
    apply (Hret (Fin r)). unfold BallJs.view, PaddleJs.view. cbn [paddle_x].
    rewrite Ex, Ey, Evx, Evy, Et. exact Hr. }
  destruct Hpred as (a & Ha & Hrange).
  unfold GameJs.aiTick. rewrite Ha. cbn [bind]. rewrite Hs. cbn [mul].
  set (p1 := PaddleJs.withVelocity p (Fin (IZR a * s))).
  rewrite (paddle_update_Fin p1 y0 (IZR a * s) h H Hy eq_refl Hh).
  assert (Habs : Rabs (IZR a * s) <= s).
  { destruct Hrange as [-> | [-> | ->]].
    - replace (IZR (-1) * s) with (- s) by (cbn; ring).
      rewrite Rabs_Ropp, Rabs_right; lra.
    - rewrite Rmult_0_l, Rabs_R0. exact Hs0.
    - rewrite Rmult_1_l, Rabs_right; lra. }
  eexists _, _, a, _. split; [reflexivity |].
  split; [exact Hrange |].
  split; [reflexivity |]. split; [reflexivity |].
  split; [| split].
  - rcases; lra.
  - revert Habs. unfold Rabs.
    rcases;
      repeat match goal with
             | |- context [Rcase_abs ?a] => destruct (Rcase_abs a)
             end; lra.
  - unfold recordDecision. cbn [trainingData].
    set (z := sampleOf _ _ _ _ _).
    replace (sampleOf (BallJs.view ball) (PaddleJs.view p) canvasWidth (Fin H) a)
      with z by reflexivity.
    destruct (maxTrainingData c <? length (trainingData c ++ [z]))%nat eqn:Hfull.
    + destruct (trainingData c) as [| z0 l]; cbn [app tl].
      * apply Nat.ltb_lt in Hfull. cbn in Hfull. lia.
      * apply last_last.
    + apply last_last.
Qed.

(** A new controller on [flatNet], the ball in the middle of the 800 by
    400 canvas flying right, the paddle at height 160. *)
Lemma aiTick_moves_paddle_witness :
  exists c' p' y1,
    GameJs.aiTick 1024 (newController flatNet)
      (BallJs.mk (Fin 800) (Fin 400) (Fin 8) [] (Fin 400) (Fin 200) (Fin 5)
         (Fin 3) (Fin 0) BallJs.coherent)
      (PaddleJs.new (Fin 770) (Fin 160) true) (Fin 800) (Fin 400)
    = Ok (c', p') /\
    PaddleJs.y p' = Fin y1 /\ 0 <= y1 <= 400 - 80 /\ Rabs (y1 - 160) <= 5.
Proof.
  destruct (aiTick_moves_paddle (newController flatNet)
              (BallJs.mk (Fin 800) (Fin 400) (Fin 8) [] (Fin 400) (Fin 200) (Fin 5)
                 (Fin 3) (Fin 0) BallJs.coherent)
              (PaddleJs.new (Fin 770) (Fin 160) true) (Fin 800)
              400 200 5 3 770 160 80 5 400)
    with (fuel := 1024%nat)
    as (c' & p' & a & y1 & Hrun & _ & _ & Hy & Hin & Hmove & _);
    try reflexivity; try moderate_num; try lra; try apply le_n.
  - exact flatNet_wellFormed.
  - cbn. lia.
  - rewrite !Rabs_right by lra. lra.
  - exists c', p', y1. repeat split; try assumption; lra.
Defined.

End GameObjects.

(** ** The ball in play *)

Section BallInPlay.

Import JS AI Runs.

(** Splits [inPlay] into its eight parts. *)
Ltac inPlay_parts :=
  unfold BallJs.inPlay;
  cbn [BallJs.canvasWidth BallJs.canvasHeight BallJs.radius BallJs.x BallJs.y
       BallJs.speedX BallJs.speedY BallJs.uncertainty];
  refine (conj _ (conj _ (conj _ (conj _ (conj _ (conj _ (conj _ _))))))).

Lemma reset_inPlay (b : BallJs.t) (r1 r2 : R) :
  finite (BallJs.canvasWidth b) -> finite (BallJs.canvasHeight b) ->
  finite (BallJs.radius b) ->
  BallJs.inPlay (BallJs.reset b r1 r2).
Proof.
  intros Hw Hh Hr.
  destruct (finite_inv _ Hw) as [w Ew]. destruct (finite_inv _ Hh) as [h Eh].
  unfold BallJs.reset. inPlay_parts; rewrite ?Ew, ?Eh;
    cbn [div gt lt sub neg add mul];
    rewrite ?(proj2 (Reqb_false 2 0)) by lra; try exact I; try assumption.
  - destruct (Rltb 0.5 r1); cbn [mul]; eexists; (split; [reflexivity |]).
    + rewrite Rabs_right; lra.
    + rewrite Rabs_left; lra.
  - exists 0. split; [reflexivity | lra].
Qed.

Lemma quantumCollapse_inPlay (b : BallJs.t) (u : R) :
  finite (BallJs.canvasWidth b) -> finite (BallJs.canvasHeight b) ->
  finite (BallJs.radius b) -> finite (BallJs.x b) -> finite (BallJs.y b) ->
  finite (BallJs.speedY b) ->
  (exists vx, BallJs.speedX b = Fin vx /\ 5 <= Rabs vx) ->
  BallJs.uncertainty b = Fin u ->
  BallJs.inPlay (BallJs.quantumCollapse b).
Proof.
  intros Hw Hh Hr Hx Hy Hsy Hsx Hu.
  unfold BallJs.quantumCollapse. inPlay_parts; try assumption.
  rewrite Hu. cbn [sub neg add max].
  eexists. split; [reflexivity | apply Rmax_l].
Qed.

Lemma update_inPlay (b : BallJs.t) (q : bool) (u1 u2 : R)
    (ghosts : list BallJs.Ghost) :
  BallJs.inPlay b -> BallJs.inPlay (BallJs.update b q u1 u2 ghosts).
Proof.
  intros (Hw & Hh & Hr & Hx & Hy & Hsy & (vx & Hvx & Hfast) & (u & Hu & Hu0)).
  destruct (finite_inv _ Hx) as [x Ex]. destruct (finite_inv _ Hy) as [y Ey].
  destruct (finite_inv _ Hsy) as [vy Evy].
  unfold BallJs.update. rewrite Ex, Ey, Evy, Hvx, Hu.
  match goal with
  | |- BallJs.inPlay (if ?c then _ else _) => destruct c
  end.
  - apply (quantumCollapse_inPlay _ u);
      cbn [BallJs.canvasWidth BallJs.canvasHeight BallJs.radius BallJs.x
           BallJs.y BallJs.speedX BallJs.speedY BallJs.uncertainty];
      try assumption; try reflexivity;
      try (destruct q; exact I).
    exists vx. split; [reflexivity | exact Hfast].
  - inPlay_parts; try assumption; try (destruct q; exact I).
    + exists vx. split; [reflexivity | exact Hfast].
    + exists u. split; [reflexivity | exact Hu0].
Qed.

(** What a paddle hit does to a finite ball, whatever the paddle is. *)
Lemma hit_speeds (b : BallJs.t) (paddle : PaddleJs.t) (y vx : R) :
  BallJs.y b = Fin y -> BallJs.speedX b = Fin vx ->
  gt (BallJs.y b) (PaddleJs.y paddle) = true ->
  lt (BallJs.y b) (add (PaddleJs.y paddle) (PaddleJs.height paddle)) = true ->
  mul (neg (BallJs.speedX b)) (Fin 1.05) = Fin (- vx * 1.05) /\
  exists vy,
    mul (sub (div (sub (BallJs.y b) (PaddleJs.y paddle)) (PaddleJs.height paddle))
             (Fin 0.5)) (Fin 10) = Fin vy /\
    -5 <= vy < 5 /\
    (finite (PaddleJs.height paddle) -> -5 < vy).
Proof.
  intros Ey Evx Habove Hbelow. rewrite Ey, Evx in *.
  split; [reflexivity |].
  destruct (PaddleJs.y paddle) as [py | | |], (PaddleJs.height paddle) as [ph | | |];
    cbn [gt lt add] in Habove, Hbelow; try discriminate.
  - apply Rltb_true in Habove, Hbelow.
    cbn [sub neg add div]. rewrite (proj2 (Reqb_false ph 0)) by lra.
    cbn [add mul]. eexists. split; [reflexivity |].
    assert (Hpos : 0 < ph) by lra.
    assert (Hq : 0 < (y + - py) / ph < 1).
    { split.
      - apply Rdiv_lt_0_compat; lra.
      - apply (Rmult_lt_reg_r ph); [exact Hpos |].
        unfold Rdiv. rewrite Rmult_assoc, Rinv_l by lra. lra. }
    split; [lra |]. intros _. lra.
  - cbn [sub neg add div mul]. eexists. split; [reflexivity |].
    split; [lra |]. intros [].
Qed.

Lemma collide_inPlay (b : BallJs.t) (paddle : PaddleJs.t) (q : bool) (r : R) :
  BallJs.inPlay b ->
  BallJs.inPlay (fst (BallJs.checkPaddleCollision b paddle q r)).
Proof.
  intros Hb. unfold BallJs.checkPaddleCollision.
  destruct (q && lt (Fin r) (Fin 0.05)); [exact Hb |].
  match goal with
  | |- BallJs.inPlay (fst (if ?c then _ else _)) => destruct c eqn:Hhit
  end; [| exact Hb].
  apply andb_prop in Hhit. destruct Hhit as [Hhit Hbelow].
  apply andb_prop in Hhit. destruct Hhit as [_ Habove].
  destruct Hb as (Hw & Hh & Hr & Hx & Hy & Hsy & (vx & Hvx & Hfast) & (u & Hu & Hu0)).
  destruct (finite_inv _ Hy) as [y Ey].
  destruct (hit_speeds b paddle y vx Ey Hvx Habove Hbelow) as (Hsx' & vy & Hsy' & _).
  cbn [fst]. apply (quantumCollapse_inPlay _ (u + 2));
    cbn [BallJs.canvasWidth BallJs.canvasHeight BallJs.radius BallJs.x
         BallJs.y BallJs.speedX BallJs.speedY BallJs.uncertainty];
    try assumption.
  - rewrite Hsy'. exact I.
  - rewrite Hsx'. eexists. split; [reflexivity |].
    rewrite Rabs_mult, Rabs_Ropp, (Rabs_right 1.05) by lra.
    pose proof (Rabs_pos vx). lra.
  - rewrite Hu. reflexivity.
Qed.

Lemma applyEvent_inPlay (b : BallJs.t) (e : GameJs.BallEvent) :
  BallJs.inPlay b -> BallJs.inPlay (GameJs.applyEvent b e).
Proof.
  intros Hb. destruct e as [r1 r2 | q u1 u2 ghosts | paddle q r | | |];
    cbn [GameJs.applyEvent].
  - destruct Hb as (Hw & Hh & Hr & _). apply reset_inPlay; assumption.
  - apply update_inPlay. exact Hb.
  - apply collide_inPlay. exact Hb.
  - destruct Hb as (Hw & Hh & Hr & Hx & Hy & Hsy & Hsx & _).
    unfold GameJs.triggerUncertainty. inPlay_parts; try assumption.
    exists 10. split; [reflexivity | lra].
  - destruct Hb as (Hw & Hh & Hr & Hx & Hy & Hsy & (vx & Hvx & Hfast) & Hu).
    destruct (finite_inv _ Hsy) as [vy Evy].
    unfold GameJs.triggerEntanglement.
    inPlay_parts; rewrite ?Hvx, ?Evy; cbn [neg]; try assumption; try exact I.
    exists (- vx). split; [reflexivity | rewrite Rabs_Ropp; exact Hfast].
  - destruct Hb as (Hw & Hh & Hr & Hx & Hy & Hsy & Hsx & Hu).
    destruct (finite_inv _ Hsy) as [vy Evy].
    unfold GameJs.antigravity.
    inPlay_parts; rewrite ?Evy; cbn [neg mul]; try assumption; exact I.
Qed.

Lemma run_inPlay (es : list GameJs.BallEvent) :
  forall b, BallJs.inPlay b -> BallJs.inPlay (GameJs.run b es).
Proof.
  unfold GameJs.run. induction es as [| e es IH]; intros b Hb; cbn [fold_left].
  - exact Hb.
  - apply IH. apply applyEvent_inPlay. exact Hb.
Qed.

Lemma new_inPlay (w h r1 r2 : R) :
  BallJs.inPlay (BallJs.new (Fin w) (Fin h) r1 r2).
Proof. unfold BallJs.new. apply reset_inPlay; exact I. Qed.

(** X12. The horizontal speed of the ball never vanishes.  A ball
    constructed on a canvas with finite sides and then taken through any
    sequence of resets, updates, paddle collisions (with any paddle at
    all) and quantum or glitch events, whatever the random numbers drawn,
    has a horizontal speed whose magnitude is 5 or more, so neither 0 nor
    [NaN], and an uncertainty that is a number not below 0.  The divisor
    [|speedX|] of [predictBallY] is therefore never 0 for the ball of the
    game. *)
Theorem ball_never_stalls (w h r1 r2 : R) (es : list GameJs.BallEvent) :
  let ball := GameJs.run (BallJs.new (Fin w) (Fin h) r1 r2) es in
  le (Fin 5) (abs (BallJs.speedX ball)) = true /\
  strictEq (abs (BallJs.speedX ball)) (Fin 0) = false /\
  le (Fin 0) (BallJs.uncertainty ball) = true.
Proof.
  intros ball.
  assert (Hb : BallJs.inPlay ball) by (apply run_inPlay, new_inPlay).
  destruct Hb as (_ & _ & _ & _ & _ & _ & (vx & Hvx & Hfast) & (u & Hu & Hu0)).
  rewrite Hvx, Hu. cbn [abs le lt strictEq].
  split; [| split].
  - rewrite (proj2 (Rltb_false (Rabs vx) 5)) by lra. reflexivity.
  - apply Reqb_false. lra.
  - rewrite (proj2 (Rltb_false u 0)) by lra. reflexivity.
Qed.

(** X13. A paddle hit.  When [checkPaddleCollision] reports a hit on a
    ball with finite height and speed, the horizontal speed is reversed and
    1.05 times as large, the vertical speed is set from the point of
    impact to a value from -5 (included) to 5 (excluded), strictly above
    -5 when the height of the paddle is finite, the uncertainty goes up by
    2 and down by 1, never below 0, the position is untouched and the
    flux increase reported is 5. *)
Theorem paddle_hit_speeds (b b' : BallJs.t) (paddle : PaddleJs.t) (q : bool)
    (r : R) (h : BallJs.Hit) (y vx u : R) :
  BallJs.y b = Fin y -> BallJs.speedX b = Fin vx -> BallJs.uncertainty b = Fin u ->
  BallJs.checkPaddleCollision b paddle q r = (b', h) ->
  BallJs.hit h = true ->
  BallJs.speedX b' = Fin (- vx * 1.05) /\
  (exists vy, BallJs.speedY b' = Fin vy /\ -5 <= vy < 5 /\
              (finite (PaddleJs.height paddle) -> -5 < vy)) /\
  BallJs.uncertainty b' = Fin (Rmax 0 (u + 2 + - (1))) /\
  BallJs.x b' = BallJs.x b /\ BallJs.y b' = BallJs.y b /\
  h = BallJs.mkHit true (Some (Fin 5)) false.
Proof.
  intros Ey Evx Eu Hrun Hhit. unfold BallJs.checkPaddleCollision in Hrun.
  destruct (q && lt (Fin r) (Fin 0.05)).
  { injection Hrun as <- <-. discriminate. }
  match type of Hrun with
  | (if ?c then _ else _) = _ => destruct c eqn:Hcond
  end.
  2: { injection Hrun as <- <-. discriminate. }
  apply andb_prop in Hcond. destruct Hcond as [Hcond Hbelow].
  apply andb_prop in Hcond. destruct Hcond as [_ Habove].
  destruct (hit_speeds b paddle y vx Ey Evx Habove Hbelow) as (Hsx' & vy & Hsy' & Hvy).
  injection Hrun as <- <-.
  unfold BallJs.quantumCollapse.
  cbn [BallJs.x BallJs.y BallJs.speedX BallJs.speedY BallJs.uncertainty].
  rewrite Hsx', Hsy', Eu. cbn [add sub neg max].
  split; [reflexivity |]. split; [exists vy; split; [reflexivity | exact Hvy] |].
  repeat split.
Qed.

(** The ball 20 below the top of a paddle of height 80. *)
Lemma paddle_hit_speeds_witness :
  exists b' vy,
    fst (BallJs.checkPaddleCollision
           (BallJs.mk (Fin 800) (Fin 400) (Fin 8) [] (Fin 775) (Fin 180) (Fin 5)
              (Fin 3) (Fin 0) BallJs.coherent)
           (PaddleJs.new (Fin 770) (Fin 160) true) false 0) = b' /\
    BallJs.speedX b' = Fin (- (5) * 1.05) /\
    BallJs.speedY b' = Fin vy /\ -5 < vy < 5.
Proof.
  set (b := BallJs.mk (Fin 800) (Fin 400) (Fin 8) [] (Fin 775) (Fin 180) (Fin 5)
              (Fin 3) (Fin 0) BallJs.coherent).
  set (p := PaddleJs.new (Fin 770) (Fin 160) true).
  destruct (BallJs.checkPaddleCollision b p false 0) as [b' h] eqn:Hrun.
  assert (Hhit : BallJs.hit h = true).
  { unfold BallJs.checkPaddleCollision, b, p, PaddleJs.new in Hrun.
    cbn [andb BallJs.x BallJs.y BallJs.radius PaddleJs.x PaddleJs.y
         PaddleJs.width PaddleJs.height sub neg add lt gt] in Hrun.
    rewrite (proj2 (Rltb_true (775 + - (8)) (770 + 10))) in Hrun by lra.
    rewrite (proj2 (Rltb_true 770 (775 + 8))) in Hrun by lra.
    rewrite (proj2 (Rltb_true 160 180)) in Hrun by lra.
    rewrite (proj2 (Rltb_true 180 (160 + 80))) in Hrun by lra.
    cbn [andb] in Hrun. injection Hrun as _ <-. reflexivity. }
  destruct (paddle_hit_speeds b b' p false 0 h 180 5 0 eq_refl eq_refl eq_refl
              Hrun Hhit) as (Hsx & (vy & Hsy & Hvy & Hstrict) & _).
  exists b', vy. cbn [fst]. split; [reflexivity |].
  split; [exact Hsx |]. split; [exact Hsy |].
  split; [apply Hstrict; exact I | lra].
Defined.

End BallInPlay.

(** ** Two circles in contact *)

Section CircleCollision.

Import JS Physics Scenes.

Variables (x1 y1 x2 y2 u1 w1 u2 w2 i1 i2 e1 e2 r1 r2 : R).
Variables (m1 m2 : R).

(** The distance of the centres, the unit normal from [c2] to [c1], the
    relative velocity along it, the scale of the impulse and half the
    overlap. *)
Let dx := x1 + - x2.
Let dy := y1 + - y2.
Let d := R_sqrt.sqrt (dx * dx + dy * dy).
Let nx := dx / d.
Let ny := dy / d.
Let vn := (u1 + - u2) * nx + (w1 + - w2) * ny.
Let s := - (1 + Rmin e1 e2) * vn / (i1 + i2).
Let half := (r1 + r2 + - d) / 2.

(** [resolveCircleCircle] on finite numbers, for distinct centres that do
    not move apart and inverse masses whose sum is not 0. *)
Lemma resolveCircleCircle_Fin (c1 c2 : PhysicsBody) :
  Physics.placed c1 c2 x1 y1 x2 y2 u1 w1 u2 w2 i1 i2 e1 e2 r1 r2 ->
  d <> 0 -> i1 + i2 <> 0 -> vn <= 0 ->
  resolveCircleCircle c1 c2 =
  ((withPosition
      (withVelocity c1
         (Vector2D.mk (Fin (u1 + nx * s * i1)) (Fin (w1 + ny * s * i1))))
      (Vector2D.mk (Fin (x1 + nx * half)) (Fin (y1 + ny * half))),
    withPosition
      (withVelocity c2
         (Vector2D.mk (Fin (u2 + - (nx * s * i2))) (Fin (w2 + - (ny * s * i2)))))
      (Vector2D.mk (Fin (x2 + - (nx * half))) (Fin (y2 + - (ny * half))))),
   [Fin d; Fin d; Fin (i1 + i2); Fin 2]).
Proof.
  intros (Hp1 & Hp2 & Hv1 & Hv2 & Hi1 & Hi2 & He1 & He2 & Hr1 & Hr2) Hd Hi Hvn.
  assert (Hsq : Rltb (dx * dx + dy * dy) 0 = false)
    by (apply Rltb_false, sum_squares_nonneg).
  assert (Hd0 : Reqb d 0 = false) by (apply Reqb_false; exact Hd).
  assert (Hi0 : Reqb (i1 + i2) 0 = false) by (apply Reqb_false; exact Hi).
  assert (Hvn0 : Rltb 0 vn = false) by (apply Rltb_false; exact Hvn).
  assert (H2 : Reqb 2 0 = false) by (apply Reqb_false; lra).
  unfold s, half, vn, nx, ny, d, dx, dy in *.
  destruct c1, c2.
  cbn [position velocity inverseMass restitution radius] in *. subst.
  cbv - [Rplus Rmult Ropp Rinv Rdiv Rminus IZR Rltb Reqb Rmax Rmin Rabs
         R_sqrt.sqrt].
  rewrite Hsq. cbv beta iota. rewrite Hd0. cbv beta iota.
  rewrite Hvn0. cbv beta iota. rewrite Hi0. cbv beta iota.
  rewrite H2. cbv beta iota.
  reflexivity.
Qed.

Lemma normal_unit : d <> 0 -> nx * nx + ny * ny = 1.
Proof. intros Hd. apply unit_after_division. exact Hd. Qed.




(** X16. A resolved overlap is pushed apart until the circles touch.  When
    two balls of moderate size, no further from the origin than [2^20]
    times the sum of their radii, overlap ([checkCircleCircle]), have
    distinct centres and do not move apart, [checkBallBallCollision]
    resolves the contact: each ball is moved along the line of centres,
    away from the other, by half the overlap, which is positive, and the
    centres end at a distance of the sum of the radii. *)
Theorem checkBallBallCollision_separates (c1 c2 : PhysicsBody) :
  Physics.placed c1 c2 x1 y1 x2 y2 u1 w1 u2 w2 i1 i2 e1 e2 r1 r2 ->
  moderateBody c1 -> moderateBody c2 ->
  Rabs x1 <= 2 ^ 20 * (r1 + r2) -> Rabs y1 <= 2 ^ 20 * (r1 + r2) ->
  Rabs x2 <= 2 ^ 20 * (r1 + r2) -> Rabs y2 <= 2 ^ 20 * (r1 + r2) ->
  i1 + i2 <> 0 -> d <> 0 -> vn <= 0 ->
  checkCircleCircle (circleOf c1) (circleOf c2) = true ->
  let c1' := fst (value (checkBallBallCollision c1 c2)) in
  let c2' := snd (value (checkBallBallCollision c1 c2)) in
  0 < half /\
  position c1' = Vector2D.mk (Fin (x1 + nx * half)) (Fin (y1 + ny * half)) /\
  position c2' = Vector2D.mk (Fin (x2 + - (nx * half))) (Fin (y2 + - (ny * half))) /\
  exists dist,
    Vector2D.distanceTo (position c1') (position c2') = Fin dist /\
    dist = r1 + r2.
Proof.
  intros Hplaced _ _ Hx1 _ _ _ Hi Hd Hvn Hcheck c1' c2'.
  pose proof (normal_unit Hd) as Hunit.
  assert (Hsum : 0 <= r1 + r2).
  { pose proof (Rabs_pos x1). lra. }
  assert (Hover : 0 < half).
  { destruct Hplaced as (Hp1 & Hp2 & _ & _ & _ & _ & _ & _ & Hr1 & Hr2).
    unfold checkCircleCircle, circleOf in Hcheck.
    cbn [position radius circle_x circle_y circle_radius] in Hcheck.
    rewrite Hp1, Hp2, Hr1, Hr2 in Hcheck.
    cbn [Vector2D.x Vector2D.y sub neg add mul lt] in Hcheck.
    apply Rltb_true in Hcheck. fold dx dy in Hcheck.
    assert (Hd0 : 0 <= d) by apply sqrt_pos.
    assert (Hdd : d * d = dx * dx + dy * dy).
    { unfold d. apply sqrt_sqrt, sum_squares_nonneg. }
    assert (Hlt : d < r1 + r2) by nra.
    unfold half. lra. }
  subst c1' c2'. unfold checkBallBallCollision. rewrite Hcheck.
  rewrite (resolveCircleCircle_Fin c1 c2 Hplaced Hd Hi Hvn).
  unfold value. cbn [fst snd].
  unfold Vector2D.distanceTo.
  cbn [position radius withPosition withVelocity Vector2D.x Vector2D.y].
  cbn [Vector2D.x Vector2D.y sub neg add mul lt].
  assert (Hdx : dx = nx * d) by (unfold nx; field; exact Hd).
  assert (Hdy : dy = ny * d) by (unfold ny; field; exact Hd).
  assert (Hhalf : 2 * half = r1 + r2 - d) by (unfold half; field).
  assert (Hx : x1 + nx * half + - (x2 + - (nx * half)) = nx * (r1 + r2)).
  { replace (x1 + nx * half + - (x2 + - (nx * half)))
      with (dx + nx * (2 * half)) by (unfold dx; ring).
    rewrite Hhalf, Hdx at 1. ring. }
  assert (Hy : y1 + ny * half + - (y2 + - (ny * half)) = ny * (r1 + r2)).
  { replace (y1 + ny * half + - (y2 + - (ny * half)))
      with (dy + ny * (2 * half)) by (unfold dy; ring).
    rewrite Hhalf, Hdy at 1. ring. }
  rewrite Hx, Hy.
  assert (Hsq : nx * (r1 + r2) * (nx * (r1 + r2)) + ny * (r1 + r2) * (ny * (r1 + r2))
                = (r1 + r2) * (r1 + r2)).
  { replace (nx * (r1 + r2) * (nx * (r1 + r2)) + ny * (r1 + r2) * (ny * (r1 + r2)))
      with ((nx * nx + ny * ny) * ((r1 + r2) * (r1 + r2))) by ring.
    rewrite Hunit. ring. }
  rewrite Hsq.
  split; [exact Hover |]. split; [reflexivity |]. split; [reflexivity |].
  eexists. cbn [sqrt].
  rewrite (proj2 (Rltb_false _ 0)) by nra.
  split; [reflexivity |]. apply sqrt_square. exact Hsum.
Qed.

End CircleCollision.

(** ** The two closing balls *)

Section ClosingBalls.

Import JS Physics Scenes.

(** The centres of [closingRight] and [closingLeft] are 10 apart. *)
Lemma closing_distance :
  R_sqrt.sqrt ((100 + - (90)) * (100 + - (90)) + (100 + - (100)) * (100 + - (100)))
  = 10.
Proof.
  replace ((100 + - (90)) * (100 + - (90)) + (100 + - (100)) * (100 + - (100)))
    with (10 * 10) by ring.
  apply sqrt_square. lra.
Qed.

Lemma closing_placed :
  Physics.placed closingRight closingLeft 100 100 90 100 (-5) 0 5 0 1 1 1.0 1.0 8 8.
Proof. unfold Physics.placed. repeat split. Qed.

Lemma closing_overlap :
  checkCircleCircle (circleOf closingRight) (circleOf closingLeft) = true.
Proof.
  unfold checkCircleCircle, circleOf, closingRight, closingLeft, ballWith,
    GAME_CONFIG.ballRadius.
  cbn [position radius circle_x circle_y circle_radius Vector2D.x Vector2D.y
       sub neg add mul lt].
  apply Rltb_true. lra.
Qed.



Lemma closing_moderate :
  moderateBody closingRight /\ moderateBody closingLeft.
Proof.
  unfold moderateBody, Vector2D.moderate, closingRight, closingLeft, ballWith,
    zero, GAME_CONFIG.friction, GAME_CONFIG.ballRadius.
  cbn [position velocity force inverseMass friction restitution radius
       Vector2D.x Vector2D.y].
  repeat split; moderate_num.
Qed.

(** The two closing balls overlap by 6: afterwards their centres are 16
    apart. *)
Lemma checkBallBallCollision_separates_witness :
  checkCircleCircle (circleOf closingRight) (circleOf closingLeft) = true /\
  (exists dist,
     Vector2D.distanceTo
       (position (fst (value (checkBallBallCollision closingRight closingLeft))))
       (position (snd (value (checkBallBallCollision closingRight closingLeft))))
     = Fin dist /\ dist = 8 + 8).
Proof.
  destruct (checkBallBallCollision_separates 100 100 90 100 (-5) 0 5 0 1 1 1.0 1.0 8 8
              closingRight closingLeft closing_placed
              (proj1 closing_moderate) (proj2 closing_moderate))
    as (_ & _ & _ & Hdist);
    try (rewrite Rabs_right by lra; lra); try lra.
  - rewrite closing_distance. lra.
  - rewrite closing_distance. lra.
  - exact closing_overlap.
  - split; [exact closing_overlap | exact Hdist].
Defined.

End ClosingBalls.

(** ** Circle against rectangle *)

Section CircleRect.

Import JS Physics Scenes.







End CircleRect.

(** ** A ball against a rectangle at rest *)

Section StaticRect.

Import JS Physics Scenes.



End StaticRect.

(** ** Vectors: divisions and the speed limit *)

Section VectorLimit.

Import JS Physics.

(** X20. No vector operation divides by zero.  Whatever the vector and
    the scalar are (infinities and [NaN] included), every divisor that
    [divide], [normalize] and [limit] use is a number other than 0; and on
    a vector whose coordinates are of moderate size [normalize] returns a
    vector of magnitude 1, except for the zero vector, which it returns as
    it is. *)
Theorem vector_divisions_safe (a : Vector2D.t) (scalar max : num) :
  Forall (fun q => strictEq q (Fin 0) = false)
         (divisors (Vector2D.divide a scalar)) /\
  Forall (fun q => strictEq q (Fin 0) = false)
         (divisors (Vector2D.normalize a)) /\
  Forall (fun q => strictEq q (Fin 0) = false)
         (divisors (Vector2D.limit a max)) /\
  (Vector2D.moderate a ->
   (a <> Vector2D.mk (Fin 0) (Fin 0) /\
    Vector2D.magnitude (value (Vector2D.normalize a)) = Fin 1) \/
   (a = Vector2D.mk (Fin 0) (Fin 0) /\
    value (Vector2D.normalize a) = Vector2D.mk (Fin 0) (Fin 0))).
Proof.
  assert (Hdiv : forall v q,
            Forall (fun q => strictEq q (Fin 0) = false)
                   (divisors (Vector2D.divide v q))).
  { intros v q. unfold Vector2D.divide.
    destruct (strictEq q (Fin 0)) eqn:Hq.
    - constructor.
    - unfold quotient, andThen, ret, divisors. cbn [snd app].
      repeat constructor; exact Hq. }
  assert (Hnorm : forall v,
            Forall (fun q => strictEq q (Fin 0) = false)
                   (divisors (Vector2D.normalize v))).
  { intros v. unfold Vector2D.normalize.
    destruct (strictEq (Vector2D.magnitude v) (Fin 0)); [constructor | apply Hdiv]. }
  split; [apply Hdiv |]. split; [apply Hnorm |]. split.
  - unfold Vector2D.limit. destruct (gt (Vector2D.magnitude a) max).
    + pose proof (Hnorm a) as H. unfold divisors, andThen, ret in *.
      destruct (Vector2D.normalize a) as [n log]. cbn [snd] in *.
      rewrite app_nil_r. exact H.
    + constructor.
  - intros Hmod.
    assert (Hfin : Vector2D.finite a).
    { destruct Hmod as [Hx Hy].
      split; [destruct (Vector2D.x a) | destruct (Vector2D.y a)];
        cbn [moderate finite] in *; try contradiction; exact I. }
    destruct (finite_vector_inv _ Hfin) as (x & y & ->).
    rewrite normalize_Fin. cbv zeta.
    destruct (Reqb (R_sqrt.sqrt (x * x + y * y)) 0) eqn:Hm.
    + right. apply Reqb_true in Hm.
      apply sqrt_eq_0 in Hm; [| apply sum_squares_nonneg].
      assert (x = 0) by nra. assert (y = 0) by nra. subst.
      split; reflexivity.
    + left. apply Reqb_false in Hm. split.
      * intros Heq. injection Heq as -> ->. apply Hm.
        replace (0 * 0 + 0 * 0) with 0 by ring. apply sqrt_0.
      * unfold value. cbn [fst]. rewrite magnitude_Fin.
        rewrite unit_after_division by exact Hm. rewrite sqrt_1. reflexivity.
Qed.

(** The vector (3, 4) is turned into the unit vector (3/5, 4/5). *)
Lemma vector_divisions_safe_witness :
  Vector2D.moderate (Vector2D.mk (Fin 3) (Fin 4)) /\
  Vector2D.magnitude (value (Vector2D.normalize (Vector2D.mk (Fin 3) (Fin 4))))
  = Fin 1.
Proof.
  assert (Hmod : Vector2D.moderate (Vector2D.mk (Fin 3) (Fin 4))).
  { split; cbn [Vector2D.x Vector2D.y]; moderate_num. }
  split; [exact Hmod |].
  destruct (vector_divisions_safe (Vector2D.mk (Fin 3) (Fin 4)) (Fin 1) (Fin 1))
    as (_ & _ & _ & Hunit).
  destruct (Hunit Hmod) as [[_ H] | [H _]]; [exact H |].
  exfalso. injection H as H _. lra.
Defined.







End VectorLimit.

(** ** Random integers and random elements *)

Section RandomRange.

Import JS.

(** [Int_part] is the floor: the one integer [z] with [z <= x < z + 1]. *)
Lemma Int_part_spec (x : R) (z : Z) :
  Int_part x = z <-> IZR z <= x < IZR z + 1.
Proof.
  pose proof (base_Int_part x) as [Hlo Hhi]. split.
  - intros <-. lra.
  - intros [Hz1 Hz2].
    assert (H1 : (Int_part x < z + 1)%Z).
    { apply lt_IZR. rewrite plus_IZR. lra. }
    assert (H2 : (z < Int_part x + 1)%Z).
    { apply lt_IZR. rewrite plus_IZR. lra. }
    lia.
Qed.





End RandomRange.

(** ** The walls of the field *)

Section Walls.

Import JS Physics Scenes.

(** [checkBallWallCollision] on finite numbers, as expressions. *)
Lemma checkBallWallCollision_Fin (ball : PhysicsBody) (px py vx vy r e : R) :
  position ball = Vector2D.mk (Fin px) (Fin py) ->
  velocity ball = Vector2D.mk (Fin vx) (Fin vy) ->
  radius ball = Fin r -> restitution ball = Fin e ->
  let top := Rltb (py + - r) 0 in
  let y1 := if top then r else py in
  let v1 := if top then Rabs vy * e else vy in
  let bottom := Rltb 800 (y1 + r) in
  let y2 := if bottom then 800 + - r else y1 in
  let v2 := if bottom then - Rabs v1 * e else v1 in
  position (fst (checkBallWallCollision ball)) = Vector2D.mk (Fin px) (Fin y2) /\
  velocity (fst (checkBallWallCollision ball)) = Vector2D.mk (Fin vx) (Fin v2) /\
  snd (checkBallWallCollision ball) =
    (if Rltb (px + - r) 0 then Some player2
     else if Rltb 1200 (px + r) then Some player1 else None) /\
  (top = false -> bottom = false -> fst (checkBallWallCollision ball) = ball).
Proof.
  intros Hp Hv Hr He. cbv zeta.
  unfold checkBallWallCollision, GAME_CONFIG.canvasHeight, GAME_CONFIG.canvasWidth.
  rewrite Hp, Hv, Hr, He. cbn [Vector2D.x Vector2D.y sub neg add lt gt abs mul].
  destruct (Rltb (py + - r) 0);
    cbn [position velocity radius restitution withVelocity withPosition
         Vector2D.x Vector2D.y];
    rewrite ?Hp, ?Hv, ?Hr, ?He;
    cbn [Vector2D.x Vector2D.y sub neg add lt gt abs mul];
    (destruct (Rltb 800 _);
     cbn [position velocity radius restitution withVelocity withPosition
          Vector2D.x Vector2D.y fst snd];
     rewrite ?Hp, ?Hv, ?Hr, ?He;
     cbn [Vector2D.x Vector2D.y sub neg add lt gt abs mul];
     repeat split; try reflexivity; try discriminate).
Qed.

(** X25. The top and bottom walls keep the ball in the field.  For a ball
    with finite position and velocity, a restitution that is not negative
    and a radius [r] with [0 <= 2r <= 800], after [checkBallWallCollision]
    the centre is between [r] and [800 - r] in height, the horizontal
    position and velocity are untouched, and a ball that was past a wall
    has been put on it with a vertical velocity [|vy| * restitution]
    pointing back into the field; a ball inside the band is returned as it
    is.  The point goes to player 2 exactly when the ball is past the left
    wall, to player 1 when it is past the right wall only. *)
Theorem wall_keeps_ball_in_field (ball : PhysicsBody) (px py vx vy r e : R) :
  position ball = Vector2D.mk (Fin px) (Fin py) ->
  velocity ball = Vector2D.mk (Fin vx) (Fin vy) ->
  radius ball = Fin r -> restitution ball = Fin e ->
  0 <= e -> 0 <= 2 * r <= 800 ->
  let ball' := fst (checkBallWallCollision ball) in
  (exists py' vy',
     position ball' = Vector2D.mk (Fin px) (Fin py') /\
     velocity ball' = Vector2D.mk (Fin vx) (Fin vy') /\
     r <= py' <= 800 - r /\
     (py - r < 0 -> py' = r /\ vy' = Rabs vy * e /\ 0 <= vy') /\
     (800 < py + r -> py' = 800 - r /\ vy' = - Rabs vy * e /\ vy' <= 0) /\
     (e <= 1 -> Rabs vy' <= Rabs vy)) /\
  (r <= py <= 800 - r -> ball' = ball) /\
  (snd (checkBallWallCollision ball) = Some player2 <-> px - r < 0) /\
  (snd (checkBallWallCollision ball) = Some player1 <->
   ~ px - r < 0 /\ 1200 < px + r).
Proof.
  intros Hp Hv Hr He He0 Hr0 ball'. subst ball'.
  destruct (checkBallWallCollision_Fin ball px py vx vy r e Hp Hv Hr He)
    as (Hpos & Hvel & Hscore & Hsame).
  cbv zeta in Hpos, Hvel, Hsame.
  pose proof (Rabs_pos vy) as Habs.
  assert (Hprod : 0 <= Rabs vy * e) by (apply Rmult_le_pos; assumption).
  assert (Hshrink : e <= 1 -> Rabs vy * e <= Rabs vy) by (intros; nra).
  split; [| split; [| split]].
  - eexists _, _. split; [exact Hpos |]. split; [exact Hvel |].
    destruct (Rltb (py + - r) 0) eqn:Htop;
      [apply Rltb_true in Htop | apply Rltb_false in Htop];
      (destruct (Rltb 800 _) eqn:Hbottom;
       [apply Rltb_true in Hbottom | apply Rltb_false in Hbottom]);
      try (exfalso; lra);
      (split; [lra |]);
      (split; [intros; first [lra | split; [lra |]; split; lra] |]);
      (split; [intros; first [lra | split; [lra |]; split; lra] |]);
      intros He1; specialize (Hshrink He1);
      rewrite ?Rabs_mult, ?Rabs_Ropp, ?Rabs_Rabsolu, ?(Rabs_right e) by lra;
      lra.
  - intros Hin.
    assert (Htop : Rltb (py + - r) 0 = false) by (apply Rltb_false; lra).
    rewrite Htop in Hsame. apply Hsame; [reflexivity |]. apply Rltb_false. lra.
  - rewrite Hscore. destruct (Rltb (px + - r) 0) eqn:Hleft;
      [apply Rltb_true in Hleft | apply Rltb_false in Hleft].
    + split; [intros _; lra | reflexivity].
    + split; [destruct (Rltb 1200 (px + r)); discriminate | intros; lra].
  - rewrite Hscore. destruct (Rltb (px + - r) 0) eqn:Hleft;
      [apply Rltb_true in Hleft | apply Rltb_false in Hleft].
    + split; [discriminate | intros [Hn _]; lra].
    + destruct (Rltb 1200 (px + r)) eqn:Hright;
        [apply Rltb_true in Hright | apply Rltb_false in Hright].
      * split; [intros _; split; lra | reflexivity].
      * split; [discriminate | intros [_ Hn]; lra].
Qed.

(** A ball that has flown 3 past the top wall at speed (5, -3). *)
Lemma wall_keeps_ball_in_field_witness :
  exists py' vy',
    position (fst (checkBallWallCollision (ballWith 100 5 5 (-3) 1.0)))
    = Vector2D.mk (Fin 100) (Fin py') /\
    velocity (fst (checkBallWallCollision (ballWith 100 5 5 (-3) 1.0)))
    = Vector2D.mk (Fin 5) (Fin vy') /\
    8 <= py' <= 800 - 8 /\ 0 <= vy'.
Proof.
  destruct (wall_keeps_ball_in_field (ballWith 100 5 5 (-3) 1.0) 100 5 5 (-3) 8 1.0
              eq_refl eq_refl eq_refl eq_refl ltac:(lra) ltac:(lra))
    as ((py' & vy' & Hp & Hv & Hrange & Htop & _) & _).
  exists py', vy'. split; [exact Hp |]. split; [exact Hv |].
  split; [exact Hrange |]. apply Htop. lra.
Defined.

End Walls.

(** ** The replay memory and the reward of the network player *)

Section ReplayMemory.

Import JS AI Physics Scenes.

Lemma remember_snoc (es : list NeuralNetworkAI.Experience)
    (e : NeuralNetworkAI.Experience) (ai : NeuralNetworkAI.t) :
  fold_left NeuralNetworkAI.remember (es ++ [e]) ai =
  NeuralNetworkAI.remember (fold_left NeuralNetworkAI.remember es ai) e.
Proof. rewrite fold_left_app. reflexivity. Qed.

(** X26. The replay memory is bounded, the reward history is not.  From a
    new network player, after any number of calls of [remember] the memory
    holds the last 1000 experiences in the order they came, never more,
    while [rewardHistory] holds the reward of every call ever made: it
    grows by one entry per call, without bound. *)
Theorem remember_bounded (es : list NeuralNetworkAI.Experience) :
  let ai := fold_left NeuralNetworkAI.remember es NeuralNetworkAI.new in
  NeuralNetworkAI.memory ai = sliceLast 1000 es /\
  (length (NeuralNetworkAI.memory ai) <= 1000)%nat /\
  NeuralNetworkAI.memorySize ai = 1000%nat /\
  NeuralNetworkAI.rewardHistory ai = map NeuralNetworkAI.reward es /\
  length (NeuralNetworkAI.rewardHistory ai) = length es.
Proof.
  cbv zeta.
  assert (H : NeuralNetworkAI.memory
                (fold_left NeuralNetworkAI.remember es NeuralNetworkAI.new)
              = sliceLast 1000 es /\
              NeuralNetworkAI.memorySize
                (fold_left NeuralNetworkAI.remember es NeuralNetworkAI.new)
              = 1000%nat /\
              NeuralNetworkAI.rewardHistory
                (fold_left NeuralNetworkAI.remember es NeuralNetworkAI.new)
              = map NeuralNetworkAI.reward es).
  { induction es as [| e es IH] using rev_ind.
    - repeat split.
    - destruct IH as (Hmem & Hsize & Hrewards).
      rewrite remember_snoc.
      set (ai := fold_left NeuralNetworkAI.remember es NeuralNetworkAI.new) in *.
      unfold NeuralNetworkAI.remember.
      cbn [NeuralNetworkAI.memory NeuralNetworkAI.memorySize
           NeuralNetworkAI.rewardHistory].
      rewrite Hmem, Hsize, Hrewards.
      split; [symmetry; apply sliceLast_snoc |].
      split; [reflexivity |]. rewrite map_app. reflexivity. }
  destruct H as (Hmem & Hsize & Hrewards).
  split; [exact Hmem |]. split; [rewrite Hmem, sliceLast_length; lia |].
  split; [exact Hsize |]. split; [exact Hrewards |].
  rewrite Hrewards. apply length_map.
Qed.

(** X27. The reward is bounded.  For a paddle and a ball with finite
    heights [calculateReward] returns a finite reward between -10 and 10:
    exactly 10 for a point scored, -10 for a point conceded, 0 for both at
    once, and while the ball is in play a reward from 0 to 2, which is 2
    only when the ball is at the height of the paddle and flying right;
    its divisions are by 100 and 200. *)
Theorem calculateReward_bounds (paddle ball : PhysicsBody) (py bly : R)
    (scored conceded : bool) :
  Vector2D.y (position paddle) = Fin py ->
  Vector2D.y (position ball) = Fin bly ->
  exists rw,
    value (NeuralNetworkAI.calculateReward paddle ball scored conceded) = Fin rw /\
    -10 <= rw <= 10 /\
    (scored = true -> conceded = false -> rw = 10) /\
    (scored = false -> conceded = true -> rw = -10) /\
    (scored = true -> conceded = true -> rw = 0) /\
    (scored = false -> conceded = false ->
     0 <= rw <= 2 /\
     (rw = 2 -> bly = py /\ gt (Vector2D.x (velocity ball)) (Fin 0) = true)) /\
    Forall (fun q => strictEq q (Fin 0) = false)
      (divisors (NeuralNetworkAI.calculateReward paddle ball scored conceded)).
Proof.
  intros Hp Hb. unfold NeuralNetworkAI.calculateReward. rewrite Hp, Hb.
  assert (H100 : Reqb 100 0 = false) by (apply Reqb_false; lra).
  assert (H200 : Reqb 200 0 = false) by (apply Reqb_false; lra).
  pose proof (Rabs_pos (bly + - py)) as Habs.
  assert (Hm1 : 0 <= Rmax 0 (1 + - (Rabs (bly + - py) / 100)) <= 1).
  { split; [apply Rmax_l |]. apply Rmax_lub; lra. }
  assert (Hm2 : 0 <= Rmax 0 (1 + - (Rabs (bly + - py) / 200)) <= 1).
  { split; [apply Rmax_l |]. apply Rmax_lub; lra. }
  assert (Hfull : Rmax 0 (1 + - (Rabs (bly + - py) / 100)) = 1 -> bly = py).
  { intros H. unfold Rmax in H.
    destruct (Rle_dec 0 (1 + - (Rabs (bly + - py) / 100))); [| lra].
    assert (H0 : Rabs (bly + - py) = 0) by lra.
    destruct (Req_dec (bly + - py) 0) as [Hz | Hnz]; [lra |].
    apply Rabs_no_R0 in Hnz. contradiction. }
  destruct scored, conceded; cbn [negb andb add sub neg abs];
    unfold quotient, andThen, ret, value, divisors; cbn [fst snd div app].
  - eexists. split; [reflexivity |].
    repeat split; intros; try discriminate; try lra; constructor.
  - eexists. split; [reflexivity |].
    repeat split; intros; try discriminate; try lra; constructor.
  - eexists. split; [reflexivity |].
    repeat split; intros; try discriminate; try lra; constructor.
  - rewrite H100. cbn [add sub neg max].
    destruct (gt (Vector2D.x (velocity ball)) (Fin 0)) eqn:Hright.
    + cbn [fst snd div add sub neg max abs app]. rewrite H200.
      cbn [add sub neg max].
      eexists. split; [reflexivity |].
      split; [lra |]. split; [discriminate |]. split; [discriminate |].
      split; [discriminate |]. split.
      * intros _ _. split; [lra |]. intros H2.
        split; [apply Hfull; lra | reflexivity].
      * repeat constructor; cbn [strictEq]; assumption.
    + cbn [fst snd app]. eexists. split; [reflexivity |].
      split; [lra |]. split; [discriminate |]. split; [discriminate |].
      split; [discriminate |]. split.
      * intros _ _. split; [lra |]. intros H2. lra.
      * repeat constructor; cbn [strictEq]; assumption.
Qed.

(** The paddle body of [newBody] at height 200 and the ball at height 230
    flying right, in play. *)
Lemma calculateReward_bounds_witness :
  exists rw,
    value (NeuralNetworkAI.calculateReward (ballWith 1180 200 0 0 1.0)
             (ballWith 600 230 5 3 1.0) false false) = Fin rw /\
    0 <= rw <= 2.
Proof.
  destruct (calculateReward_bounds (ballWith 1180 200 0 0 1.0)
              (ballWith 600 230 5 3 1.0) 200 230 false false eq_refl eq_refl)
    as (rw & Hrw & _ & _ & _ & _ & Hplay & _).
  exists rw. split; [exact Hrw |]. apply Hplay; reflexivity.
Defined.

End ReplayMemory.

(** ** Rotations *)

Section Rotation.

Import JS.


End Rotation.

(** ** Remainders: [MathUtil.isPrime] and [MathUtil.wrap] *)

Section Remainders.

Import JS.

Lemma le_int (a b : Z) : le (Fin (IZR a)) (Fin (IZR b)) = (a <=? b)%Z.
Proof.
  cbn [le lt]. destruct (Z.leb_spec a b) as [H | H].
  - rewrite (proj2 (Rltb_false _ _) (IZR_le _ _ H)). reflexivity.
  - rewrite (proj2 (Rltb_true _ _) (IZR_lt _ _ H)). reflexivity.
Qed.

Lemma rem_int (a b : Z) :
  (0 <= a)%Z -> (0 < b)%Z ->
  rem (Fin (IZR a)) (Fin (IZR b)) = Fin (IZR (a mod b)).
Proof.
  intros Ha Hb. cbn [rem].
  assert (Hb' : 0 < IZR b) by (apply (IZR_lt 0), Hb).
  rewrite (proj2 (Reqb_false _ _)) by lra. f_equal.
  pose proof (Z.div_mod a b ltac:(lia)) as Hdm.
  pose proof (Z.mod_pos_bound a b Hb) as [Hm0 Hm1].
  assert (Hq : IZR a / IZR b = IZR (a / b) + IZR (a mod b) / IZR b).
  { rewrite Hdm at 1. rewrite plus_IZR, mult_IZR. field. lra. }
  assert (Hfrac : 0 <= IZR (a mod b) / IZR b < 1).
  { split.
    - apply Rmult_le_pos; [apply (IZR_le 0), Hm0 |].
      left. apply Rinv_0_lt_compat, Hb'.
    - apply (Rmult_lt_reg_r (IZR b)); [exact Hb' |].
      unfold Rdiv. rewrite Rmult_assoc, Rinv_l, Rmult_1_r, Rmult_1_l by lra.
      apply IZR_lt, Hm1. }
  assert (Hdiv0 : (0 <= a / b)%Z) by (apply Z.div_pos; lia).
  assert (Hdiv0' : 0 <= IZR (a / b)) by (apply (IZR_le 0), Hdiv0).
  unfold truncZ. rewrite (proj2 (Rltb_false _ _)) by lra.
  assert (Hpart : Int_part (IZR a / IZR b) = (a / b)%Z).
  { apply Int_part_spec. lra. }
  rewrite Hpart. rewrite Hdm at 1. rewrite plus_IZR, mult_IZR. ring.
Qed.

Lemma divides_int (a b : Z) :
  (0 <= a)%Z -> (0 < b)%Z ->
  strictEq (rem (Fin (IZR a)) (Fin (IZR b))) (Fin 0) = (a mod b =? 0)%Z.
Proof.
  intros Ha Hb. rewrite rem_int by assumption. cbn [strictEq].
  destruct (Z.eqb_spec (a mod b) 0) as [H | H].
  - rewrite H. apply Reqb_true. reflexivity.
  - apply Reqb_false. intros H0. apply H, eq_IZR, H0.
Qed.

Lemma divide_trans_not (n a d : Z) :
  ~ (a | n)%Z -> (a | d)%Z -> ~ (d | n)%Z.
Proof. intros Hn Had Hdn. apply Hn. eapply Z.divide_trans; eassumption. Qed.

Lemma isPrimeLoop_int (fuel : nat) : forall (n i : Z),
  (3 < n)%Z -> (exists k, 0 <= k /\ i = 6 * k + 5)%Z ->
  (forall d, 1 < d < i -> ~ (d | n))%Z ->
  (n - i < Z.of_nat fuel)%Z ->
  exists b, MathUtil.isPrimeLoop fuel (Fin (IZR n)) (Fin (IZR i)) = Ok b /\
            (b = true <-> Z.prime n).
Proof.
  induction fuel as [| fuel IH]; intros n i Hn (k & Hk & Hi) Hinv Hfuel.
  - exists true. cbn [MathUtil.isPrimeLoop mul]. rewrite <- mult_IZR, le_int.
    destruct (Z.leb_spec (i * i) n) as [Hle | Hgt]; [cbn in Hfuel; nia |].
    split; [reflexivity |]. split; [| reflexivity]. intros _.
    split; [lia |]. intros d Hd Hdiv.
    destruct (Z_lt_le_dec d i) as [Hlt | Hge]; [apply (Hinv d); [lia | exact Hdiv] |].
    destruct Hdiv as [q Hq].
    assert (Hq1 : (1 < q)%Z) by nia.
    assert (Hqi : (q < i)%Z) by nia.
    apply (Hinv q); [lia |]. exists d. lia.
  - cbn [MathUtil.isPrimeLoop mul add]. rewrite <- mult_IZR, <- !plus_IZR, le_int.
    destruct (Z.leb_spec (i * i) n) as [Hle | Hgt].
    + rewrite !divides_int by lia.
      destruct (Z.eqb_spec (n mod i) 0) as [H1 | H1].
      { exists false. split; [reflexivity |]. split; [discriminate |].
        intros [_ Hp].
        exfalso. apply (Hp i); [nia |]. apply Z.mod_divide; [lia | exact H1]. }
      destruct (Z.eqb_spec (n mod (i + 2)) 0) as [H2 | H2].
      { exists false. split; [reflexivity |]. split; [discriminate |].
        intros [_ Hp].
        exfalso. apply (Hp (i + 2)%Z); [nia |].
        apply Z.mod_divide; [lia | exact H2]. }
      cbn [orb]. apply IH.
      * exact Hn.
      * exists (k + 1)%Z. lia.
      * intros d Hd.
        assert (Hn2 : ~ (2 | n)%Z) by (apply Hinv; lia).
        assert (Hn3 : ~ (3 | n)%Z) by (apply Hinv; lia).
        assert (Hcases : (d < i \/ d = i \/ d = i + 1 \/ d = i + 2 \/
                          d = i + 3 \/ d = i + 4 \/ d = i + 5)%Z) by lia.
        destruct Hcases as [H | [H | [H | [H | [H | [H | H]]]]]].
        -- apply Hinv. lia.
        -- subst d. intros Hdiv. apply H1. apply Z.mod_divide; [lia | exact Hdiv].
        -- apply (divide_trans_not n 2 d Hn2). exists (3 * k + 3)%Z. lia.
        -- rewrite H. intros Hdiv. apply H2.
           apply Z.mod_divide; [lia | exact Hdiv].
        -- apply (divide_trans_not n 2 d Hn2). exists (3 * k + 4)%Z. lia.
        -- apply (divide_trans_not n 3 d Hn3). exists (2 * k + 3)%Z. lia.
        -- apply (divide_trans_not n 2 d Hn2). exists (3 * k + 5)%Z. lia.
      * lia.
    + exists true. split; [reflexivity |]. split; [| reflexivity]. intros _.
      split; [lia |]. intros d Hd Hdiv.
      destruct (Z_lt_le_dec d i) as [Hlt | Hge]; [apply (Hinv d); [lia | exact Hdiv] |].
      destruct Hdiv as [q Hq].
      assert (Hq1 : (1 < q)%Z) by nia.
      assert (Hqi : (q < i)%Z) by nia.
      apply (Hinv q); [lia |]. exists d. lia.
Qed.

Lemma isPrimeLoop_infinite (fuel : nat) : forall r : R,
  MathUtil.isPrimeLoop fuel PInf (Fin r) = OutOfFuel.
Proof.
  induction fuel as [| fuel IH]; intros r; [reflexivity |].
  cbn [MathUtil.isPrimeLoop mul le lt negb rem strictEq orb add]. apply IH.
Qed.

(** X29. [MathUtil.isPrime] decides primality of whole numbers.  For every
    integer [z], with as many loop rounds as [z] allowed (a bound; the
    loop stops near the square root), [isPrime(z)] returns, and returns
    [true] exactly when [z] is a prime number.  At the edges of the number
    type: [isPrime(NaN)] is [true], and [isPrime(Infinity)] never returns,
    whatever the number of rounds allowed. *)
Theorem isPrime_correct :
  (forall z : Z, exists b,
     (forall fuel, (Z.to_nat z <= fuel)%nat ->
        MathUtil.isPrime fuel (Fin (IZR z)) = Ok b) /\
     (b = true <-> Z.prime z)) /\
  (forall fuel, MathUtil.isPrime fuel NaN = Ok true) /\
  (forall fuel, MathUtil.isPrime fuel PInf = OutOfFuel).
Proof.
  split; [| split].
  - intros z. unfold MathUtil.isPrime.
    change (Fin 1) with (Fin (IZR 1)). change (Fin 3) with (Fin (IZR 3)).
    change (Fin 2) with (Fin (IZR 2)). change (Fin 5) with (Fin (IZR 5)).
    rewrite !le_int.
    destruct (Z.leb_spec z 1) as [H1 | H1].
    { exists false. split; [reflexivity |]. split; [discriminate |].
      intros [Hp _]. lia. }
    destruct (Z.leb_spec z 3) as [H3 | H3].
    { exists true. split; [reflexivity |]. split; [| reflexivity]. intros _.
      assert (Hz : z = 2%Z \/ z = 3%Z) by lia.
      destruct Hz as [-> | ->]; [apply Z.prime_2 | apply Z.prime_3]. }
    rewrite !divides_int by lia.
    destruct (Z.eqb_spec (z mod 2) 0) as [H2 | H2].
    { exists false. split; [reflexivity |]. split; [discriminate |].
      intros [_ Hp].
      exfalso. apply (Hp 2%Z); [lia |]. apply Z.mod_divide; [lia | exact H2]. }
    destruct (Z.eqb_spec (z mod 3) 0) as [H3' | H3'].
    { exists false. split; [reflexivity |]. split; [discriminate |].
      intros [_ Hp].
      exfalso. apply (Hp 3%Z); [lia |]. apply Z.mod_divide; [lia | exact H3']. }
    cbn [orb].
    assert (Hn2 : ~ (2 | z)%Z).
    { intros Hdiv. apply H2. apply Z.mod_divide; [lia | exact Hdiv]. }
    assert (Hn3 : ~ (3 | z)%Z).
    { intros Hdiv. apply H3'. apply Z.mod_divide; [lia | exact Hdiv]. }
    destruct (isPrimeLoop_int (Z.to_nat z) z 5 H3) as (b & Hb & Hprime).
    { exists 0%Z. lia. }
    { intros d Hd.
      assert (Hcases : (d = 2 \/ d = 3 \/ d = 4)%Z) by lia.
      destruct Hcases as [-> | [-> | ->]]; try assumption.
      apply (divide_trans_not z 2 4 Hn2). exists 2%Z. lia. }
    { lia. }
    exists b. split; [| exact Hprime]. intros fuel Hfuel.
    destruct (isPrimeLoop_int fuel z 5 H3) as (b' & Hb' & Hprime').
    { exists 0%Z. lia. }
    { intros d Hd.
      assert (Hcases : (d = 2 \/ d = 3 \/ d = 4)%Z) by lia.
      destruct Hcases as [-> | [-> | ->]]; try assumption.
      apply (divide_trans_not z 2 4 Hn2). exists 2%Z. lia. }
    { lia. }
    rewrite Hb'. f_equal. destruct b, b'; try reflexivity.
    + exfalso. assert (false = true) by (apply Hprime', Hprime; reflexivity).
      discriminate.
    + exfalso. assert (false = true) by (apply Hprime, Hprime'; reflexivity).
      discriminate.
  - intros fuel. unfold MathUtil.isPrime. cbn [le rem strictEq orb].
    destruct fuel; reflexivity.
  - intros fuel. unfold MathUtil.isPrime. cbn [le lt negb rem strictEq orb].
    apply isPrimeLoop_infinite.
Qed.



End Remainders.
